(** * Dual-bucket rate limiter of mistral-ratelimit: model and properties

    Shallow embedding of [rate_limiter.py], [client.py], [token_counter.py]
    and [config.py].

    Numbers.  The buckets hold Python floats.  The accounting properties
    below are properties of the arithmetic the code writes down, so floats
    are idealised as exact rationals [Q]: [+], [-], [*], [/] are exact,
    comparisons are the rational ones, and NaN/infinity do not exist.
    Equalities between computed quantities are therefore stated with [==]
    ([Qeq]).  Integer quantities (token counts) are [Z].

    Time.  [time.monotonic()] is the [now] field of the world; it moves
    only when the program sleeps, by the length asked for, or when a
    history says that time passes between two calls.

    Locks.  The model is sequential: one call runs at a time, which is what
    holding the limiter's lock for a whole call gives. *)

From Stdlib Require Import ZArith QArith Qminmax Qround Lqa Lia List String Bool.
From Stdlib Require Floats.SpecFloat.
Import ListNotations.

Local Open Scope Q_scope.

(** ** Python results *)

(** The exceptions of exceptions.py that the client raises. *)
Inductive ClientError : Type :=
| RateLimitExceeded (message : string) (retry_after : option Q)
                    (limit_type : option string)
| MistralRatelimitError (message : string).

Inductive PyError : Type :=
| ZeroDivisionError
| ValueError (msg : string)
| AttributeError (attr : string)
| TypeError (msg : string)
| OverflowError (msg : string)
| LibraryError (error : ClientError).

Inductive Result (A : Type) : Type :=
| Ok (a : A)
| Raise (e : PyError).
Arguments Ok {A} a.
Arguments Raise {A} e.

(** ** Comparisons and division as the code uses them *)

(** [a >= b] *)
Definition Qgeb (a b : Q) : bool := Qle_bool b a.
(** [a < b] *)
Definition Qltb (a b : Q) : bool := negb (Qle_bool b a).
(** [a > b] *)
Definition Qgtb (a b : Q) : bool := negb (Qle_bool a b).
(** [a <= b] *)
Definition Qleb (a b : Q) : bool := Qle_bool a b.

(** [a / b] on floats raises [ZeroDivisionError] when [b] is zero. *)
Definition py_div (a b : Q) : Result Q :=
  if Qeq_bool b 0 then Raise ZeroDivisionError else Ok (a / b).

(** ** rate_limiter.py: RateLimitState *)

Record RateLimitState : Type := mkState {
  available : Q;
  max_tokens : Q;
  refill_rate : Q;
  last_update : Q
}.

Definition set_available (b : RateLimitState) (a : Q) : RateLimitState :=
  mkState a (max_tokens b) (refill_rate b) (last_update b).

(** The two buckets a limiter owns; both flavours have the same fields. *)
Record RateLimiter : Type := mkLimiter {
  request_bucket : RateLimitState;
  token_bucket : RateLimitState
}.

(** The program state: the monotonic clock and one limiter. *)
Record World : Type := mkWorld {
  now : Q;
  limiter : RateLimiter
}.

(** ** A state-and-exception monad for the limiter's methods *)

Definition M (A : Type) : Type := World -> Result (A * World).

Definition ret {A} (a : A) : M A := fun w => Ok (a, w).

Definition bind {A B} (m : M A) (k : A -> M B) : M B :=
  fun w => match m w with
           | Ok (a, w') => k a w'
           | Raise e => Raise e
           end.

Definition raise {A} (e : PyError) : M A := fun _ => Raise e.

Definition lift {A} (r : Result A) : M A :=
  fun w => match r with Ok a => Ok (a, w) | Raise e => Raise e end.

Declare Scope py_scope.
Delimit Scope py_scope with py.
Notation "x <- m ;; k" := (bind m (fun x => k))
  (at level 61, m at next level, right associativity) : py_scope.
Notation "m ;; k" := (bind m (fun _ => k))
  (at level 61, right associativity) : py_scope.
Local Open Scope py_scope.

(** [time.monotonic()] *)
Definition monotonic : M Q := fun w => Ok (now w, w).

(** [time.sleep(d)]: rejects a negative length, otherwise the clock has
    advanced by [d] when it returns. *)
Definition sleep (d : Q) : M unit :=
  fun w => if Qltb d 0
           then Raise (ValueError "sleep length must be non-negative")
           else Ok (tt, mkWorld (now w + d) (limiter w)).

(** [await asyncio.sleep(d)]: a non-positive delay returns at once. *)
Definition async_sleep (d : Q) : M unit :=
  fun w => if Qleb d 0 then Ok (tt, w)
           else Ok (tt, mkWorld (now w + d) (limiter w)).

(** Which of the two buckets a helper works on ([self._request_bucket] or
    [self._token_bucket]). *)
Inductive Which : Type := Req | Tok.

Definition get_bucket (s : Which) (l : RateLimiter) : RateLimitState :=
  match s with Req => request_bucket l | Tok => token_bucket l end.

Definition put_bucket (s : Which) (b : RateLimitState) (l : RateLimiter)
  : RateLimiter :=
  match s with
  | Req => mkLimiter b (token_bucket l)
  | Tok => mkLimiter (request_bucket l) b
  end.

Definition read (s : Which) : M RateLimitState :=
  fun w => Ok (get_bucket s (limiter w), w).

Definition write (s : Which) (b : RateLimitState) : M unit :=
  fun w => Ok (tt, mkWorld (now w) (put_bucket s b (limiter w))).

(** ** RateLimiter.__init__ / AsyncRateLimiter.__init__

    Neither constructor has a failing path; [t] is the clock reading. *)
Definition RateLimiter_init (t : Q) (requests_per_second tokens_per_minute : Q)
  : Result RateLimiter :=
  let request_bucket :=
    mkState requests_per_second requests_per_second requests_per_second t in
  let tokens_per_second := tokens_per_minute / 60 in
  let token_bucket :=
    mkState tokens_per_minute tokens_per_minute tokens_per_second t in
  Ok (mkLimiter request_bucket token_bucket).

Definition AsyncRateLimiter_init := RateLimiter_init.

(** ** RateLimiter._refill *)

(** The arithmetic of [_refill] once the clock has been read. *)
Definition refill_at (t : Q) (b : RateLimitState) : RateLimitState :=
  let elapsed := t - last_update b in
  let new_tokens := elapsed * refill_rate b in
  mkState (Qmin (max_tokens b) (available b + new_tokens))
          (max_tokens b) (refill_rate b) t.

Definition _refill (s : Which) : M unit :=
  t <- monotonic ;;
  b <- read s ;;
  write s (refill_at t b).

(** [bucket.available -= tokens] *)
Definition debit (s : Which) (tokens : Q) : M unit :=
  b <- read s ;;
  write s (set_available b (available b - tokens)).

(** ** RateLimiter._acquire_request / _acquire_token

    The two methods are the same text on the two buckets. *)
Definition _acquire_bucket (s : Which) (tokens : Q) : M Q :=
  _refill s ;;
  b <- read s ;;
  if Qgeb (available b) tokens then
    debit s tokens ;;
    ret 0
  else
    let needed := tokens - available b in
    wait_time <- lift (py_div needed (refill_rate b)) ;;
    ret wait_time.

Definition _acquire_request := _acquire_bucket Req.
Definition _acquire_token := _acquire_bucket Tok.

(** ** RateLimiter.acquire *)
Definition acquire (request_tokens token_count : Q) : M Q :=
  let total_wait := 0 in
  wait <- _acquire_request request_tokens ;;
  let total_wait := total_wait + wait in
  (if Qgtb wait 0 then
     sleep wait ;;
     _refill Req ;;
     debit Req request_tokens
   else ret tt) ;;
  wait <- _acquire_token token_count ;;
  let total_wait := total_wait + wait in
  (if Qgtb wait 0 then
     sleep wait ;;
     _refill Tok ;;
     debit Tok token_count
   else ret tt) ;;
  ret total_wait.

(** ** RateLimiter.get_wait_time *)
Definition get_wait_time (request_tokens token_count : Q) : M Q :=
  _refill Req ;;
  _refill Tok ;;
  rb <- read Req ;;
  wait_request <-
    (if Qltb (available rb) request_tokens then
       let needed := request_tokens - available rb in
       lift (py_div needed (refill_rate rb))
     else ret 0) ;;
  tb <- read Tok ;;
  wait_token <-
    (if Qltb (available tb) token_count then
       let needed := token_count - available tb in
       lift (py_div needed (refill_rate tb))
     else ret 0) ;;
  ret (Qmax wait_request wait_token).

(** ** AsyncRateLimiter.acquire

    The same arithmetic written inline, with the wait in the [else] branch
    and a cooperative sleep. *)
Definition AsyncRateLimiter_acquire (request_tokens token_count : Q) : M Q :=
  let total_wait := 0 in
  _refill Req ;;
  rb <- read Req ;;
  total_wait <-
    (if Qgeb (available rb) request_tokens then
       debit Req request_tokens ;;
       ret total_wait
     else
       let needed := request_tokens - available rb in
       wait_time <- lift (py_div needed (refill_rate rb)) ;;
       let total_wait := total_wait + wait_time in
       async_sleep wait_time ;;
       _refill Req ;;
       debit Req request_tokens ;;
       ret total_wait) ;;
  _refill Tok ;;
  tb <- read Tok ;;
  total_wait <-
    (if Qgeb (available tb) token_count then
       debit Tok token_count ;;
       ret total_wait
     else
       let needed := token_count - available tb in
       wait_time <- lift (py_div needed (refill_rate tb)) ;;
       let total_wait := total_wait + wait_time in
       async_sleep wait_time ;;
       _refill Tok ;;
       debit Tok token_count ;;
       ret total_wait) ;;
  ret total_wait.

(** [AsyncRateLimiter.get_wait_time] is the text of
    [RateLimiter.get_wait_time]. *)
Definition AsyncRateLimiter_get_wait_time := get_wait_time.

(** ** config.py: RatelimitConfig *)

Record RatelimitConfig : Type := mkConfig {
  api_key : option string;
  requests_per_second : Q;
  tokens_per_minute : Z;
  max_retries : Z;
  base_delay : Q;
  max_delay : Q;
  timeout : Q
}.

(** [__post_init__], run by the dataclass constructor.  [env_key] is
    [os.environ.get("MISTRAL_API_KEY")]. *)
Definition RatelimitConfig_post_init (env_key : option string)
    (self : RatelimitConfig) : Result RatelimitConfig :=
  let key := match api_key self with
             | None => env_key
             | Some k => Some k
             end in
  match key with
  | None =>
      Raise (ValueError
        "api_key must be provided either directly or via MISTRAL_API_KEY environment variable")
  | Some _ =>
      if Qleb (requests_per_second self) 0 then
        Raise (ValueError "requests_per_second must be positive")
      else if (tokens_per_minute self <=? 0)%Z then
        Raise (ValueError "tokens_per_minute must be positive")
      else if (max_retries self <? 0)%Z then
        Raise (ValueError "max_retries must be non-negative")
      else if Qleb (base_delay self) 0 then
        Raise (ValueError "base_delay must be positive")
      else if Qleb (max_delay self) 0 then
        Raise (ValueError "max_delay must be positive")
      else if Qleb (timeout self) 0 then
        Raise (ValueError "timeout must be positive")
      else
        Ok (mkConfig key (requests_per_second self) (tokens_per_minute self)
                     (max_retries self) (base_delay self) (max_delay self)
                     (timeout self))
  end.

(** [MistralRatelimitClient.__init__]: the two limiters built from a
    configuration (the blocking one first). *)
Definition MistralRatelimitClient_init (t : Q) (config : RatelimitConfig)
  : Result (RateLimiter * RateLimiter) :=
  match RateLimiter_init t (requests_per_second config)
                         (inject_Z (tokens_per_minute config)) with
  | Raise e => Raise e
  | Ok rl =>
      match AsyncRateLimiter_init t (requests_per_second config)
                                  (inject_Z (tokens_per_minute config)) with
      | Raise e => Raise e
      | Ok arl => Ok (rl, arl)
      end
  end.

(** The client a user obtains: the configuration is validated when it is
    constructed, then handed to the client. *)
Definition make_client (t : Q) (env_key : option string)
    (fields : RatelimitConfig) : Result (RateLimiter * RateLimiter) :=
  match RatelimitConfig_post_init env_key fields with
  | Raise e => Raise e
  | Ok config => MistralRatelimitClient_init t config
  end.

(** ** Python values that reach the token estimator ([inputs: Any]) *)

#[local] Set Warnings "-register-all".
Inductive pyval : Type :=
| PNone
| PBool (b : bool)
| PInt (z : Z)
| PStr (s : string)
| PList (items : list pyval)
| PDict (entries : list (string * pyval)).

(** [d.get(key)]; the entries of a dict have distinct keys. *)
Fixpoint dict_get (entries : list (string * pyval)) (key : string)
  : option pyval :=
  match entries with
  | [] => None
  | (k, v) :: rest => if String.eqb k key then Some v else dict_get rest key
  end.

(** [d.get(key, default)] *)
Definition dict_get_default (entries : list (string * pyval)) (key : string)
    (default : pyval) : pyval :=
  match dict_get entries key with
  | Some v => v
  | None => default
  end.

(** [key in d] *)
Definition dict_contains (entries : list (string * pyval)) (key : string)
  : bool :=
  match dict_get entries key with Some _ => true | None => false end.

(** Truth value of [d.get(key)] in a condition. *)
Definition truthy (v : option pyval) : bool :=
  match v with
  | None | Some PNone => false
  | Some (PBool b) => b
  | Some (PInt z) => negb (z =? 0)%Z
  | Some (PStr s) => negb (String.eqb s "")
  | Some (PList items) => match items with [] => false | _ => true end
  | Some (PDict entries) => match entries with [] => false | _ => true end
  end.

(** [d.get(key) == s] for a string literal [s] *)
Definition get_eq_str (v : option pyval) (s : string) : bool :=
  match v with
  | Some (PStr s') => String.eqb s' s
  | _ => false
  end.

(** ** token_counter.py *)

(** The tiktoken encoding object, as far as the source uses it: the two
    tokenising methods.  The tokeniser itself is outside the repository
    and is taken as given: [encode] returns the tokens of a text or
    raises (tiktoken refuses a text that contains a special token with
    [ValueError]); [encode_ordinary] always returns. *)
Record Encoding : Type := mkEncoding {
  encode : string -> Result (list Z);
  encode_ordinary : string -> list Z
}.

(** Attribute lookup on the encoding object by name. *)
Definition Encoding_getattr (enc : Encoding) (name : string)
  : Result (string -> Result (list Z)) :=
  if String.eqb name "encode" then Ok (encode enc)
  else if String.eqb name "encode_ordinary" then
    Ok (fun text => Ok (encode_ordinary enc text))
  else Raise (AttributeError name).

Record TokenCounter : Type := mkCounter { _encoding : Encoding }.

(** [len(...)] as a Python int *)
Definition len {A} (l : list A) : Z := Z.of_nat (List.length l).

(** [TokenCounter.count_text] *)
Definition count_text (self : TokenCounter) (text : string) : Result Z :=
  match encode (_encoding self) text with
  | Raise e => Raise e
  | Ok tokens => Ok (len tokens)
  end.

(** The inner loop of [count_messages] over the parts of a multimodal
    content list.  A text part looks up [encodeordinary] on the encoding
    and adds what the call returns to the integer total. *)
Fixpoint count_content_items (self : TokenCounter) (items : list pyval)
    (total_tokens : Z) : Result Z :=
  match items with
  | [] => Ok total_tokens
  | item :: rest =>
      match item with
      | PDict d =>
          if get_eq_str (dict_get d "type") "text" then
            match Encoding_getattr (_encoding self) "encodeordinary" with
            | Raise e => Raise e
            | Ok _ =>
                Raise (TypeError
                  "unsupported operand type(s) for +=: 'int' and 'list'")
            end
          else if get_eq_str (dict_get d "type") "image_url" then
            count_content_items self rest (total_tokens + 85)%Z
          else count_content_items self rest total_tokens
      | _ => count_content_items self rest total_tokens
      end
  end.

(** The loop [for message in messages] of [count_messages]. *)
Fixpoint count_messages_loop (self : TokenCounter) (messages : list pyval)
    (total_tokens : Z) : Result Z :=
  match messages with
  | [] => Ok total_tokens
  | message :: rest =>
      match message with
      | PDict m =>
          let tokens_per_name := 1%Z in
          match dict_get_default m "content" (PStr "") with
          | PStr content =>
              let total_tokens :=
                (total_tokens + len (encode_ordinary (_encoding self) content))%Z in
              let total_tokens :=
                (total_tokens +
                 (if truthy (dict_get m "name") then tokens_per_name else 0))%Z in
              count_messages_loop self rest total_tokens
          | PList items =>
              match count_content_items self items total_tokens with
              | Raise e => Raise e
              | Ok total_tokens => count_messages_loop self rest total_tokens
              end
          | _ => count_messages_loop self rest total_tokens
          end
      | _ => Raise (AttributeError "get")
      end
  end.

(** [TokenCounter.count_messages] *)
Definition count_messages (self : TokenCounter) (messages : list pyval)
  : Result Z :=
  match messages with
  | [] => Ok 0%Z
  | _ =>
      let tokens_per_message := 4%Z in
      let total_tokens := (tokens_per_message * len messages)%Z in
      match count_messages_loop self messages total_tokens with
      | Raise e => Raise e
      | Ok total_tokens => Ok (total_tokens + 2)%Z
      end
  end.

(** ** client.py: RateLimitedConversations *)

(** The loop [for item in inputs] of [_estimate_tokens]. *)
Fixpoint estimate_items (tc : TokenCounter) (inputs : list pyval) (tokens : Z)
  : Result Z :=
  match inputs with
  | [] => Ok tokens
  | item :: rest =>
      match item with
      | PStr s =>
          match count_text tc s with
          | Raise e => Raise e
          | Ok n => estimate_items tc rest (tokens + n)%Z
          end
      | PDict d =>
          match dict_get_default d "content" (PStr "") with
          | PStr content =>
              match count_text tc content with
              | Raise e => Raise e
              | Ok n => estimate_items tc rest (tokens + n)%Z
              end
          | _ => estimate_items tc rest tokens
          end
      | _ => estimate_items tc rest tokens
      end
  end.

(** [_estimate_tokens] *)
Definition _estimate_tokens (tc : TokenCounter) (inputs : pyval) : Result Z :=
  match inputs with
  | PStr s => count_text tc s
  | PList items =>
      match items with
      | PDict d :: _ =>
          if dict_contains d "content" then count_messages tc items
          else estimate_items tc items 0
      | _ => estimate_items tc items 0
      end
  | PDict d =>
      match dict_get_default d "content" (PStr "") with
      | PStr content => count_text tc content
      | _ => Ok 100%Z
      end
  | _ => Ok 100%Z
  end.

(** [estimated = self._estimate_tokens(inputs) + 100], the first line of
    every conversation call. *)
Definition estimated_for (tc : TokenCounter) (inputs : pyval) : Result Z :=
  match _estimate_tokens tc inputs with
  | Raise e => Raise e
  | Ok n => Ok (n + 100)%Z
  end.

(** [_refund_tokens] (and, on the other limiter, [_refund_tokens_async]):
    the token bucket is credited directly. *)
Definition _refund_tokens (estimated actual_tokens : Z) (l : RateLimiter)
  : RateLimiter :=
  if (actual_tokens <? estimated)%Z then
    let tb := token_bucket l in
    put_bucket Tok
      (set_available tb (available tb + inject_Z (estimated - actual_tokens))) l
  else l.

Definition _refund_tokens_async := _refund_tokens.

(** A response or event payload as [_extract_usage] sees it.  [usage] is
    [None] when the attribute (or key) is absent; otherwise it carries
    [total_tokens], itself [None] when missing or null. *)
Inductive Response : Type :=
| ObjResponse (usage : option (option Z))
| DictResponse (usage : option (option Z))
| OtherResponse.

(** [x or 0] *)
Definition or_zero (x : option Z) : Z :=
  match x with
  | Some n => if (n =? 0)%Z then 0%Z else n
  | None => 0%Z
  end.

(** [_extract_usage] *)
Definition _extract_usage (response : Response) : Z :=
  match response with
  | ObjResponse (Some usage) => or_zero usage
  | ObjResponse None => 0%Z
  | DictResponse (Some usage) => or_zero usage
  | DictResponse None => 0%Z
  | OtherResponse => 0%Z
  end.

(** A stream event: [data] is [None] when the event has no such attribute;
    [type_] is [getattr(data, "type", "")]. *)
Record EventData : Type := mkData {
  type_ : string;
  body : Response
}.

Record Event : Type := mkEvent {
  data : option EventData;
  payload : string
}.

(** What the wrapper does with one event before yielding it. *)
Definition observe_event (estimated : Z) (event : Event) (l : RateLimiter)
  : RateLimiter :=
  match data event with
  | Some d =>
      let event_type := type_ d in
      if String.eqb event_type "conversation.response.done" then
        let actual := _extract_usage (body d) in
        _refund_tokens estimated actual l
      else l
  | None => l
  end.

(** The upstream iterator: each [next()] yields an event or raises; the
    end of the list is exhaustion. *)
Inductive StreamItem : Type :=
| Yield (event : Event)
| Throw (e : PyError).

(** How the consumer's iteration over the wrapper ended. *)
Inductive StreamEnd : Type :=
| Exhausted
| Raised (e : PyError)
| Abandoned.

(** [_process_stream_response], a generator: [pulls] is the number of
    times the consumer asks for a next event before it walks away.  The
    result is the events it received, how the iteration ended, and the
    limiter afterwards. *)
Fixpoint _process_stream_response (pulls : nat) (stream : list StreamItem)
    (estimated : Z) (l : RateLimiter)
  : list Event * StreamEnd * RateLimiter :=
  match pulls with
  | O => ([], Abandoned, l)
  | S pulls' =>
      match stream with
      | [] => ([], Exhausted, l)
      | Throw e :: _ => ([], Raised e, l)
      | Yield event :: rest =>
          let l1 := observe_event estimated event l in
          let '(events, ending, l2) :=
            _process_stream_response pulls' rest estimated l1 in
          (event :: events, ending, l2)
      end
  end.

(** [str.lower()], on texts of ASCII characters. *)
Definition lower_ascii (c : Ascii.ascii) : Ascii.ascii :=
  let n := Ascii.nat_of_ascii c in
  if (65 <=? n)%nat && (n <=? 90)%nat then Ascii.ascii_of_nat (n + 32) else c.

Fixpoint lower (s : string) : string :=
  match s with
  | EmptyString => EmptyString
  | String c rest => String (lower_ascii c) (lower rest)
  end.

(** [sub in s] *)
Fixpoint contains (s sub : string) : bool :=
  String.prefix sub s ||
  match s with
  | EmptyString => false
  | String _ rest => contains rest sub
  end.

(** [_handle_error]; the error comes as its text, [str(error)]. *)
Definition _handle_error (error : string) : ClientError :=
  let error_str := lower error in
  if contains error_str "429" || contains error_str "rate limit" then
    RateLimitExceeded (String.append "Rate limit exceeded: " error) None
                      (Some "requests"%string)
  else
    MistralRatelimitError (String.append "API error: " error).

(** [str(error)]: the text an error was raised with.  The division that
    raises in the limiter is one of floats and has Python's text for it.
    Python's text of an [AttributeError] also names the type of the
    object, which the model does not record: the attribute's name stands
    for the text. *)
Definition str_of_error (e : PyError) : string :=
  match e with
  | ZeroDivisionError => "float division by zero"
  | ValueError msg => msg
  | AttributeError attr => attr
  | TypeError msg => msg
  | OverflowError msg => msg
  | LibraryError (RateLimitExceeded message _ _) => message
  | LibraryError (MistralRatelimitError message) => message
  end.

(** [except Exception as e: raise self._handle_error(e) from e] around
    the iteration: an error of the upstream reaches the consumer
    converted. *)
Definition convert_ending (ending : StreamEnd) : StreamEnd :=
  match ending with
  | Raised e => Raised (LibraryError (_handle_error (str_of_error e)))
  | Exhausted => Exhausted
  | Abandoned => Abandoned
  end.

(** [start_stream]/[append_stream]/[restart_stream] once the estimate is
    known.  These are generator functions: nothing runs before the first
    pull; then the call reserves (outside the [try]) and hands the
    upstream events through the wrapper (inside it). *)
Definition stream_call (estimated : Z) (pulls : nat) (stream : list StreamItem)
  : M (list Event * StreamEnd) :=
  match pulls with
  | O => ret ([], Abandoned)
  | S _ =>
      acquire 1 (inject_Z estimated) ;;
      fun w =>
        let '(events, ending, l) :=
          _process_stream_response pulls stream estimated (limiter w) in
        Ok ((events, convert_ending ending), mkWorld (now w) l)
  end.

(** [start]/[append]/[restart] once the estimate is known: reserve, call,
    reconcile against the response's usage. *)
Definition plain_call (estimated : Z) (response : Response) : M Response :=
  acquire 1 (inject_Z estimated) ;;
  fun w =>
    let actual := _extract_usage response in
    Ok (response, mkWorld (now w) (_refund_tokens estimated actual (limiter w))).

(** ** Histories of a limiter

    What can happen to one limiter, one call at a time. *)
Inductive Op : Type :=
| Elapse (d : Q)
| DoRefill (s : Which)
| DoAcquire (request_tokens token_count : Q)
| DoAsyncAcquire (request_tokens token_count : Q)
| DoGetWaitTime (request_tokens token_count : Q)
| DoRefund (estimated actual_tokens : Z).

Definition run_op (op : Op) : M unit :=
  match op with
  | Elapse d => fun w => Ok (tt, mkWorld (now w + d) (limiter w))
  | DoRefill s => _refill s
  | DoAcquire r k => acquire r k ;; ret tt
  | DoAsyncAcquire r k => AsyncRateLimiter_acquire r k ;; ret tt
  | DoGetWaitTime r k => get_wait_time r k ;; ret tt
  | DoRefund e a =>
      fun w => Ok (tt, mkWorld (now w) (_refund_tokens e a (limiter w)))
  end.

Fixpoint run (ops : list Op) : M unit :=
  match ops with
  | [] => ret tt
  | op :: rest => run_op op ;; run rest
  end.

(** The callers' side of the contract: time does not run backwards, and a
    requested cost is non-negative and within the bucket's capacity (what
    the bucket can eventually hold). *)
Definition op_ok (l : RateLimiter) (op : Op) : Prop :=
  match op with
  | Elapse d => 0 <= d
  | DoAcquire r k | DoAsyncAcquire r k =>
      (0 <= r /\ r <= max_tokens (request_bucket l)) /\
      (0 <= k /\ k <= max_tokens (token_bucket l))
  | _ => True
  end.

(** Whether the token bucket has been refilled since the last refund that
    credited it. *)
Definition settles (settled : bool) (op : Op) : bool :=
  match op with
  | DoRefund e a => if (a <? e)%Z then false else settled
  | DoRefill Tok | DoAcquire _ _ | DoAsyncAcquire _ _ | DoGetWaitTime _ _ => true
  | _ => settled
  end.

Definition tok_settled (ops : list Op) : bool := fold_left settles ops true.

(** ** The algorithm of [acquire] in the specification's words

    Per bucket: refill; if enough is available, debit at once with no
    wait; otherwise wait [(cost - available) / refillRate], refill again,
    and debit without checking. *)
Definition bucket_acquire_spec (s : Which) (cost : Q) (w : World)
  : Q * World :=
  let b1 := refill_at (now w) (get_bucket s (limiter w)) in
  if Qgeb (available b1) cost then
    (0, mkWorld (now w)
          (put_bucket s (set_available b1 (available b1 - cost)) (limiter w)))
  else
    let wait := (cost - available b1) / refill_rate b1 in
    let t := now w + wait in
    let b2 := refill_at t b1 in
    (wait, mkWorld t
             (put_bucket s (set_available b2 (available b2 - cost)) (limiter w))).

(** Request bucket first, then token bucket. *)
Definition acquire_spec (request_cost token_cost : Q) (w : World)
  : (Q * Q) * World :=
  let '(wait_request, w1) := bucket_acquire_spec Req request_cost w in
  let '(wait_token, w2) := bucket_acquire_spec Tok token_cost w1 in
  ((wait_request, wait_token), w2).

(** The wait one bucket would need, in the specification's words. *)
Definition wait_needed (b : RateLimitState) (cost : Q) : Q :=
  if Qltb (available b) cost then (cost - available b) / refill_rate b else 0.

(** The limiter of the concrete scenario: 2 requests per second and 120
    tokens per minute, built at time 0. *)
Definition scenario_limiter : RateLimiter :=
  mkLimiter (mkState 2 2 2 0) (mkState 120 120 (120 / 60) 0).

Definition scenario_world : World := mkWorld 0 scenario_limiter.

(** ** Notions the properties are stated with *)

(** The shape the constructors give the two buckets: the request bucket's
    rate is its capacity, the token bucket's rate a sixtieth of it.  No
    operation changes capacity or rate. *)
Definition bucket_shape (s : Which) (b : RateLimitState) : Prop :=
  match s with
  | Req => refill_rate b == max_tokens b
  | Tok => refill_rate b == max_tokens b / 60
  end.

(** A history in which a refund meets a bucket that has meanwhile been
    refilled to the brim: reserve 50 tokens, let 30 seconds pass while the
    call is in flight, let another caller preview the wait. *)
Definition in_flight_history : list Op :=
  [DoAcquire 1 50; Elapse 30; DoGetWaitTime 1 0].

(** What every operation maintains, for a limiter whose capacities are
    [R] and [T]. *)
Record Inv (R T : Q) (w : World) : Prop := mkInv {
  inv_cap_req : max_tokens (request_bucket (limiter w)) = R;
  inv_cap_tok : max_tokens (token_bucket (limiter w)) = T;
  inv_cap_tok_nonneg : 0 <= T;
  inv_rate_req : 0 < refill_rate (request_bucket (limiter w));
  inv_rate_tok : 0 < refill_rate (token_bucket (limiter w));
  inv_last_req : last_update (request_bucket (limiter w)) <= now w;
  inv_last_tok : last_update (token_bucket (limiter w)) <= now w;
  inv_req_lower : 0 <= available (request_bucket (limiter w));
  inv_req_upper : available (request_bucket (limiter w)) <= R;
  inv_tok_lower : 0 <= available (token_bucket (limiter w))
}.

Definition Capped (w : World) : Prop :=
  available (token_bucket (limiter w)) <= max_tokens (token_bucket (limiter w)).

(** The terminal usage event: it has a [data] whose type is
    ["conversation.response.done"]. *)
Definition is_terminal (event : Event) : bool :=
  match data event with
  | Some d => String.eqb (type_ d) "conversation.response.done"
  | None => false
  end.

(** The balance [acquire] debits a bucket from: the refilled balance, or
    the balance refilled again after the wait. *)
Definition balance_at_debit (s : Which) (cost : Q) (w : World) : Q :=
  let b1 := refill_at (now w) (get_bucket s (limiter w)) in
  if Qgeb (available b1) cost then available b1
  else
    available
      (refill_at (now w + (cost - available b1) / refill_rate b1) b1).

(** How an iteration of [pulls] pulls over the upstream
    [map Yield events ++ rest] ends once it has passed [events]:
    exhausted when nothing is left and the consumer asks again, raised
    when the next upstream step raises and the consumer asks for it,
    abandoned when the consumer has had all its pulls. *)
Definition stops_after (pulls : nat) (events : list Event)
    (rest : list StreamItem) (ending : StreamEnd) : Prop :=
  match ending with
  | Exhausted => rest = [] /\ (List.length events < pulls)%nat
  | Raised e =>
      (exists rest', rest = Throw e :: rest') /\
      (List.length events < pulls)%nat
  | Abandoned => List.length events = pulls
  end.

(** A stream that raises after one event and before the terminal one. *)
Definition aborted_stream : list StreamItem :=
  [Yield (mkEvent (Some (mkData "message.output.delta" OtherResponse)) "chunk");
   Throw (ValueError "connection lost");
   Yield (mkEvent (Some (mkData "conversation.response.done"
                           (ObjResponse (Some (Some 60%Z))))) "done")].

(** A message whose content is plain text (or absent, which the code
    reads as the empty text). *)
Definition plain_text_message (message : pyval) : bool :=
  match message with
  | PDict m =>
      match dict_get_default m "content" (PStr "") with
      | PStr _ => true
      | _ => false
      end
  | _ => false
  end.

(** A stand-in tokeniser for running the estimator: one token per
    character; like tiktoken's, its [encode] refuses a text that contains
    the special token. *)
Definition char_encoding : Encoding :=
  let tokens := fun s : string =>
    map (fun c => Z.of_N (Ascii.N_of_ascii c)) (list_ascii_of_string s) in
  mkEncoding
    (fun s => if contains s "<|endoftext|>"
              then Raise (ValueError "disallowed special token '<|endoftext|>'")
              else Ok (tokens s))
    tokens.

(** A user message with a text part and an image part. *)
Definition multimodal_payload : pyval :=
  PList
    [PDict [("role"%string, PStr "user");
            ("content"%string,
             PList [PDict [("type"%string, PStr "text");
                           ("text"%string, PStr "What is in this picture?")];
                    PDict [("type"%string, PStr "image_url");
                           ("image_url"%string,
                            PStr "https://example.com/cat.png")]])]].

(** The same message with the image part only. *)
Definition image_only_payload : pyval :=
  PList
    [PDict [("role"%string, PStr "user");
            ("content"%string,
             PList [PDict [("type"%string, PStr "image_url");
                           ("image_url"%string,
                            PStr "https://example.com/cat.png")]])]].

(** Two bucket states with the same numbers (the rationals that stand for
    the floats are compared as numbers, not as fractions). *)
Definition same_bucket (b b' : RateLimitState) : Prop :=
  available b == available b' /\ max_tokens b == max_tokens b' /\
  refill_rate b == refill_rate b' /\ last_update b == last_update b'.

Definition same_world (w w' : World) : Prop :=
  now w == now w' /\
  same_bucket (request_bucket (limiter w)) (request_bucket (limiter w')) /\
  same_bucket (token_bucket (limiter w)) (token_bucket (limiter w')).

(** What a history has asked of a bucket: the costs of its acquires, of
    either flavour. *)
Definition cost_of (s : Which) (op : Op) : Q :=
  match op with
  | DoAcquire r k | DoAsyncAcquire r k => match s with Req => r | Tok => k end
  | _ => 0
  end.

Fixpoint debited (s : Which) (ops : list Op) : Q :=
  match ops with
  | [] => 0
  | op :: rest => cost_of s op + debited s rest
  end.

(** What a history has credited back to the token bucket. *)
Definition refund_of (op : Op) : Q :=
  match op with
  | DoRefund e a => if (a <? e)%Z then inject_Z (e - a) else 0
  | _ => 0
  end.

Fixpoint refunded (ops : list Op) : Q :=
  match ops with
  | [] => 0
  | op :: rest => refund_of op + refunded rest
  end.

(** A bucket's balance, less what its rate has produced up to its last
    refill. *)
Definition potential (b : RateLimitState) : Q :=
  available b - refill_rate b * last_update b.

(** The books of a limiter built at [t0]: the clock has not gone back
    behind [t0], the rates are the ones it was built with, and for each
    bucket the balance plus all that the history has taken, less what was
    refunded, is covered by the capacity plus what the rate has produced
    since [t0], up to the last refill. *)
Definition Ledger (t0 rate_req rate_tok R T : Q) (done : list Op) (w : World)
  : Prop :=
  t0 <= now w /\
  refill_rate (request_bucket (limiter w)) = rate_req /\
  refill_rate (token_bucket (limiter w)) = rate_tok /\
  potential (request_bucket (limiter w)) + debited Req done
    <= R - rate_req * t0 /\
  potential (token_bucket (limiter w)) + debited Tok done
    <= T - rate_tok * t0 + refunded done.

(** ** token_counter.py, the remaining methods *)

(** [int(x)] on a float: truncation towards zero. *)
Definition py_int (x : Q) : Z :=
  if Qle_bool 0 x then Qfloor x else Qceiling x.

(** The float an [int] becomes when it meets a float in a product: the
    nearest binary64 number, a tie going to the even mantissa, and
    [OverflowError] when that is beyond the largest float.  The float of
    an integer is an integer, and is given as one. *)
Definition binary64_of_int (n : Z) : Result Z :=
  let a := Z.abs n in
  let bits := if (a =? 0)%Z then 0%Z else (Z.log2 a + 1)%Z in
  let shift := Z.max 0 (bits - 53) in
  let q := (a / 2 ^ shift)%Z in
  let r := (a mod 2 ^ shift)%Z in
  let half := (2 ^ (shift - 1))%Z in
  let q' :=
    if (shift =? 0)%Z then q
    else if (half <? r)%Z || ((half =? r)%Z && Z.odd q) then (q + 1)%Z
    else q in
  let v := (q' * 2 ^ shift)%Z in
  if (2 ^ 1024 <=? v)%Z
  then Raise (OverflowError "int too large to convert to float")
  else Ok (Z.sgn n * v)%Z.

(** The same conversion by the Standard Library's specification of IEEE
    754 arithmetic, at precision 53 and maximal exponent 1024; used to
    check [binary64_of_int] against. *)
Definition ieee_float_of_int (n : Z) : Result Z :=
  match SpecFloat.binary_normalize 53 1024 n 0 false with
  | SpecFloat.S754_zero _ => Ok 0%Z
  | SpecFloat.S754_finite s m e =>
      let magnitude :=
        if (0 <=? e)%Z then (Z.pos m * 2 ^ e)%Z else (Z.pos m / 2 ^ (- e))%Z in
      Ok (if s then (- magnitude)%Z else magnitude)
  | _ => Raise (OverflowError "int too large to convert to float")
  end.

(** Integers from [start] on, [count] of them. *)
Fixpoint consecutive (start : Z) (count : nat) : list Z :=
  match count with
  | O => []
  | S k => start :: consecutive (start + 1)%Z k
  end.

Definition same_float (a b : Result Z) : bool :=
  match a, b with
  | Ok x, Ok y => (x =? y)%Z
  | Raise (OverflowError _), Raise (OverflowError _) => true
  | _, _ => false
  end.

(** [TokenCounter.estimate_response_tokens]; [model] is unused by the
    source.  [prompt_tokens * 0.25] turns the count into a float and
    multiplies it by a power of two, which is exact on the float of an
    integer; [int] then truncates. *)
Definition estimate_response_tokens (self : TokenCounter) (prompt_tokens : Z)
  : Result Z :=
  match binary64_of_int prompt_tokens with
  | Raise e => Raise e
  | Ok x =>
      let estimated := Z.max 50 (py_int (inject_Z x * (1 # 4))) in
      Ok estimated
  end.

(** [TokenCounter.count_completion] *)
Definition count_completion (self : TokenCounter) (text : string) : Result Z :=
  count_text self text.

(** ** client.py, the remaining helpers *)

(** [v is not None] *)
Definition is_not_None (v : pyval) : bool :=
  match v with PNone => false | _ => true end.

(** [_filter_none]: [{k: v for k, v in kwargs.items() if v is not None}] *)
Definition _filter_none (kwargs : list (string * pyval))
  : list (string * pyval) :=
  filter (fun kv => is_not_None (snd kv)) kwargs.

(** What the SDK call inside a conversation method does: it takes some
    time and then returns a response or raises an error with a text. *)
Inductive Remote : Type :=
| RemoteReturns (latency : Q) (response : Response)
| RemoteRaises (latency : Q) (error : string).

(** How a conversation method ends for its caller: it returns the
    response, raises the error [_handle_error] made, or lets an error
    through as it is. *)
Inductive CallOutcome : Type :=
| Returned (response : Response)
| Failed (error : ClientError)
| Propagated (e : PyError).

(** [start], and with other keyword arguments [append] and [restart]:
    estimate, reserve, call, reconcile.  The estimate is taken before the
    [try] and before anything is reserved, so its error leaves the method
    as it is, and the outcome records it with the world untouched; inside
    the [try], an error of the SDK call is converted by [_handle_error]
    and nothing is refunded. *)
Definition start (tc : TokenCounter) (inputs : pyval) (remote : Remote)
  : M CallOutcome :=
  match estimated_for tc inputs with
  | Raise e => ret (Propagated e)
  | Ok estimated =>
      acquire 1 (inject_Z estimated) ;;
      match remote with
      | RemoteReturns latency response =>
          fun w =>
            let actual := _extract_usage response in
            Ok (Returned response,
                mkWorld (now w + latency)
                        (_refund_tokens estimated actual (limiter w)))
      | RemoteRaises latency error =>
          fun w =>
            Ok (Failed (_handle_error error),
                mkWorld (now w + latency) (limiter w))
      end
  end.

(** What the done events among the received events refund in total. *)
Definition event_refund (estimated : Z) (event : Event) : Z :=
  match data event with
  | Some d =>
      if String.eqb (type_ d) "conversation.response.done" then
        if (_extract_usage (body d) <? estimated)%Z
        then (estimated - _extract_usage (body d))%Z else 0%Z
      else 0%Z
  | None => 0%Z
  end.

Fixpoint stream_refund (estimated : Z) (events : list Event) : Z :=
  match events with
  | [] => 0%Z
  | e :: rest => (event_refund estimated e + stream_refund estimated rest)%Z
  end.

(** A part of a multimodal content list that is a dict of type
    ["text"], and the number of parts of type ["image_url"]. *)
Definition is_text_part (item : pyval) : bool :=
  match item with
  | PDict d => get_eq_str (dict_get d "type") "text"
  | _ => false
  end.

Definition is_image_part (item : pyval) : bool :=
  match item with
  | PDict d => get_eq_str (dict_get d "type") "image_url"
  | _ => false
  end.

Definition image_parts (items : list pyval) : Z :=
  len (filter is_image_part items).

(** * Properties *)

(** ** Comparisons *)

Lemma Qgeb_true (a b : Q) : Qgeb a b = true <-> b <= a.
Proof. unfold Qgeb. apply Qle_bool_iff. Qed.

Lemma Qgeb_false (a b : Q) : Qgeb a b = false <-> a < b.
Proof.
  unfold Qgeb. split; intro H.
  - apply Qnot_le_lt. intro Hle. apply Qle_bool_iff in Hle. congruence.
  - destruct (Qle_bool b a) eqn:E; [|reflexivity].
    apply Qle_bool_iff in E. lra.
Qed.

Lemma Qltb_true (a b : Q) : Qltb a b = true <-> a < b.
Proof.
  unfold Qltb. rewrite negb_true_iff. apply (Qgeb_false a b).
Qed.

Lemma Qltb_false (a b : Q) : Qltb a b = false <-> b <= a.
Proof.
  unfold Qltb. rewrite negb_false_iff. apply Qle_bool_iff.
Qed.

Lemma Qgtb_true (a b : Q) : Qgtb a b = true <-> b < a.
Proof. unfold Qgtb. rewrite negb_true_iff. apply (Qgeb_false b a). Qed.

Lemma Qleb_true (a b : Q) : Qleb a b = true <-> a <= b.
Proof. unfold Qleb. apply Qle_bool_iff. Qed.

Lemma Qleb_false (a b : Q) : Qleb a b = false <-> b < a.
Proof. apply (Qgeb_false b a). Qed.

Lemma py_div_ok (a b : Q) : ~ b == 0 -> py_div a b = Ok (a / b).
Proof.
  intro H. unfold py_div.
  destruct (Qeq_bool b 0) eqn:E; [|reflexivity].
  apply Qeq_bool_iff in E. contradiction.
Qed.

(** A quotient by a positive rate, multiplied back. *)
Lemma div_mul_rate (x r : Q) : 0 < r -> (x / r) * r == x.
Proof. intro H. field. lra. Qed.

Lemma div_pos (x r : Q) : 0 < x -> 0 < r -> 0 < x / r.
Proof.
  intros Hx Hr. unfold Qdiv. apply Qmult_lt_0_compat; [exact Hx|].
  apply Qinv_lt_0_compat. exact Hr.
Qed.

(** ** The steps of the limiter, as equations *)

Lemma refill_run (s : Which) (w : World) :
  _refill s w =
  Ok (tt, mkWorld (now w)
            (put_bucket s (refill_at (now w) (get_bucket s (limiter w)))
                        (limiter w))).
Proof. reflexivity. Qed.

Lemma debit_run (s : Which) (x : Q) (w : World) :
  debit s x w =
  Ok (tt, mkWorld (now w)
            (put_bucket s
               (set_available (get_bucket s (limiter w))
                              (available (get_bucket s (limiter w)) - x))
               (limiter w))).
Proof. reflexivity. Qed.

Lemma get_put_same (s : Which) (b : RateLimitState) (l : RateLimiter) :
  get_bucket s (put_bucket s b l) = b.
Proof. destruct s; reflexivity. Qed.

Lemma put_put_same (s : Which) (b b' : RateLimitState) (l : RateLimiter) :
  put_bucket s b (put_bucket s b' l) = put_bucket s b l.
Proof. destruct s; reflexivity. Qed.

(** ** Bounds of one refill *)

Section Refill.
Variables (b : RateLimitState) (t : Q).

Lemma refill_at_fields :
  max_tokens (refill_at t b) = max_tokens b /\
  refill_rate (refill_at t b) = refill_rate b /\
  last_update (refill_at t b) = t.
Proof. repeat split. Qed.

Lemma refill_at_le_capacity :
  available (refill_at t b) <= max_tokens b.
Proof. simpl. apply Q.le_min_l. Qed.

Hypothesis elapsed_nonneg : last_update b <= t.
Hypothesis rate_nonneg : 0 <= refill_rate b.

Lemma new_tokens_nonneg : 0 <= (t - last_update b) * refill_rate b.
Proof. apply Qmult_le_0_compat; lra. Qed.

Lemma refill_at_clamps_from_below :
  Qmin (max_tokens b) (available b) <= available (refill_at t b).
Proof.
  simpl. pose proof new_tokens_nonneg as Hn.
  set (p := (t - last_update b) * refill_rate b) in *.
  destruct (Q.min_spec (max_tokens b) (available b + p)) as [[_ E]|[_ E]];
  destruct (Q.min_spec (max_tokens b) (available b)) as [[H1 E1]|[H1 E1]];
    rewrite E, E1; lra.
Qed.

Lemma refill_at_nonneg :
  0 <= available b -> 0 <= max_tokens b -> 0 <= available (refill_at t b).
Proof.
  intros Ha Hc. simpl. pose proof new_tokens_nonneg as Hn.
  set (p := (t - last_update b) * refill_rate b) in *.
  destruct (Q.min_spec (max_tokens b) (available b + p)) as [[_ E]|[_ E]];
    rewrite E; lra.
Qed.

Lemma refill_at_monotone :
  available b <= max_tokens b -> available b <= available (refill_at t b).
Proof.
  intro Hc. simpl. pose proof new_tokens_nonneg as Hn.
  set (p := (t - last_update b) * refill_rate b) in *.
  destruct (Q.min_spec (max_tokens b) (available b + p)) as [[_ E]|[_ E]];
    rewrite E; lra.
Qed.
End Refill.

Lemma shape_rate_nonneg (s : Which) (b : RateLimitState) :
  bucket_shape s b -> 0 <= max_tokens b -> 0 <= refill_rate b.
Proof.
  destruct s; simpl; intros E H; rewrite E; [exact H|].
  unfold Qdiv. apply Qmult_le_0_compat; [exact H|]. discriminate.
Qed.

Lemma init_shape (t rps tpm : Q) (l : RateLimiter) :
  RateLimiter_init t rps tpm = Ok l ->
  bucket_shape Req (request_bucket l) /\ bucket_shape Tok (token_bucket l).
Proof.
  unfold RateLimiter_init. intro H. injection H as <-. simpl.
  split; reflexivity.
Qed.

(** C8.  A refill of a limiter's bucket holding [0 <= available <=
    capacity], after a non-negative elapsed time, cannot fail, sets
    [available] to [min(capacity, available + elapsed * refillRate)] and
    [lastRefill] to the clock reading, leaves capacity, rate and the other
    bucket alone, and the new [available] is non-negative, at most the
    capacity and at least the old [available]. *)
Theorem refill_min_formula_and_bounds (s : Which) (w : World) :
  let b := get_bucket s (limiter w) in
  bucket_shape s b ->
  0 <= available b -> available b <= max_tokens b ->
  0 <= now w - last_update b ->
  exists w',
    _refill s w = Ok (tt, w') /\
    now w' = now w /\
    (forall s', s' <> s ->
       get_bucket s' (limiter w') = get_bucket s' (limiter w)) /\
    let b' := get_bucket s (limiter w') in
    available b' ==
      Qmin (max_tokens b) (available b + (now w - last_update b) * refill_rate b) /\
    last_update b' = now w /\
    max_tokens b' = max_tokens b /\
    refill_rate b' = refill_rate b /\
    0 <= available b' /\
    available b' <= max_tokens b /\
    available b <= available b'.
Proof.
  intros b Hshape Ha Hc Hel.
  assert (Hcap : 0 <= max_tokens b) by lra.
  assert (Hrate : 0 <= refill_rate b) by (eapply shape_rate_nonneg; eauto).
  assert (Ht : last_update b <= now w) by lra.
  eexists. split; [apply refill_run|]. cbn [now limiter].
  split; [reflexivity|]. split.
  { intros s' Hs. destruct s, s'; try congruence; reflexivity. }
  rewrite get_put_same. fold b.
  split; [reflexivity|]. split; [reflexivity|].
  split; [reflexivity|]. split; [reflexivity|].
  split; [apply refill_at_nonneg; assumption|].
  split; [apply refill_at_le_capacity|].
  apply refill_at_monotone; assumption.
Qed.

(** The statement is used at a limiter built by the constructor, one and
    a half seconds later. *)
Lemma refill_min_formula_and_bounds_witness :
  exists w',
    _refill Tok (mkWorld (3 # 2) (mkLimiter (mkState 1 2 2 0)
                                            (mkState 20 120 (120 / 60) 0)))
    = Ok (tt, w') /\
    available (token_bucket (limiter w')) == 23.
Proof.
  destruct (refill_min_formula_and_bounds Tok
              (mkWorld (3 # 2) (mkLimiter (mkState 1 2 2 0)
                                          (mkState 20 120 (120 / 60) 0))))
    as [w' [Hrun [_ [_ [Hav _]]]]].
  - simpl. reflexivity.
  - simpl. discriminate.
  - simpl. discriminate.
  - simpl. discriminate.
  - exists w'. split; [exact Hrun|].
    simpl in Hav. rewrite Hav. reflexivity.
Defined.

(** ** Refund *)

(** A refill after an unclamped credit equals a refill after the clamped
    one: [min(c, a + p) = min(c, min(c, a) + p)] for [p >= 0]. *)
Lemma min_absorbs_clamp (c a p : Q) :
  0 <= p -> Qmin c (a + p) == Qmin c (Qmin c a + p).
Proof.
  intro Hp.
  destruct (Q.min_spec c a) as [[H1 E1]|[H1 E1]];
  destruct (Q.min_spec c (a + p)) as [[H2 E2]|[H2 E2]];
  destruct (Q.min_spec c (Qmin c a + p)) as [[H3 E3]|[H3 E3]];
    rewrite E2, E3; rewrite ?E1 in *; lra.
Qed.

(** C1, as stated, fails: on the scenario limiter (capacity 120) the
    history above leaves the token bucket full, and refunding 40 of the 50
    reserved tokens leaves [available = 160], not [min(120, 160)]. *)
Lemma refund_exceeds_capacity :
  exists w,
    run in_flight_history scenario_world = Ok (tt, w) /\
    max_tokens (token_bucket (limiter w)) == 120 /\
    available (token_bucket (limiter w)) == 120 /\
    available (token_bucket (_refund_tokens 50 10 (limiter w))) == 160 /\
    ~ available (token_bucket (_refund_tokens 50 10 (limiter w))) ==
      Qmin (max_tokens (token_bucket (limiter w)))
           (available (token_bucket (limiter w)) + inject_Z (50 - 10)).
Proof.
  eexists. split; [vm_compute; reflexivity|].
  repeat split; try reflexivity.
  vm_compute. discriminate.
Qed.

(** C1, amended.  When [actual < estimate], the refund has no failing
    path and sets the token bucket's [available] to [a + x] with
    [x = estimate - actual], without a clamp, and touches nothing else.
    The clamp comes with the next refill of the bucket, which precedes
    every later read by [acquire] and [get_wait_time]: that refill yields
    what it would have yielded had the refund set [min(c, a + x)], and
    this is at most [c]. *)
Theorem refund_adds_then_refill_clamps (l : RateLimiter) (estimated actual : Z) :
  (actual < estimated)%Z ->
  let tb := token_bucket l in
  let x := inject_Z (estimated - actual) in
  let tb' := token_bucket (_refund_tokens estimated actual l) in
  0 < x /\
  available tb' == available tb + x /\
  max_tokens tb' = max_tokens tb /\
  refill_rate tb' = refill_rate tb /\
  last_update tb' = last_update tb /\
  request_bucket (_refund_tokens estimated actual l) = request_bucket l /\
  forall t,
    last_update tb <= t -> 0 <= refill_rate tb ->
    available (refill_at t tb') ==
      available (refill_at t
        (set_available tb (Qmin (max_tokens tb) (available tb + x)))) /\
    available (refill_at t tb') <= max_tokens tb.
Proof.
  intros Hlt tb x tb'.
  assert (Hx : 0 < x).
  { unfold x. change 0 with (inject_Z 0). rewrite <- Zlt_Qlt. lia. }
  assert (Etb : tb' = set_available tb (available tb + x)).
  { unfold tb', _refund_tokens.
    apply Z.ltb_lt in Hlt. rewrite Hlt. reflexivity. }
  split; [exact Hx|].
  rewrite Etb. cbn [set_available available max_tokens refill_rate last_update].
  split; [reflexivity|]. split; [reflexivity|].
  split; [reflexivity|]. split; [reflexivity|].
  split.
  { unfold _refund_tokens. apply Z.ltb_lt in Hlt. rewrite Hlt. reflexivity. }
  intros t Ht Hr.
  assert (Hp : 0 <= (t - last_update tb) * refill_rate tb)
    by (apply Qmult_le_0_compat; lra).
  split.
  - cbn [refill_at set_available available max_tokens refill_rate last_update].
    apply min_absorbs_clamp. exact Hp.
  - cbn [refill_at set_available available max_tokens refill_rate last_update].
    apply Q.le_min_l.
Qed.

Lemma refund_adds_then_refill_clamps_witness :
  available (token_bucket (_refund_tokens 100 60 scenario_limiter)) ==
  available (token_bucket scenario_limiter) + inject_Z (100 - 60).
Proof.
  apply (refund_adds_then_refill_clamps scenario_limiter 100 60).
  reflexivity.
Defined.

(** ** Acquire *)

Lemma acquire_bucket_run (s : Which) (tokens : Q) (w : World) :
  0 < refill_rate (get_bucket s (limiter w)) ->
  let b1 := refill_at (now w) (get_bucket s (limiter w)) in
  _acquire_bucket s tokens w =
  if Qgeb (available b1) tokens then
    Ok (0, mkWorld (now w)
             (put_bucket s (set_available b1 (available b1 - tokens))
                         (limiter w)))
  else
    Ok ((tokens - available b1) / refill_rate b1,
        mkWorld (now w) (put_bucket s b1 (limiter w))).
Proof.
  intros Hr b1. unfold _acquire_bucket, bind at 1.
  rewrite refill_run. unfold bind at 1, read at 1.
  cbn [limiter now]. rewrite get_put_same. fold b1.
  destruct (Qgeb (available b1) tokens) eqn:E.
  - unfold bind. rewrite debit_run. cbn [limiter now ret].
    rewrite get_put_same, put_put_same. reflexivity.
  - unfold bind, lift. rewrite py_div_ok; [reflexivity|].
    cbn [refill_rate refill_at b1]. lra.
Qed.

(** One bucket's part of [acquire], followed by the rest of the call. *)
Lemma acquire_phase {A} (s : Which) (tokens : Q) (k : Q -> M A) (w : World) :
  0 < refill_rate (get_bucket s (limiter w)) ->
  (wait <- _acquire_bucket s tokens ;;
   (if Qgtb wait 0 then sleep wait ;; _refill s ;; debit s tokens
    else ret tt) ;;
   k wait) w =
  k (fst (bucket_acquire_spec s tokens w))
    (snd (bucket_acquire_spec s tokens w)).
Proof.
  intro Hr. unfold bind at 1. rewrite acquire_bucket_run by exact Hr.
  unfold bucket_acquire_spec.
  set (b1 := refill_at (now w) (get_bucket s (limiter w))).
  destruct (Qgeb (available b1) tokens) eqn:E.
  - assert (G : Qgtb 0 0 = false) by reflexivity.
    unfold bind. rewrite G. reflexivity.
  - apply Qgeb_false in E.
    set (wait := (tokens - available b1) / refill_rate b1).
    assert (Hw : 0 < wait).
    { apply div_pos; [lra|]. exact Hr. }
    assert (G : Qgtb wait 0 = true) by (apply Qgtb_true; exact Hw).
    assert (S : Qltb wait 0 = false) by (apply Qltb_false; lra).
    unfold bind. rewrite G. unfold sleep. rewrite S.
    rewrite refill_run. cbn [limiter now].
    rewrite debit_run. cbn [limiter now fst snd].
    rewrite !get_put_same, !put_put_same. reflexivity.
Qed.

Lemma bucket_acquire_spec_keeps (s : Which) (cost : Q) (w : World) :
  let w' := snd (bucket_acquire_spec s cost w) in
  (forall s', s' <> s ->
     get_bucket s' (limiter w') = get_bucket s' (limiter w)) /\
  max_tokens (get_bucket s (limiter w')) = max_tokens (get_bucket s (limiter w)) /\
  refill_rate (get_bucket s (limiter w')) = refill_rate (get_bucket s (limiter w)) /\
  last_update (get_bucket s (limiter w')) = now w'.
Proof.
  unfold bucket_acquire_spec.
  destruct (Qgeb _ cost); cbn [snd limiter now]; rewrite get_put_same;
    (split; [intros s' Hs; destruct s, s'; try congruence; reflexivity|]);
    repeat split.
Qed.

Lemma acquire_run (r k : Q) (w : World) :
  0 < refill_rate (request_bucket (limiter w)) ->
  0 < refill_rate (token_bucket (limiter w)) ->
  acquire r k w =
  Ok (0 + fst (fst (acquire_spec r k w)) + snd (fst (acquire_spec r k w)),
      snd (acquire_spec r k w)).
Proof.
  intros Hr Ht. unfold acquire, _acquire_request, _acquire_token.
  rewrite (acquire_phase Req r) by exact Hr.
  assert (Ht' : 0 < refill_rate
                      (get_bucket Tok (limiter (snd (bucket_acquire_spec Req r w))))).
  { destruct (bucket_acquire_spec_keeps Req r w) as [K _].
    rewrite K by discriminate. exact Ht. }
  rewrite (acquire_phase Tok k) by exact Ht'.
  unfold acquire_spec.
  destruct (bucket_acquire_spec Req r w) as [wr w1]. cbn [fst snd].
  destruct (bucket_acquire_spec Tok k w1) as [wt w2]. reflexivity.
Qed.

(** What [bucket_acquire_spec] says in each branch. *)
Lemma bucket_acquire_spec_cases (s : Which) (cost : Q) (w : World) :
  let b := get_bucket s (limiter w) in
  let b1 := refill_at (now w) b in
  let wait := fst (bucket_acquire_spec s cost w) in
  let w' := snd (bucket_acquire_spec s cost w) in
  let b' := get_bucket s (limiter w') in
  0 < refill_rate b ->
  (cost <= available b1 ->
     wait = 0 /\ now w' = now w /\
     available b' = available b1 - cost) /\
  (available b1 < cost ->
     wait = (cost - available b1) / refill_rate b /\
     0 < wait /\
     now w' = now w + wait /\
     available b' = available (refill_at (now w + wait) b1) - cost) /\
  0 <= wait /\
  now w' == now w + wait.
Proof.
  intros b b1 wait w' b' Hr.
  unfold b', w', wait, bucket_acquire_spec. fold b. fold b1.
  destruct (Qgeb (available b1) cost) eqn:E.
  - apply Qgeb_true in E. cbn [fst snd limiter now].
    rewrite get_put_same. cbn [available set_available].
    repeat split; try reflexivity; try lra.
  - apply Qgeb_false in E. cbn [fst snd limiter now].
    rewrite get_put_same. cbn [available set_available].
    assert (Hw : 0 < (cost - available b1) / refill_rate b1).
    { apply div_pos; [lra|]. exact Hr. }
    repeat split; try reflexivity; try lra; try exact Hw.
Qed.

(** C3.  For a limiter with positive refill rates (every limiter built
    from positive parameters) and all costs, in particular non-negative
    ones, [acquire] cannot fail and does what the two-branch algorithm
    says, request bucket first and token bucket second: per bucket it
    refills; if [available >= cost] it debits at once and that bucket's
    wait is 0; otherwise it waits [(cost - available) / refillRate],
    refills again and debits the cost without a second check.  Each bucket
    ends at its refilled balance minus exactly its cost, and the returned
    value is the sum of the two waits, which is non-negative. *)
Theorem acquire_follows_two_branch_algorithm (r k : Q) (w : World) :
  0 < refill_rate (request_bucket (limiter w)) ->
  0 < refill_rate (token_bucket (limiter w)) ->
  exists total_wait wait_request wait_token w1 w2,
    acquire r k w = Ok (total_wait, w2) /\
    bucket_acquire_spec Req r w = (wait_request, w1) /\
    bucket_acquire_spec Tok k w1 = (wait_token, w2) /\
    total_wait == wait_request + wait_token /\
    0 <= wait_request /\ 0 <= wait_token /\ 0 <= total_wait /\
    now w2 == now w + total_wait /\
    (let rb1 := refill_at (now w) (request_bucket (limiter w)) in
     let rb' := request_bucket (limiter w2) in
     (r <= available rb1 ->
        wait_request = 0 /\ available rb' = available rb1 - r) /\
     (available rb1 < r ->
        wait_request = (r - available rb1) / refill_rate rb1 /\
        available rb' =
          available (refill_at (now w + wait_request) rb1) - r)) /\
    (let tb1 := refill_at (now w1) (token_bucket (limiter w)) in
     let tb' := token_bucket (limiter w2) in
     (k <= available tb1 ->
        wait_token = 0 /\ available tb' = available tb1 - k) /\
     (available tb1 < k ->
        wait_token = (k - available tb1) / refill_rate tb1 /\
        available tb' =
          available (refill_at (now w1 + wait_token) tb1) - k)).
Proof.
  intros Hr Ht.
  pose proof (acquire_run r k w Hr Ht) as Hrun.
  pose proof (bucket_acquire_spec_cases Req r w Hr) as HR.
  pose proof (bucket_acquire_spec_keeps Req r w) as KR.
  unfold acquire_spec in Hrun.
  destruct (bucket_acquire_spec Req r w) as [wr w1] eqn:E1.
  cbn [fst snd] in HR, KR.
  destruct KR as [KR1 _].
  assert (Etok : token_bucket (limiter w1) = token_bucket (limiter w)).
  { apply (KR1 Tok). discriminate. }
  assert (Ht1 : 0 < refill_rate (get_bucket Tok (limiter w1))).
  { cbn [get_bucket]. rewrite Etok. exact Ht. }
  pose proof (bucket_acquire_spec_cases Tok k w1 Ht1) as HT.
  pose proof (bucket_acquire_spec_keeps Tok k w1) as KT.
  destruct (bucket_acquire_spec Tok k w1) as [wt w2] eqn:E2.
  cbn [fst snd] in HT, KT, Hrun.
  destruct KT as [KT1 _].
  assert (Ereq : request_bucket (limiter w2) = request_bucket (limiter w1)).
  { apply (KT1 Req). discriminate. }
  destruct HR as [HRa [HRb [HRc HRd]]].
  destruct HT as [HTa [HTb [HTc HTd]]].
  cbn [get_bucket] in *.
  exists (0 + wr + wt), wr, wt, w1, w2.
  split; [exact Hrun|]. split; [reflexivity|]. split; [exact E2|].
  split; [ring|]. split; [exact HRc|]. split; [exact HTc|].
  split; [lra|]. split; [lra|].
  split.
  - rewrite Ereq. split.
    + intro H. destruct (HRa H) as [A [_ B]]. split; assumption.
    + intro H. destruct (HRb H) as [A [_ [_ B]]]. split; assumption.
  - rewrite <- Etok. split.
    + intro H. destruct (HTa H) as [A [_ B]]. split; assumption.
    + intro H. destruct (HTb H) as [A [_ [_ B]]]. split; assumption.
Qed.

Lemma acquire_follows_two_branch_algorithm_witness :
  exists total_wait w2,
    acquire 1 50 scenario_world = Ok (total_wait, w2) /\ 0 <= total_wait.
Proof.
  destruct (acquire_follows_two_branch_algorithm 1 50 scenario_world)
    as [tw [wr [wt [w1 [w2 [Hrun [_ [_ [_ [_ [_ [Hnn _]]]]]]]]]]]].
  - reflexivity.
  - reflexivity.
  - exists tw, w2. split; [exact Hrun | exact Hnn].
Defined.

(** One bucket's part of the suspending [acquire], followed by the rest of
    the call. *)
Lemma async_acquire_phase {A} (s : Which) (tokens total : Q)
    (k : Q -> M A) (w : World) :
  0 < refill_rate (get_bucket s (limiter w)) ->
  (_refill s ;;
   b <- read s ;;
   total_wait <-
     (if Qgeb (available b) tokens then
        debit s tokens ;; ret total
      else
        wait_time <- lift (py_div (tokens - available b) (refill_rate b)) ;;
        async_sleep wait_time ;;
        _refill s ;;
        debit s tokens ;;
        ret (total + wait_time)) ;;
   k total_wait) w =
  k (if Qgeb (available (refill_at (now w) (get_bucket s (limiter w)))) tokens
     then total
     else total + fst (bucket_acquire_spec s tokens w))
    (snd (bucket_acquire_spec s tokens w)).
Proof.
  intro Hr. unfold bind at 1. rewrite refill_run.
  unfold bind at 1, read at 1. cbn [limiter now]. rewrite get_put_same.
  unfold bucket_acquire_spec.
  set (b1 := refill_at (now w) (get_bucket s (limiter w))).
  destruct (Qgeb (available b1) tokens) eqn:E.
  - unfold bind. rewrite debit_run. cbn [limiter now ret fst snd].
    rewrite get_put_same, put_put_same. reflexivity.
  - apply Qgeb_false in E.
    set (wait := (tokens - available b1) / refill_rate b1).
    assert (Hw : 0 < wait) by (apply div_pos; [lra | exact Hr]).
    assert (S : Qleb wait 0 = false) by (apply Qleb_false; exact Hw).
    unfold bind, lift. rewrite py_div_ok by (cbn [refill_rate refill_at b1]; lra).
    fold wait. unfold async_sleep. rewrite S.
    rewrite refill_run. cbn [limiter now].
    rewrite debit_run. cbn [limiter now fst snd ret].
    rewrite !get_put_same, !put_put_same. reflexivity.
Qed.

(** The suspending limiter's [acquire] leaves the same state as the
    blocking one and returns the same wait. *)
Lemma async_acquire_agrees (r k : Q) (w : World) :
  0 < refill_rate (request_bucket (limiter w)) ->
  0 < refill_rate (token_bucket (limiter w)) ->
  exists wait wait' w',
    acquire r k w = Ok (wait, w') /\
    AsyncRateLimiter_acquire r k w = Ok (wait', w') /\
    wait' == wait.
Proof.
  intros Hr Ht.
  pose proof (acquire_run r k w Hr Ht) as Hrun.
  unfold AsyncRateLimiter_acquire.
  rewrite (async_acquire_phase Req r 0) by exact Hr.
  pose proof (bucket_acquire_spec_cases Req r w Hr) as HR.
  pose proof (bucket_acquire_spec_keeps Req r w) as KR.
  unfold acquire_spec in Hrun.
  destruct (bucket_acquire_spec Req r w) as [wr w1] eqn:E1.
  cbn [fst snd] in *.
  destruct KR as [KR1 _].
  assert (Ht1 : 0 < refill_rate (get_bucket Tok (limiter w1))).
  { rewrite (KR1 Tok) by discriminate. exact Ht. }
  rewrite (async_acquire_phase Tok k) by exact Ht1.
  pose proof (bucket_acquire_spec_cases Tok k w1 Ht1) as HT.
  destruct (bucket_acquire_spec Tok k w1) as [wt w2] eqn:E2.
  cbn [fst snd] in *.
  destruct HR as [HRa [HRb _]]. destruct HT as [HTa [HTb _]].
  eexists _, _, w2. split; [exact Hrun|]. split; [reflexivity|].
  destruct (Qgeb (available (refill_at (now w) (get_bucket Req (limiter w)))) r)
    eqn:G1;
  destruct (Qgeb (available (refill_at (now w1) (get_bucket Tok (limiter w1)))) k)
    eqn:G2;
  try (apply Qgeb_true in G1; destruct (HRa G1) as [-> _]);
  try (apply Qgeb_true in G2; destruct (HTa G2) as [-> _]);
  ring.
Qed.

(** ** Preview *)

Lemma get_wait_time_run (r k : Q) (w : World) :
  0 < refill_rate (request_bucket (limiter w)) ->
  0 < refill_rate (token_bucket (limiter w)) ->
  let rb1 := refill_at (now w) (request_bucket (limiter w)) in
  let tb1 := refill_at (now w) (token_bucket (limiter w)) in
  get_wait_time r k w =
  Ok (Qmax (wait_needed rb1 r) (wait_needed tb1 k),
      mkWorld (now w) (mkLimiter rb1 tb1)).
Proof.
  intros Hr Ht rb1 tb1. unfold get_wait_time.
  unfold bind at 1. rewrite refill_run.
  unfold bind at 1. rewrite refill_run.
  unfold bind at 1, read at 1.
  cbn [limiter now get_bucket put_bucket request_bucket token_bucket].
  fold rb1. fold tb1. unfold wait_needed.
  destruct (Qltb (available rb1) r) eqn:E1;
  destruct (Qltb (available tb1) k) eqn:E2;
    unfold bind, lift, read, ret;
    rewrite ?py_div_ok by (cbn [refill_rate refill_at rb1 tb1]; lra);
    cbn [limiter now get_bucket put_bucket request_bucket token_bucket];
    rewrite E2;
    rewrite ?py_div_ok by (cbn [refill_rate refill_at rb1 tb1]; lra);
    reflexivity.
Qed.

Lemma wait_needed_nonneg (b : RateLimitState) (cost : Q) :
  0 < refill_rate b -> 0 <= wait_needed b cost.
Proof.
  intro Hr. unfold wait_needed.
  destruct (Qltb (available b) cost) eqn:E; [|lra].
  apply Qltb_true in E. apply Qlt_le_weak. apply div_pos; lra.
Qed.

(** C5, as stated, fails in its last part: after the in-flight history
    and a refund of 40 tokens the token bucket holds 160 against a
    capacity of 120, and the preview's refill brings it down to 120. *)
Lemma get_wait_time_lowers_overfull_bucket :
  exists w v w',
    run (in_flight_history ++ [DoRefund 50 10]) scenario_world = Ok (tt, w) /\
    get_wait_time 1 0 w = Ok (v, w') /\
    available (token_bucket (limiter w)) == 160 /\
    available (token_bucket (limiter w')) == 120 /\
    available (token_bucket (limiter w')) < available (token_bucket (limiter w)).
Proof.
  eexists. eexists. eexists.
  split; [vm_compute; reflexivity|].
  split; [vm_compute; reflexivity|].
  repeat split; reflexivity.
Qed.

(** C5, amended.  For a limiter with positive refill rates and all costs,
    [get_wait_time] cannot fail; it refills both buckets and does nothing
    else to the state (no cost is subtracted); with the refilled balances
    it computes per bucket the wait [0] if [available >= cost] and
    [(cost - available) / refillRate] otherwise, and returns the larger of
    the two, which is non-negative.  With a clock that has not run
    backwards, each bucket ends at no less than [min(capacity,
    available)]: a bucket within its capacity is not decreased, and one
    that a refund left above capacity is brought down to the capacity. *)
Theorem get_wait_time_refills_and_takes_max (r k : Q) (w : World) :
  0 < refill_rate (request_bucket (limiter w)) ->
  0 < refill_rate (token_bucket (limiter w)) ->
  let rb := request_bucket (limiter w) in
  let tb := token_bucket (limiter w) in
  exists wait w',
    get_wait_time r k w = Ok (wait, w') /\
    now w' = now w /\
    request_bucket (limiter w') = refill_at (now w) rb /\
    token_bucket (limiter w') = refill_at (now w) tb /\
    (exists w1 w2, _refill Req w = Ok (tt, w1) /\ _refill Tok w1 = Ok (tt, w2) /\
                   w' = w2) /\
    wait = Qmax (wait_needed (refill_at (now w) rb) r)
                (wait_needed (refill_at (now w) tb) k) /\
    0 <= wait /\
    (last_update rb <= now w ->
       Qmin (max_tokens rb) (available rb)
         <= available (request_bucket (limiter w')) /\
       (available rb <= max_tokens rb ->
          available rb <= available (request_bucket (limiter w')))) /\
    (last_update tb <= now w ->
       Qmin (max_tokens tb) (available tb)
         <= available (token_bucket (limiter w')) /\
       (available tb <= max_tokens tb ->
          available tb <= available (token_bucket (limiter w')))).
Proof.
  intros Hr Ht rb tb.
  eexists. eexists. split; [apply get_wait_time_run; assumption|].
  cbn [now limiter request_bucket token_bucket]. fold rb. fold tb.
  split; [reflexivity|]. split; [reflexivity|]. split; [reflexivity|].
  split.
  { eexists. eexists. split; [apply refill_run|].
    split; [apply refill_run|]. reflexivity. }
  split; [reflexivity|].
  split.
  { apply Q.max_le_iff. left. apply wait_needed_nonneg. exact Hr. }
  pose proof (Qlt_le_weak _ _ Hr) as Hr'.
  pose proof (Qlt_le_weak _ _ Ht) as Ht'.
  split; intro Hlast; (split;
    [apply refill_at_clamps_from_below; assumption
    |intro Hc; apply refill_at_monotone; assumption]).
Qed.

Lemma get_wait_time_refills_and_takes_max_witness :
  exists wait w', get_wait_time 3 50 scenario_world = Ok (wait, w') /\ 0 <= wait.
Proof.
  destruct (get_wait_time_refills_and_takes_max 3 50 scenario_world)
    as [wait [w' [Hrun [_ [_ [_ [_ [_ [Hnn _]]]]]]]]].
  - reflexivity.
  - reflexivity.
  - exists wait, w'. split; [exact Hrun | exact Hnn].
Defined.

(** ** The concrete scenario *)

(** C6.  The limiter built with 2 requests per second and 120 tokens per
    minute at time 0 starts with 2 and 120 available.  Three calls of
    [acquire(1, 50)] in a row, the clock moving only while a call sleeps,
    return 0, 0 and 15: the first leaves 1 and 70, the second 0 and 20,
    and the third waits 1/2 second for the request bucket and then, the
    token bucket being at 21, another 29/2 seconds for it. *)
Theorem three_acquires_wait_0_0_15 :
  RateLimiter_init 0 2 120 = Ok scenario_limiter /\
  available (request_bucket scenario_limiter) == 2 /\
  available (token_bucket scenario_limiter) == 120 /\
  exists wait1 w1 wait2 w2 wait3 w3,
    acquire 1 50 scenario_world = Ok (wait1, w1) /\
    wait1 == 0 /\
    available (request_bucket (limiter w1)) == 1 /\
    available (token_bucket (limiter w1)) == 70 /\
    acquire 1 50 w1 = Ok (wait2, w2) /\
    wait2 == 0 /\
    available (request_bucket (limiter w2)) == 0 /\
    available (token_bucket (limiter w2)) == 20 /\
    now w2 == 0 /\
    acquire 1 50 w2 = Ok (wait3, w3) /\
    wait3 == 15 /\
    now w3 == 15 /\
    exists wait_request wa wait_token wb,
      bucket_acquire_spec Req 1 w2 = (wait_request, wa) /\
      wait_request == 1 # 2 /\
      available (refill_at (now wa) (token_bucket (limiter wa))) == 21 /\
      bucket_acquire_spec Tok 50 wa = (wait_token, wb) /\
      wait_token == 29 # 2 /\
      wb = w3 /\
      wait3 == wait_request + wait_token.
Proof.
  split; [reflexivity|]. split; [reflexivity|]. split; [reflexivity|].
  do 6 eexists.
  split; [vm_compute; reflexivity|]. split; [reflexivity|].
  split; [reflexivity|]. split; [reflexivity|].
  split; [vm_compute; reflexivity|]. split; [reflexivity|].
  split; [reflexivity|]. split; [reflexivity|]. split; [reflexivity|].
  split; [vm_compute; reflexivity|]. split; [reflexivity|].
  split; [reflexivity|].
  do 4 eexists.
  split; [vm_compute; reflexivity|]. split; [reflexivity|].
  split; [reflexivity|].
  split; [vm_compute; reflexivity|]. split; [reflexivity|].
  split; [reflexivity|]. reflexivity.
Qed.

(** ** The bucket invariant along histories *)

(** After a wait of [(cost - available) / rate] the refill reaches the
    cost exactly, when the cost fits in the bucket. *)
Lemma refill_after_wait_reaches_cost (b1 : RateLimitState) (t cost : Q) :
  0 < refill_rate b1 -> last_update b1 = t ->
  available b1 < cost -> cost <= max_tokens b1 ->
  available (refill_at (t + (cost - available b1) / refill_rate b1) b1) == cost.
Proof.
  intros Hr Hl Hlt Hc. cbn [refill_at available]. rewrite Hl.
  assert (E : (t + (cost - available b1) / refill_rate b1 - t) * refill_rate b1
              == cost - available b1) by (field; lra).
  set (p := (t + (cost - available b1) / refill_rate b1 - t) * refill_rate b1) in *.
  destruct (Q.min_spec (max_tokens b1) (available b1 + p)) as [[H1 E1]|[H1 E1]];
    rewrite E1; lra.
Qed.

Lemma bucket_acquire_spec_bounds (s : Which) (cost : Q) (w : World) :
  let b := get_bucket s (limiter w) in
  let w' := snd (bucket_acquire_spec s cost w) in
  let b' := get_bucket s (limiter w') in
  0 < refill_rate b -> last_update b <= now w -> 0 <= available b ->
  0 <= cost -> cost <= max_tokens b ->
  0 <= available b' /\ available b' <= max_tokens b /\
  last_update b' <= now w' /\ now w <= now w'.
Proof.
  intros b w' b' Hr Hl Ha Hc0 Hc.
  pose proof (bucket_acquire_spec_cases s cost w Hr) as [Ca [Cb [Cw Cn]]].
  destruct (bucket_acquire_spec_keeps s cost w) as [_ [_ [_ Kl]]].
  fold w' in Ca, Cb, Cw, Cn, Kl. fold b in Ca, Cb. fold b' in Ca, Cb, Kl.
  set (b1 := refill_at (now w) b) in *.
  assert (Hcap : 0 <= max_tokens b) by lra.
  assert (H1lo : 0 <= available b1)
    by (apply refill_at_nonneg; [exact Hl | lra | exact Ha | exact Hcap]).
  assert (H1hi : available b1 <= max_tokens b) by apply refill_at_le_capacity.
  rewrite Kl.
  destruct (Qlt_le_dec (available b1) cost) as [Hlt|Hge].
  - destruct (Cb Hlt) as [Ew [Hw [En Ea]]].
    pose proof (refill_after_wait_reaches_cost b1 (now w) cost Hr eq_refl Hlt Hc)
      as Hreach.
    change (refill_rate b1) with (refill_rate b) in Hreach.
    rewrite <- Ew in Hreach. rewrite Ea, Hreach. lra.
  - destruct (Ca Hge) as [Ew [En Ea]]. rewrite Ea. lra.
Qed.

Section Histories.
Variables (R T : Q).

Lemma elapse_preserves (d : Q) (w : World) :
  0 <= d -> Inv R T w -> Inv R T (mkWorld (now w + d) (limiter w)).
Proof.
  intros Hd [? ? ? ? ? ? ? ? ? ?].
  constructor; cbn [now limiter]; try assumption; lra.
Qed.

Lemma refill_preserves (s : Which) (w : World) :
  Inv R T w ->
  Inv R T (mkWorld (now w)
             (put_bucket s (refill_at (now w) (get_bucket s (limiter w)))
                         (limiter w))) /\
  (s = Tok \/ Capped w ->
   Capped (mkWorld (now w)
             (put_bucket s (refill_at (now w) (get_bucket s (limiter w)))
                         (limiter w)))).
Proof.
  intros [c1 c2 c3 r1 r2 l1 l2 a1 a2 a3]. split.
  - destruct s; constructor;
      cbn [now limiter put_bucket get_bucket request_bucket token_bucket
           refill_at max_tokens refill_rate last_update];
      try assumption; try lra.
    + apply (refill_at_nonneg (request_bucket (limiter w)) (now w));
        [assumption | lra | assumption | rewrite c1; lra].
    + rewrite <- c1. apply refill_at_le_capacity.
    + apply (refill_at_nonneg (token_bucket (limiter w)) (now w));
        [assumption | lra | assumption | rewrite c2; lra].
  - unfold Capped. destruct s; cbn [limiter put_bucket get_bucket token_bucket].
    + intros [H|H]; [discriminate | exact H].
    + intros _.
      exact (refill_at_le_capacity (token_bucket (limiter w)) (now w)).
Qed.

Lemma refund_preserves (e a : Z) (w : World) :
  Inv R T w -> Inv R T (mkWorld (now w) (_refund_tokens e a (limiter w))).
Proof.
  intros [c1 c2 c3 r1 r2 l1 l2 a1 a2 a3].
  unfold _refund_tokens. destruct (a <? e)%Z eqn:E.
  - apply Z.ltb_lt in E.
    assert (Hx : 0 <= inject_Z (e - a)).
    { change 0 with (inject_Z 0). rewrite <- Zle_Qle. lia. }
    constructor;
      cbn [now limiter put_bucket request_bucket token_bucket
           set_available available max_tokens refill_rate last_update];
      try assumption; lra.
  - constructor; assumption.
Qed.

Lemma acquire_spec_preserves (r k : Q) (w : World) :
  Inv R T w ->
  (0 <= r /\ r <= R) -> (0 <= k /\ k <= T) ->
  Inv R T (snd (acquire_spec r k w)) /\ Capped (snd (acquire_spec r k w)).
Proof.
  intros [c1 c2 c3 r1 r2 l1 l2 a1 a2 a3] [Hr0 Hr1] [Hk0 Hk1].
  assert (Hr1' : r <= max_tokens (request_bucket (limiter w)))
    by (rewrite c1; exact Hr1).
  assert (Hk1' : k <= max_tokens (token_bucket (limiter w)))
    by (rewrite c2; exact Hk1).
  unfold acquire_spec.
  pose proof (bucket_acquire_spec_bounds Req r w r1 l1 a1 Hr0 Hr1') as BR.
  pose proof (bucket_acquire_spec_keeps Req r w) as KR.
  destruct (bucket_acquire_spec Req r w) as [wr w1].
  cbn [fst snd get_bucket] in BR, KR.
  destruct KR as [KR1 [KR2 [KR3 KR4]]].
  pose proof (KR1 Tok ltac:(discriminate)) as Etok. cbn [get_bucket] in Etok.
  destruct BR as [B1 [B2 [B3 B4]]]. rewrite c1 in B2.
  pose proof (bucket_acquire_spec_bounds Tok k w1) as BT.
  pose proof (bucket_acquire_spec_keeps Tok k w1) as KT.
  destruct (bucket_acquire_spec Tok k w1) as [wt w2].
  cbn [fst snd get_bucket] in BT, KT |- *.
  destruct KT as [KT1 [KT2 [KT3 KT4]]].
  pose proof (KT1 Req ltac:(discriminate)) as Ereq. cbn [get_bucket] in Ereq.
  rewrite Etok in BT, KT2, KT3.
  assert (l2' : last_update (token_bucket (limiter w)) <= now w1) by lra.
  destruct (BT r2 l2' a3 Hk0 Hk1') as [C1 [C2 [C3 C4]]].
  split.
  - constructor; rewrite ?Ereq, ?KT2, ?KT3, ?KR2, ?KR3;
      try assumption; try lra.
  - unfold Capped. rewrite KT2. exact C2.
Qed.

(** One operation, from a state that satisfies the invariant. *)
Lemma run_op_preserves (l0 : RateLimiter) (op : Op) (c : bool) (w : World) :
  max_tokens (request_bucket l0) = R -> max_tokens (token_bucket l0) = T ->
  Inv R T w -> (c = true -> Capped w) -> op_ok l0 op ->
  exists w',
    run_op op w = Ok (tt, w') /\ Inv R T w' /\
    (settles c op = true -> Capped w').
Proof.
  intros HR HT HI HC Hok.
  destruct op as [d | s | r k | r k | r k | e a]; cbn [run_op op_ok settles] in *.
  - eexists. split; [reflexivity|]. split.
    + apply elapse_preserves; assumption.
    + exact HC.
  - eexists. split; [apply refill_run|].
    destruct (refill_preserves s w HI) as [P1 P2]. split; [exact P1|].
    intro Hs. apply P2. destruct s; [right; apply HC; exact Hs | left; reflexivity].
  - rewrite HR, HT in Hok. destruct Hok as [Hr Hk].
    destruct (acquire_spec_preserves r k w HI Hr Hk) as [P1 P2].
    eexists. split.
    + unfold bind. rewrite acquire_run by apply HI. reflexivity.
    + split; [exact P1 | intros _; exact P2].
  - rewrite HR, HT in Hok. destruct Hok as [Hr Hk].
    destruct (acquire_spec_preserves r k w HI Hr Hk) as [P1 P2].
    destruct (async_acquire_agrees r k w (inv_rate_req _ _ _ HI)
                (inv_rate_tok _ _ _ HI)) as [wt [wt' [w' [A1 [A2 _]]]]].
    rewrite acquire_run in A1 by apply HI. injection A1 as _ <-.
    eexists. split.
    + unfold bind. rewrite A2. reflexivity.
    + split; [exact P1 | intros _; exact P2].
  - eexists. split.
    + unfold bind. rewrite get_wait_time_run by apply HI. reflexivity.
    + destruct (refill_preserves Req w HI) as [P1 _].
      destruct (refill_preserves Tok _ P1) as [Q1 Q2].
      cbn [now limiter put_bucket get_bucket request_bucket token_bucket] in Q1, Q2.
      split; [exact Q1 | intros _; apply Q2; left; reflexivity].
  - eexists. split; [reflexivity|]. split.
    + apply refund_preserves. exact HI.
    + unfold _refund_tokens. destruct (a <? e)%Z; [discriminate|].
      intro Hc. destruct w; apply HC; exact Hc.
Qed.

Lemma run_preserves (l0 : RateLimiter) (ops : list Op) :
  max_tokens (request_bucket l0) = R -> max_tokens (token_bucket l0) = T ->
  forall (c : bool) (w : World),
    Inv R T w -> (c = true -> Capped w) -> Forall (op_ok l0) ops ->
    exists w',
      run ops w = Ok (tt, w') /\ Inv R T w' /\
      (fold_left settles ops c = true -> Capped w').
Proof.
  intros HR HT. induction ops as [|op rest IH]; intros c w HI HC Hok.
  - exists w. split; [reflexivity|]. split; [exact HI | exact HC].
  - apply Forall_cons_iff in Hok. destruct Hok as [Hop Hrest].
    destruct (run_op_preserves l0 op c w HR HT HI HC Hop) as [w1 [E1 [I1 C1]]].
    destruct (IH (settles c op) w1 I1 C1 Hrest) as [w2 [E2 [I2 C2]]].
    exists w2. split; [|split; [exact I2 | exact C2]].
    cbn [run]. unfold bind. rewrite E1. exact E2.
Qed.
End Histories.

Lemma in_flight_refund_ok :
  Forall (op_ok scenario_limiter) (in_flight_history ++ [DoRefund 50 10]).
Proof.
  unfold in_flight_history. cbn [app].
  repeat (apply Forall_cons;
          [cbn [op_ok scenario_limiter request_bucket token_bucket max_tokens];
           first [exact I | lra] |]).
  apply Forall_nil.
Qed.

(** C2, as stated, fails in its upper bound: from the full scenario
    limiter, a history of permitted operations (reserve 50 tokens, 30
    seconds pass, a preview refills the bucket to its capacity, the call
    returns and 40 tokens are refunded) reaches a state whose token bucket
    holds 160 against a capacity of 120. *)
Lemma refund_breaks_upper_bound :
  RateLimiter_init 0 2 120 = Ok scenario_limiter /\
  Forall (op_ok scenario_limiter) (in_flight_history ++ [DoRefund 50 10]) /\
  exists w,
    run (in_flight_history ++ [DoRefund 50 10]) (mkWorld 0 scenario_limiter)
      = Ok (tt, w) /\
    max_tokens (token_bucket (limiter w)) == 120 /\
    available (token_bucket (limiter w)) == 160 /\
    ~ available (token_bucket (limiter w)) <= max_tokens (token_bucket (limiter w)).
Proof.
  split; [reflexivity|]. split; [exact in_flight_refund_ok|].
  eexists. split; [vm_compute; reflexivity|].
  split; [reflexivity|]. split; [reflexivity|].
  vm_compute. intro H. apply H. reflexivity.
Qed.

(** C2, amended.  For a limiter built with positive parameters, every
    history of refills, acquires of either flavour, previews, refunds and
    passing time, in which each acquire asks for costs between 0 and the
    bucket's capacity, runs without failure and ends in a state where both
    buckets have [0 <= available], the request bucket has [available <=
    capacity], and the token bucket has [available <= capacity] provided
    it has been refilled (by a refill, an acquire or a preview) since the
    last refund that credited it.  In every such state the next refill of
    the token bucket brings it back within [0 <= available <= capacity]. *)
Theorem bucket_bounds_along_histories (t rps tpm : Q) (l0 : RateLimiter)
    (ops : list Op) :
  0 < rps -> 0 < tpm ->
  RateLimiter_init t rps tpm = Ok l0 ->
  Forall (op_ok l0) ops ->
  exists w,
    run ops (mkWorld t l0) = Ok (tt, w) /\
    let rb := request_bucket (limiter w) in
    let tb := token_bucket (limiter w) in
    max_tokens rb = rps /\ max_tokens tb = tpm /\
    0 <= available rb /\ available rb <= max_tokens rb /\
    0 <= available tb /\
    (tok_settled ops = true -> available tb <= max_tokens tb) /\
    (forall t', now w <= t' ->
       0 <= available (refill_at t' tb) /\
       available (refill_at t' tb) <= max_tokens tb).
Proof.
  intros Hrps Htpm Hinit Hok.
  unfold RateLimiter_init in Hinit. injection Hinit as <-.
  assert (HI : Inv rps tpm
                 (mkWorld t
                    (mkLimiter (mkState rps rps rps t)
                               (mkState tpm tpm (tpm / 60) t)))).
  { constructor;
      cbn [now limiter request_bucket token_bucket available max_tokens
           refill_rate last_update]; try reflexivity; try lra.
    apply div_pos; [exact Htpm | reflexivity]. }
  destruct (run_preserves rps tpm
              (mkLimiter (mkState rps rps rps t) (mkState tpm tpm (tpm / 60) t))
              ops eq_refl eq_refl true _ HI) as
    [w [Hrun [[c1 c2 c3 r1 r2 l1 l2 a1 a2 a3] HC]]].
  - intros _. unfold Capped. cbn. lra.
  - exact Hok.
  - exists w. split; [exact Hrun|]. cbn zeta.
    split; [exact c1|]. split; [exact c2|]. split; [exact a1|].
    split; [rewrite c1; exact a2|]. split; [exact a3|].
    split; [exact HC|].
    intros t' Ht'. split.
    + apply refill_at_nonneg; [lra | lra | exact a3 | rewrite c2; exact c3].
    + apply refill_at_le_capacity.
Qed.

Lemma bucket_bounds_along_histories_witness :
  exists w,
    run (in_flight_history ++ [DoRefund 50 10]) (mkWorld 0 scenario_limiter)
      = Ok (tt, w) /\
    0 <= available (token_bucket (limiter w)).
Proof.
  destruct (bucket_bounds_along_histories 0 2 120 scenario_limiter
              (in_flight_history ++ [DoRefund 50 10]))
    as [w [Hrun [_ [_ [_ [_ [Hlow _]]]]]]].
  - reflexivity.
  - reflexivity.
  - reflexivity.
  - unfold in_flight_history. cbn [app].
    repeat (apply Forall_cons;
            [cbn [op_ok scenario_limiter request_bucket token_bucket max_tokens];
             first [exact I | lra] |]).
    apply Forall_nil.
  - exists w. split; [exact Hrun | exact Hlow].
Defined.

(** ** Construction *)

(** C4, as stated, fails in its first part: both limiter constructors
    accept non-positive parameters and return a limiter. *)
Lemma limiter_accepts_nonpositive_parameters :
  RateLimiter_init 0 0 (-5) =
    Ok (mkLimiter (mkState 0 0 0 0) (mkState (-5) (-5) (-5 / 60) 0)) /\
  AsyncRateLimiter_init 0 0 (-5) =
    Ok (mkLimiter (mkState 0 0 0 0) (mkState (-5) (-5) (-5 / 60) 0)).
Proof. split; reflexivity. Qed.

Lemma post_init_ok_inv (env_key : option string) (fields config : RatelimitConfig) :
  RatelimitConfig_post_init env_key fields = Ok config ->
  0 < requests_per_second fields /\ (0 < tokens_per_minute fields)%Z /\
  requests_per_second config = requests_per_second fields /\
  tokens_per_minute config = tokens_per_minute fields.
Proof.
  unfold RatelimitConfig_post_init.
  destruct (match api_key fields with None => env_key | Some k => Some k end);
    [|discriminate].
  destruct (Qleb (requests_per_second fields) 0) eqn:E1; [discriminate|].
  destruct (tokens_per_minute fields <=? 0)%Z eqn:E2; [discriminate|].
  destruct (max_retries fields <? 0)%Z; [discriminate|].
  destruct (Qleb (base_delay fields) 0); [discriminate|].
  destruct (Qleb (max_delay fields) 0); [discriminate|].
  destruct (Qleb (timeout fields) 0); [discriminate|].
  intro H. injection H as <-. cbn.
  apply Qleb_false in E1. apply Z.leb_gt in E2. repeat split; assumption.
Qed.

Lemma post_init_rejects (env_key : option string) (fields : RatelimitConfig) :
  requests_per_second fields <= 0 \/ (tokens_per_minute fields <= 0)%Z ->
  exists msg, RatelimitConfig_post_init env_key fields = Raise (ValueError msg).
Proof.
  intro Hbad. unfold RatelimitConfig_post_init.
  destruct (match api_key fields with None => env_key | Some k => Some k end);
    [|eexists; reflexivity].
  destruct (Qleb (requests_per_second fields) 0) eqn:E1; [eexists; reflexivity|].
  destruct (tokens_per_minute fields <=? 0)%Z eqn:E2; [eexists; reflexivity|].
  apply Qleb_false in E1. apply Z.leb_gt in E2.
  destruct Hbad; [lra | lia].
Qed.

(** C4, amended.  The limiter constructors of both flavours validate
    nothing: for every pair of parameters, positive ones in particular,
    they return a limiter whose buckets are full, the request bucket with
    capacity and refill rate [requestsPerSecond], the token bucket with
    capacity [tokensPerMinute] and refill rate [tokensPerMinute / 60].
    The check lives in the configuration: constructing a
    [RatelimitConfig] with [requests_per_second <= 0] or
    [tokens_per_minute <= 0] raises [ValueError], so no client is built
    from such values, and the limiters of a client that is built have
    positive parameters. *)
Theorem limiter_construction_and_config_check
    (t : Q) (env_key : option string) (fields : RatelimitConfig) :
  (forall rps tpm : Q,
     exists l,
       RateLimiter_init t rps tpm = Ok l /\
       AsyncRateLimiter_init t rps tpm = Ok l /\
       request_bucket l = mkState rps rps rps t /\
       token_bucket l = mkState tpm tpm (tpm / 60) t /\
       available (request_bucket l) = max_tokens (request_bucket l) /\
       available (token_bucket l) = max_tokens (token_bucket l)) /\
  (requests_per_second fields <= 0 \/ (tokens_per_minute fields <= 0)%Z ->
   exists msg,
     RatelimitConfig_post_init env_key fields = Raise (ValueError msg) /\
     make_client t env_key fields = Raise (ValueError msg)) /\
  (forall rl arl,
     make_client t env_key fields = Ok (rl, arl) ->
     0 < requests_per_second fields /\ (0 < tokens_per_minute fields)%Z /\
     RateLimiter_init t (requests_per_second fields)
                      (inject_Z (tokens_per_minute fields)) = Ok rl /\
     AsyncRateLimiter_init t (requests_per_second fields)
                           (inject_Z (tokens_per_minute fields)) = Ok arl /\
     0 < refill_rate (request_bucket rl) /\ 0 < refill_rate (token_bucket rl)).
Proof.
  split; [|split].
  - intros rps tpm. eexists. repeat split.
  - intro Hbad. destruct (post_init_rejects env_key fields Hbad) as [msg E].
    exists msg. split; [exact E|]. unfold make_client. rewrite E. reflexivity.
  - intros rl arl. unfold make_client.
    destruct (RatelimitConfig_post_init env_key fields) as [config|e] eqn:E;
      [|discriminate].
    destruct (post_init_ok_inv _ _ _ E) as [H1 [H2 [E1 E2]]].
    unfold MistralRatelimitClient_init, AsyncRateLimiter_init, RateLimiter_init.
    rewrite E1, E2. intro H. injection H as <- <-.
    cbn [request_bucket token_bucket refill_rate].
    repeat split; try assumption.
    apply div_pos; [|reflexivity].
    change 0 with (inject_Z 0). rewrite <- Zlt_Qlt. exact H2.
Qed.

Lemma limiter_construction_and_config_check_witness :
  exists msg,
    make_client 0 (Some "key"%string)
      (mkConfig None 0 500000 3 1 32 60) = Raise (ValueError msg).
Proof.
  destruct (limiter_construction_and_config_check 0 (Some "key"%string)
              (mkConfig None 0 500000 3 1 32 60)) as [_ [Hbad _]].
  destruct Hbad as [msg [_ E]].
  - left. cbn. lra.
  - exists msg. exact E.
Defined.

(** ** The stream wrapper *)

Lemma bucket_acquire_spec_debits (s : Which) (cost : Q) (w : World) :
  available (get_bucket s (limiter (snd (bucket_acquire_spec s cost w)))) =
  balance_at_debit s cost w - cost.
Proof.
  unfold bucket_acquire_spec, balance_at_debit.
  destruct (Qgeb _ cost); cbn [snd limiter]; rewrite get_put_same; reflexivity.
Qed.

Lemma observe_non_terminal (estimated : Z) (event : Event) (l : RateLimiter) :
  is_terminal event = false -> observe_event estimated event l = l.
Proof.
  unfold is_terminal, observe_event. destruct (data event) as [d|]; [|reflexivity].
  intro H. rewrite H. reflexivity.
Qed.

Lemma observe_terminal (estimated : Z) (event : Event) (d : EventData)
    (l : RateLimiter) :
  data event = Some d -> is_terminal event = true ->
  observe_event estimated event l =
  _refund_tokens estimated (_extract_usage (body d)) l.
Proof.
  unfold is_terminal, observe_event. intros ->. intro H. rewrite H. reflexivity.
Qed.

(** The wrapper hands on the events it pulled, unchanged and in order, and
    its effect on the limiter is that of observing each of them. *)
Lemma process_stream_folds (pulls : nat) (stream : list StreamItem)
    (estimated : Z) (l : RateLimiter) :
  let '(events, ending, l') :=
    _process_stream_response pulls stream estimated l in
  l' = fold_left (fun l e => observe_event estimated e l) events l /\
  exists rest, map Yield events ++ rest = stream /\
               (List.length events <= pulls)%nat /\
               (ending = Exhausted -> rest = []) /\
               (forall e, ending = Raised e -> exists rest', rest = Throw e :: rest') /\
               (ending = Abandoned -> List.length events = pulls).
Proof.
  revert stream l. induction pulls as [|p IH]; intros stream l.
  - cbn. split; [reflexivity|]. exists stream.
    repeat split; try discriminate; auto.
  - destruct stream as [|[ev|err] rest]; cbn [_process_stream_response].
    + split; [reflexivity|]. exists []. cbn.
      repeat split; try discriminate; auto with arith.
    + specialize (IH rest (observe_event estimated ev l)).
      destruct (_process_stream_response p rest estimated
                  (observe_event estimated ev l)) as [[events ending] l'].
      destruct IH as [E [rest' [Hs [Hl [H1 [H2 H3]]]]]].
      split; [exact E|]. exists rest'. cbn [map app List.length].
      split; [rewrite Hs; reflexivity|].
      split; [apply le_n_S; exact Hl|].
      split; [exact H1|]. split; [exact H2|].
      intro Ha. rewrite (H3 Ha). reflexivity.
    + split; [reflexivity|]. exists (Throw err :: rest). cbn.
      repeat split; try discriminate; auto with arith.
      intros e He. injection He as <-. exists rest. reflexivity.
Qed.

Lemma fold_observe_no_terminal (estimated : Z) (events : list Event)
    (l : RateLimiter) :
  forallb (fun e => negb (is_terminal e)) events = true ->
  fold_left (fun l e => observe_event estimated e l) events l = l.
Proof.
  revert l. induction events as [|e rest IH]; intros l H; [reflexivity|].
  cbn [forallb] in H. apply andb_true_iff in H. destruct H as [He Hrest].
  apply negb_true_iff in He. cbn [fold_left].
  rewrite observe_non_terminal by exact He. apply IH. exact Hrest.
Qed.

(** The wrapper over an upstream that begins with [events]: it hands on
    exactly these, ends as the iteration does, and has observed each of
    them. *)
Lemma process_stream_run (pulls : nat) (events : list Event)
    (rest : list StreamItem) (ending : StreamEnd) (estimated : Z)
    (l : RateLimiter) :
  stops_after pulls events rest ending ->
  _process_stream_response pulls (map Yield events ++ rest) estimated l =
  (events, ending,
   fold_left (fun l e => observe_event estimated e l) events l).
Proof.
  revert pulls l. induction events as [|ev evs IH]; intros pulls l Hstop.
  - destruct ending as [|e|]; cbn [stops_after List.length] in Hstop.
    + destruct Hstop as [-> Hlt]. destruct pulls as [|p]; [lia|]. reflexivity.
    + destruct Hstop as [[rest' ->] Hlt]. destruct pulls as [|p]; [lia|].
      reflexivity.
    + subst pulls. reflexivity.
  - assert (Hp : exists p, pulls = S p /\ stops_after p evs rest ending).
    { destruct ending as [|e|]; cbn [stops_after List.length] in Hstop |- *.
      - destruct Hstop as [Hrest Hlt]. destruct pulls as [|p]; [lia|].
        exists p. repeat split; [exact Hrest|lia].
      - destruct Hstop as [Hrest Hlt]. destruct pulls as [|p]; [lia|].
        exists p. repeat split; [exact Hrest|lia].
      - exists (List.length evs). split; [symmetry; exact Hstop|reflexivity]. }
    destruct Hp as [p [-> Hstop']].
    cbn [map app _process_stream_response fold_left].
    rewrite (IH p (observe_event estimated ev l) Hstop'). reflexivity.
Qed.

(** C7.  A streamed call on a limiter with positive rates, once pulled,
    reserves with [acquire(1, estimate)] and then passes the upstream
    through the wrapper.  Let the upstream begin with [events] and the
    iteration stop after them in any of the three ways: upstream
    exhausted, upstream raised (the consumer gets the error converted by
    [_handle_error]), consumer walked away.  Then the consumer receives
    exactly [events], and the limiter the call leaves is the one
    [acquire] left with each of these events observed in turn.
    Observing changes the limiter only at an event of type
    ["conversation.response.done"], and what it does then is the refund
    for [actual] taken from that event: the token bucket gains
    [estimate - actual] if [actual < estimate] and nothing otherwise.
    So if [events] contain no such event, the limiter is the one
    [acquire] left: the token bucket stays at its balance at the debit
    minus the full estimate.  If they contain exactly one, the limiter is
    the one [acquire] left with that single refund applied. *)
Theorem stream_refunds_only_on_done_event
    (estimated : Z) (pulls : nat) (events : list Event)
    (rest : list StreamItem) (ending : StreamEnd) (w : World) :
  0 < refill_rate (request_bucket (limiter w)) ->
  0 < refill_rate (token_bucket (limiter w)) ->
  stops_after (S pulls) events rest ending ->
  exists wait w1 w2,
    acquire 1 (inject_Z estimated) w = Ok (wait, w1) /\
    stream_call estimated (S pulls) (map Yield events ++ rest) w =
      Ok ((events, convert_ending ending), w2) /\
    now w2 = now w1 /\
    limiter w2 =
      fold_left (fun l e => observe_event estimated e l) events (limiter w1) /\
    (forall e l, is_terminal e = false -> observe_event estimated e l = l) /\
    (forall e d l,
       data e = Some d -> is_terminal e = true ->
       let actual := _extract_usage (body d) in
       observe_event estimated e l = _refund_tokens estimated actual l /\
       ((actual < estimated)%Z ->
          available (token_bucket (observe_event estimated e l)) =
          available (token_bucket l) + inject_Z (estimated - actual)) /\
       ((estimated <= actual)%Z -> observe_event estimated e l = l)) /\
    (forallb (fun e => negb (is_terminal e)) events = true ->
       limiter w2 = limiter w1 /\
       available (token_bucket (limiter w2)) =
         balance_at_debit Tok (inject_Z estimated)
           (snd (bucket_acquire_spec Req 1 w)) - inject_Z estimated) /\
    (forall pre e d post,
       events = pre ++ e :: post ->
       forallb (fun e => negb (is_terminal e)) pre = true ->
       forallb (fun e => negb (is_terminal e)) post = true ->
       data e = Some d -> is_terminal e = true ->
       let actual := _extract_usage (body d) in
       limiter w2 = _refund_tokens estimated actual (limiter w1) /\
       ((actual < estimated)%Z ->
          available (token_bucket (limiter w2)) =
          available (token_bucket (limiter w1)) +
          inject_Z (estimated - actual)) /\
       ((estimated <= actual)%Z -> limiter w2 = limiter w1)).
Proof.
  intros Hr Ht Hstop.
  pose proof (acquire_run 1 (inject_Z estimated) w Hr Ht) as Hrun.
  set (w1 := snd (acquire_spec 1 (inject_Z estimated) w)) in *.
  pose proof (process_stream_run (S pulls) events rest ending estimated
                (limiter w1) Hstop) as EP.
  set (l' := fold_left (fun l e => observe_event estimated e l) events
               (limiter w1)) in *.
  eexists _, w1, (mkWorld (now w1) l').
  split; [exact Hrun|].
  split.
  { unfold stream_call, bind. rewrite Hrun. rewrite EP. reflexivity. }
  split; [reflexivity|]. cbn [limiter].
  split; [reflexivity|].
  split; [intros e l He; apply observe_non_terminal; exact He|].
  assert (Hobs : forall e d l,
            data e = Some d -> is_terminal e = true ->
            let actual := _extract_usage (body d) in
            observe_event estimated e l = _refund_tokens estimated actual l /\
            ((actual < estimated)%Z ->
               available (token_bucket (observe_event estimated e l)) =
               available (token_bucket l) + inject_Z (estimated - actual)) /\
            ((estimated <= actual)%Z -> observe_event estimated e l = l)).
  { intros e d l Hd He. set (actual := _extract_usage (body d)).
    rewrite (observe_terminal estimated e d l Hd He). fold actual.
    split; [reflexivity|]. unfold _refund_tokens. split.
    - intro Hlt. apply Z.ltb_lt in Hlt. rewrite Hlt. reflexivity.
    - intro Hge. apply Z.ltb_ge in Hge. rewrite Hge. reflexivity. }
  split; [exact Hobs|].
  split.
  { intro Hno. unfold l'. rewrite fold_observe_no_terminal by exact Hno.
    split; [reflexivity|].
    unfold w1, acquire_spec.
    destruct (bucket_acquire_spec Req 1 w) as [wr wa]. cbn [snd].
    pose proof (bucket_acquire_spec_debits Tok (inject_Z estimated) wa) as D.
    destruct (bucket_acquire_spec Tok (inject_Z estimated) wa) as [wt wb].
    cbn [snd get_bucket] in D |- *. exact D. }
  intros pre e d post Hev Hpre Hpost Hd He.
  assert (El : l' = observe_event estimated e (limiter w1)).
  { unfold l'. rewrite Hev, fold_left_app. cbn [fold_left].
    rewrite fold_observe_no_terminal by exact Hpost.
    rewrite fold_observe_no_terminal by exact Hpre. reflexivity. }
  rewrite El. exact (Hobs e d (limiter w1) Hd He).
Qed.

Lemma stream_refunds_only_on_done_event_witness :
  exists w2,
    stream_call 80 3 aborted_stream scenario_world
      = Ok (([mkEvent (Some (mkData "message.output.delta" OtherResponse)) "chunk"],
             Raised (LibraryError
                       (MistralRatelimitError "API error: connection lost"))),
            w2) /\
    available (token_bucket (limiter w2)) == 40.
Proof.
  destruct (stream_refunds_only_on_done_event 80 2
              [mkEvent (Some (mkData "message.output.delta" OtherResponse)) "chunk"]
              (skipn 1 aborted_stream)
              (Raised (ValueError "connection lost")) scenario_world)
    as [wait [w1 [w2 [Ha [Hs [_ [_ [_ [_ [Hno _]]]]]]]]]].
  - reflexivity.
  - reflexivity.
  - cbn. split; [eexists; reflexivity|lia].
  - exists w2. split; [exact Hs|].
    destruct (Hno eq_refl) as [_ Hb]. rewrite Hb. vm_compute. reflexivity.
Defined.

(** ** The estimator *)

Lemma len_nonneg {A} (l : list A) : (0 <= len l)%Z.
Proof. unfold len. lia. Qed.

(** [count_text] returns a length, or raises what [encode] raised on the
    text. *)
Lemma count_text_result (tc : TokenCounter) (text : string) :
  match count_text tc text with
  | Ok n => (0 <= n)%Z
  | Raise e => encode (_encoding tc) text = Raise e
  end.
Proof.
  unfold count_text. destruct (encode (_encoding tc) text) as [tokens|e].
  - apply len_nonneg.
  - reflexivity.
Qed.

(** A text part anywhere before the end of a content list makes the inner
    loop raise, whatever the tokeniser. *)
Lemma count_content_items_text_raises (tc : TokenCounter)
    (before after : list pyval) (d : list (string * pyval)) (total : Z) :
  get_eq_str (dict_get d "type") "text" = true ->
  forallb (fun item => match item with
                       | PDict d' => negb (get_eq_str (dict_get d' "type") "text")
                       | _ => true
                       end) before = true ->
  count_content_items tc (before ++ PDict d :: after) total =
  Raise (AttributeError "encodeordinary").
Proof.
  intros Htext. revert total.
  induction before as [|item rest IH]; intros total Hbefore.
  - cbn [app count_content_items]. rewrite Htext. reflexivity.
  - cbn [forallb] in Hbefore. apply andb_true_iff in Hbefore.
    destruct Hbefore as [Hitem Hrest].
    cbn [app count_content_items].
    destruct item as [| | | | |d']; try (apply IH; exact Hrest).
    apply negb_true_iff in Hitem. rewrite Hitem.
    destruct (get_eq_str (dict_get d' "type") "image_url"); apply IH; exact Hrest.
Qed.

(** C9 fails on the code for multimodal entries that carry a text part:
    the branch for text parts asks the encoding for [encodeordinary],
    which it does not have (the plain-text branch calls
    [encode_ordinary]), so the estimate raises instead of returning.  On
    the same message without the text part the estimate returns, each
    image part adding 85. *)
Theorem estimate_raises_on_multimodal_text (tc : TokenCounter) :
  _estimate_tokens tc multimodal_payload =
    Raise (AttributeError "encodeordinary") /\
  estimated_for tc multimodal_payload =
    Raise (AttributeError "encodeordinary") /\
  _estimate_tokens tc image_only_payload = Ok (4 * 1 + 85 + 2)%Z.
Proof. repeat split. Qed.

(** On entries whose contents are plain texts the loop of
    [count_messages] returns, and only adds to the total. *)
Lemma count_messages_loop_plain (tc : TokenCounter) (messages : list pyval) :
  forallb plain_text_message messages = true ->
  forall total, exists n,
    count_messages_loop tc messages total = Ok n /\ (total <= n)%Z.
Proof.
  induction messages as [|m rest IH]; intros Hplain total.
  - exists total. split; [reflexivity | lia].
  - cbn [forallb] in Hplain. apply andb_true_iff in Hplain.
    destruct Hplain as [Hm Hrest].
    destruct m as [| | | | |d]; try discriminate.
    cbn [plain_text_message] in Hm. cbn [count_messages_loop].
    destruct (dict_get_default d "content" (PStr "")) as [| | |content| |];
      try discriminate.
    destruct (IH Hrest
                (total + len (encode_ordinary (_encoding tc) content) +
                 (if truthy (dict_get d "name") then 1 else 0))%Z)
      as [n [E Hn]].
    exists n. split; [exact E|].
    pose proof (len_nonneg (encode_ordinary (_encoding tc) content)).
    destruct (truthy (dict_get d "name")); lia.
Qed.

(** C10.  [count_messages] of the empty list is 0: neither the 4 per
    message nor the final 2 is added.  For a non-empty list of plain-text
    messages it returns a count of at least [4 * len(messages) + 2]. *)
Theorem count_messages_empty_and_lower_bound (tc : TokenCounter) :
  count_messages tc [] = Ok 0%Z /\
  forall messages,
    messages <> [] ->
    forallb plain_text_message messages = true ->
    exists n,
      count_messages tc messages = Ok n /\
      (4 * len messages + 2 <= n)%Z.
Proof.
  split; [reflexivity|].
  intros messages Hne Hplain.
  destruct messages as [|m rest]; [contradiction|].
  unfold count_messages.
  destruct (count_messages_loop_plain tc (m :: rest) Hplain
              (4 * len (m :: rest))%Z) as [n [E Hn]].
  rewrite E. exists (n + 2)%Z. split; [reflexivity | lia].
Qed.

Lemma count_messages_empty_and_lower_bound_witness :
  exists n,
    count_messages (mkCounter char_encoding)
      [PDict [("role"%string, PStr "user"); ("content"%string, PStr "hello")];
       PDict [("role"%string, PStr "assistant"); ("name"%string, PStr "bot");
              ("content"%string, PStr "hi")]] = Ok n /\
    (4 * 2 + 2 <= n)%Z.
Proof.
  destruct (count_messages_empty_and_lower_bound (mkCounter char_encoding))
    as [_ H].
  apply (H [PDict [("role"%string, PStr "user"); ("content"%string, PStr "hello")];
            PDict [("role"%string, PStr "assistant"); ("name"%string, PStr "bot");
                   ("content"%string, PStr "hi")]]).
  - discriminate.
  - reflexivity.
Defined.

Lemma estimate_items_result (tc : TokenCounter) (inputs : list pyval)
    (tokens : Z) :
  match estimate_items tc inputs tokens with
  | Ok n => (tokens <= n)%Z
  | Raise e => exists text, encode (_encoding tc) text = Raise e
  end.
Proof.
  revert tokens. induction inputs as [|item rest IH]; intros tokens.
  - cbn [estimate_items]. lia.
  - assert (Htext : forall s,
              match
                match count_text tc s with
                | Raise e => Raise e
                | Ok n => estimate_items tc rest (tokens + n)
                end
              with
              | Ok n => (tokens <= n)%Z
              | Raise e => exists text, encode (_encoding tc) text = Raise e
              end).
    { intro s. pose proof (count_text_result tc s) as Hc.
      destruct (count_text tc s) as [n|e]; [|exists s; exact Hc].
      specialize (IH (tokens + n)%Z).
      destruct (estimate_items tc rest (tokens + n)); [lia | exact IH]. }
    cbn [estimate_items]. destruct item as [| | |s| |d]; try apply IH.
    + apply Htext.
    + destruct (dict_get_default d "content" (PStr "")) as [| | |c| |];
        try apply IH.
      apply Htext.
Qed.

(** Away from multimodal text parts, and with a tokeniser whose [encode]
    returns on every text, the estimator does return a non-negative
    integer: on a plain text, and on a sequence of entries whose contents
    are plain texts. *)
Lemma estimate_total_on_plain_payloads (tc : TokenCounter) :
  (forall text, exists tokens, encode (_encoding tc) text = Ok tokens) ->
  (forall s, exists n, _estimate_tokens tc (PStr s) = Ok n /\ (0 <= n)%Z) /\
  (forall messages,
     forallb plain_text_message messages = true ->
     exists n, _estimate_tokens tc (PList messages) = Ok n /\ (0 <= n)%Z).
Proof.
  intro Henc. split.
  - intro s. cbn [_estimate_tokens].
    pose proof (count_text_result tc s) as Hc.
    destruct (count_text tc s) as [n|e].
    + exists n. split; [reflexivity | exact Hc].
    + destruct (Henc s) as [tokens E]. rewrite E in Hc. discriminate.
  - intros messages Hplain. cbn [_estimate_tokens].
    assert (Hgen : exists n, estimate_items tc messages 0 = Ok n /\ (0 <= n)%Z).
    { pose proof (estimate_items_result tc messages 0) as Hi.
      destruct (estimate_items tc messages 0) as [n|e].
      - exists n. split; [reflexivity | exact Hi].
      - destruct Hi as [text Hi]. destruct (Henc text) as [tokens E].
        rewrite E in Hi. discriminate. }
    destruct messages as [|m rest]; [exact Hgen|].
    destruct m as [| | | | |d]; try exact Hgen.
    destruct (dict_contains d "content"); [|exact Hgen].
    unfold count_messages.
    destruct (count_messages_loop_plain tc (PDict d :: rest) Hplain
                (4 * len (PDict d :: rest))%Z) as [n [E Hn]].
    rewrite E. exists (n + 2)%Z. split; [reflexivity|].
    pose proof (len_nonneg (PDict d :: rest)). lia.
Qed.

(** * Further properties of the code *)

(** ** Refill, on its own *)

Lemma Qgeb_same (a a' b b' : Q) :
  a == a' -> b == b' -> Qgeb a b = Qgeb a' b'.
Proof.
  intros Ea Eb.
  destruct (Qgeb a b) eqn:E1; destruct (Qgeb a' b') eqn:E2; try reflexivity.
  - apply Qgeb_true in E1. apply Qgeb_false in E2. lra.
  - apply Qgeb_false in E1. apply Qgeb_true in E2. lra.
Qed.

Lemma Qltb_same (a a' b b' : Q) :
  a == a' -> b == b' -> Qltb a b = Qltb a' b'.
Proof.
  intros Ea Eb. unfold Qltb. f_equal. exact (Qgeb_same a a' b b' Ea Eb).
Qed.

Lemma Qmin_same (a a' b b' : Q) :
  a == a' -> b == b' -> Qmin a b == Qmin a' b'.
Proof.
  intros Ea Eb.
  destruct (Q.min_spec a b) as [[H1 E1]|[H1 E1]];
  destruct (Q.min_spec a' b') as [[H2 E2]|[H2 E2]]; rewrite E1, E2; lra.
Qed.

Lemma same_bucket_refl (b : RateLimitState) : same_bucket b b.
Proof. repeat split; reflexivity. Qed.

Lemma same_bucket_sym (b b' : RateLimitState) :
  same_bucket b b' -> same_bucket b' b.
Proof. intros [A [B [C D]]]. repeat split; symmetry; assumption. Qed.

Lemma same_bucket_trans (a b c : RateLimitState) :
  same_bucket a b -> same_bucket b c -> same_bucket a c.
Proof.
  intros [A [B [C D]]] [A' [B' [C' D']]].
  repeat split; etransitivity; eassumption.
Qed.

Lemma refill_at_same (t t' : Q) (b b' : RateLimitState) :
  t == t' -> same_bucket b b' -> same_bucket (refill_at t b) (refill_at t' b').
Proof.
  intros Et [A [B [C D]]]. unfold same_bucket, refill_at.
  cbn [available max_tokens refill_rate last_update].
  repeat split; try assumption.
  apply Qmin_same; [exact B|]. rewrite A, C, D, Et. reflexivity.
Qed.

Lemma refill_at_twice (b : RateLimitState) (t1 t2 : Q) :
  0 <= refill_rate b -> t1 <= t2 ->
  same_bucket (refill_at t2 (refill_at t1 b)) (refill_at t2 b).
Proof.
  intros Hr Ht. unfold same_bucket, refill_at.
  cbn [available max_tokens refill_rate last_update].
  repeat split; try reflexivity.
  assert (Hp : 0 <= (t2 - t1) * refill_rate b)
    by (apply Qmult_le_0_compat; lra).
  assert (E : (t2 - last_update b) * refill_rate b ==
              (t1 - last_update b) * refill_rate b + (t2 - t1) * refill_rate b)
    by ring.
  set (p1 := (t1 - last_update b) * refill_rate b) in *.
  set (p2 := (t2 - t1) * refill_rate b) in *.
  set (p := (t2 - last_update b) * refill_rate b) in *.
  destruct (Q.min_spec (max_tokens b) (available b + p1)) as [[H1 E1]|[H1 E1]];
  destruct (Q.min_spec (max_tokens b) (Qmin (max_tokens b) (available b + p1) + p2))
    as [[H2 E2]|[H2 E2]];
  destruct (Q.min_spec (max_tokens b) (available b + p)) as [[H3 E3]|[H3 E3]];
    rewrite E2, E3; rewrite ?E1 in *; lra.
Qed.

(** X1.  Refills compose.  For a bucket with a non-negative rate,
    [_refill], then [d >= 0] seconds, then [_refill] again leaves the
    clock and both buckets with the same numbers as [d] seconds and one
    [_refill]: an intermediate refill, such as the one a preview makes, is
    not seen by later ones. *)
Theorem refill_composes (s : Which) (d : Q) (w : World) :
  0 <= refill_rate (get_bucket s (limiter w)) -> 0 <= d ->
  exists w1 w2 w3,
    _refill s w = Ok (tt, w1) /\
    _refill s (mkWorld (now w1 + d) (limiter w1)) = Ok (tt, w2) /\
    _refill s (mkWorld (now w + d) (limiter w)) = Ok (tt, w3) /\
    same_world w2 w3.
Proof.
  intros Hr Hd.
  eexists _, _, _.
  split; [apply refill_run|]. split; [apply refill_run|].
  split; [apply refill_run|].
  cbn [now limiter]. rewrite get_put_same, put_put_same.
  assert (H : same_bucket
                (refill_at (now w + d) (refill_at (now w) (get_bucket s (limiter w))))
                (refill_at (now w + d) (get_bucket s (limiter w))))
    by (apply refill_at_twice; [exact Hr | lra]).
  unfold same_world. cbn [now limiter]. split; [reflexivity|].
  destruct s; cbn [put_bucket get_bucket request_bucket token_bucket] in *;
    split; try exact H; apply same_bucket_refl.
Qed.

Lemma refill_composes_witness :
  exists w1 w2 w3,
    _refill Tok scenario_world = Ok (tt, w1) /\
    _refill Tok (mkWorld (now w1 + 2) (limiter w1)) = Ok (tt, w2) /\
    _refill Tok (mkWorld (now scenario_world + 2) (limiter scenario_world))
      = Ok (tt, w3) /\
    same_world w2 w3.
Proof.
  apply (refill_composes Tok 2 scenario_world).
  - vm_compute. discriminate.
  - lra.
Defined.

(** X2.  A bucket with a positive rate that is left alone for at least
    [(capacity - available) / refillRate] seconds is full at its next
    refill, however much longer it was left: credit beyond the capacity is
    not kept. *)
Theorem refill_fills_after_enough_time (b : RateLimitState) (t : Q) :
  0 < refill_rate b ->
  (max_tokens b - available b) / refill_rate b <= t - last_update b ->
  available (refill_at t b) == max_tokens b.
Proof.
  intros Hr Hel. cbn [refill_at available].
  assert (H : max_tokens b - available b <= (t - last_update b) * refill_rate b).
  { rewrite <- (div_mul_rate (max_tokens b - available b) (refill_rate b)) by exact Hr.
    apply Qmult_le_r; assumption. }
  set (p := (t - last_update b) * refill_rate b) in *.
  destruct (Q.min_spec (max_tokens b) (available b + p)) as [[H1 E1]|[H1 E1]];
    rewrite E1; lra.
Qed.

Lemma refill_fills_after_enough_time_witness :
  available (refill_at 200 (mkState 20 120 2 0)) == 120.
Proof.
  apply (refill_fills_after_enough_time (mkState 20 120 2 0) 200).
  - reflexivity.
  - vm_compute. discriminate.
Defined.

(** ** Preview and acquire *)

Lemma wait_needed_same (b b' : RateLimitState) (cost : Q) :
  same_bucket b b' -> ~ refill_rate b == 0 ->
  wait_needed b cost == wait_needed b' cost.
Proof.
  intros [A [_ [C _]]] Hr. unfold wait_needed.
  rewrite (Qltb_same (available b) (available b') cost cost A (Qeq_refl cost)).
  destruct (Qltb (available b') cost); [|reflexivity].
  rewrite A, C. reflexivity.
Qed.

Lemma bucket_acquire_spec_wait (s : Which) (cost : Q) (w : World) :
  fst (bucket_acquire_spec s cost w) =
  wait_needed (refill_at (now w) (get_bucket s (limiter w))) cost.
Proof.
  unfold bucket_acquire_spec, wait_needed, Qltb, Qgeb.
  destruct (Qle_bool cost _); reflexivity.
Qed.

(** The wait a bucket needs shrinks as time passes, by no more than the
    time passed. *)
Lemma wait_needed_after_delay (b : RateLimitState) (t d cost : Q) :
  0 < refill_rate b -> 0 <= d ->
  wait_needed (refill_at (t + d) b) cost <= wait_needed (refill_at t b) cost /\
  wait_needed (refill_at t b) cost <= d + wait_needed (refill_at (t + d) b) cost.
Proof.
  intros Hr Hd. unfold wait_needed.
  cbn [refill_at available refill_rate].
  assert (Hp : 0 <= d * refill_rate b) by (apply Qmult_le_0_compat; lra).
  assert (E : (t + d - last_update b) * refill_rate b ==
              (t - last_update b) * refill_rate b + d * refill_rate b) by ring.
  set (p := (t - last_update b) * refill_rate b) in *.
  set (q := d * refill_rate b) in *.
  set (p' := (t + d - last_update b) * refill_rate b) in *.
  set (a0 := Qmin (max_tokens b) (available b + p)).
  set (a1 := Qmin (max_tokens b) (available b + p')).
  assert (H01 : a0 <= a1 /\ a1 <= a0 + q).
  { unfold a0, a1.
    destruct (Q.min_spec (max_tokens b) (available b + p)) as [[H1 E1]|[H1 E1]];
    destruct (Q.min_spec (max_tokens b) (available b + p')) as [[H2 E2]|[H2 E2]];
      rewrite E1, E2; lra. }
  destruct H01 as [H0 H1].
  destruct (Qltb a0 cost) eqn:L0; destruct (Qltb a1 cost) eqn:L1;
    try apply Qltb_true in L0; try apply Qltb_true in L1;
    try apply Qltb_false in L0; try apply Qltb_false in L1.
  - split.
    + apply (Qmult_le_r _ _ (refill_rate b) Hr).
      rewrite !div_mul_rate by exact Hr. lra.
    + apply (Qmult_le_r _ _ (refill_rate b) Hr).
      rewrite Qmult_plus_distr_l, !div_mul_rate by exact Hr. fold q. lra.
  - split.
    + apply Qlt_le_weak. apply div_pos; lra.
    + apply (Qmult_le_r _ _ (refill_rate b) Hr).
      rewrite Qmult_plus_distr_l, div_mul_rate by exact Hr. fold q. lra.
  - lra.
  - lra.
Qed.

Lemma acquire_token_phase_wait (r k : Q) (w : World) :
  0 < refill_rate (request_bucket (limiter w)) ->
  0 < refill_rate (token_bucket (limiter w)) ->
  let wr := fst (bucket_acquire_spec Req r w) in
  let w1 := snd (bucket_acquire_spec Req r w) in
  0 <= wr /\
  wr = wait_needed (refill_at (now w) (request_bucket (limiter w))) r /\
  fst (bucket_acquire_spec Tok k w1) ==
    wait_needed (refill_at (now w + wr) (token_bucket (limiter w))) k.
Proof.
  intros Hr Ht wr w1.
  destruct (bucket_acquire_spec_cases Req r w Hr) as [_ [_ [Hnn Hnow]]].
  destruct (bucket_acquire_spec_keeps Req r w) as [K _].
  fold wr in Hnn, Hnow. fold w1 in Hnow, K.
  split; [exact Hnn|]. split; [apply (bucket_acquire_spec_wait Req)|].
  pose proof (K Tok ltac:(discriminate)) as Kt. cbn [get_bucket] in Kt.
  rewrite bucket_acquire_spec_wait. cbn [get_bucket]. rewrite Kt.
  apply wait_needed_same.
  - apply refill_at_same; [exact Hnow | apply same_bucket_refl].
  - cbn [refill_at refill_rate]. lra.
Qed.

(** X3.  The preview and the wait it previews.  For a limiter with
    positive rates, in one and the same state, the value [get_wait_time]
    returns (the larger of the two per-bucket waits) is never more than
    the wait [acquire] then makes, and that wait is never more than the
    sum of the two per-bucket waits; the preview is 0 exactly when
    [acquire] does not wait. *)
Theorem preview_bounds_acquire_wait (r k : Q) (w : World) :
  0 < refill_rate (request_bucket (limiter w)) ->
  0 < refill_rate (token_bucket (limiter w)) ->
  exists preview w1 waited w2,
    get_wait_time r k w = Ok (preview, w1) /\
    acquire r k w = Ok (waited, w2) /\
    preview <= waited /\
    waited <=
      wait_needed (refill_at (now w) (request_bucket (limiter w))) r +
      wait_needed (refill_at (now w) (token_bucket (limiter w))) k /\
    (preview == 0 <-> waited == 0).
Proof.
  intros Hr Ht.
  destruct (acquire_token_phase_wait r k w Hr Ht) as [Hnn [Ewr Ewt]].
  pose proof (acquire_run r k w Hr Ht) as Hrun.
  unfold acquire_spec in Hrun.
  destruct (bucket_acquire_spec Req r w) as [wr wa]. cbn [fst snd] in *.
  destruct (bucket_acquire_spec Tok k wa) as [wt wb]. cbn [fst snd] in *.
  destruct (wait_needed_after_delay (token_bucket (limiter w)) (now w) wr k Ht Hnn)
    as [D1 D2].
  pose proof (wait_needed_nonneg
                (refill_at (now w + wr) (token_bucket (limiter w))) k Ht) as Hwt.
  set (pt := wait_needed (refill_at (now w) (token_bucket (limiter w))) k) in *.
  set (pt' := wait_needed (refill_at (now w + wr) (token_bucket (limiter w))) k) in *.
  eexists _, _, _, _.
  split; [apply get_wait_time_run; assumption|].
  split; [exact Hrun|].
  rewrite <- Ewr. fold pt.
  assert (Hmax : Qmax wr pt <= 0 + wr + wt /\ (Qmax wr pt == 0 <-> 0 + wr + wt == 0)).
  { rewrite Ewt.
    destruct (Q.max_spec wr pt) as [[H1 E1]|[H1 E1]]; rewrite E1;
      split; try split; intros; lra. }
  destruct Hmax as [M1 M2].
  split; [exact M1|]. split; [rewrite Ewt; lra | exact M2].
Qed.

Lemma preview_bounds_acquire_wait_witness :
  exists preview w1 waited w2,
    get_wait_time 3 130 scenario_world = Ok (preview, w1) /\
    acquire 3 130 scenario_world = Ok (waited, w2) /\
    preview <= waited.
Proof.
  destruct (preview_bounds_acquire_wait 3 130 scenario_world)
    as [p [w1 [a [w2 [H1 [H2 [H3 _]]]]]]].
  - reflexivity.
  - reflexivity.
  - exists p, w1, a, w2. repeat split; assumption.
Defined.

Lemma Qmax_same (a a' b b' : Q) :
  a == a' -> b == b' -> Qmax a b == Qmax a' b'.
Proof.
  intros Ea Eb.
  destruct (Q.max_spec a b) as [[H1 E1]|[H1 E1]];
  destruct (Q.max_spec a' b') as [[H2 E2]|[H2 E2]]; rewrite E1, E2; lra.
Qed.

Lemma refill_after_earlier_refill (b bA : RateLimitState) (t0 t t' : Q) :
  same_bucket bA (refill_at t0 b) -> t0 <= t -> t == t' ->
  0 <= refill_rate b ->
  same_bucket (refill_at t bA) (refill_at t' b).
Proof.
  intros HA Ht0 Et Hr.
  apply (same_bucket_trans _ (refill_at t (refill_at t0 b))).
  - apply refill_at_same; [reflexivity | exact HA].
  - apply (same_bucket_trans _ (refill_at t b)).
    + apply refill_at_twice; assumption.
    + apply refill_at_same; [exact Et | apply same_bucket_refl].
Qed.

(** One bucket's part of [acquire] from two states that agree on the
    clock and on the bucket's numbers once it is refilled. *)
Lemma bucket_acquire_spec_same (s : Which) (cost : Q) (w w' : World) :
  now w == now w' ->
  same_bucket (refill_at (now w) (get_bucket s (limiter w)))
              (refill_at (now w') (get_bucket s (limiter w'))) ->
  0 < refill_rate (get_bucket s (limiter w)) ->
  fst (bucket_acquire_spec s cost w) == fst (bucket_acquire_spec s cost w') /\
  now (snd (bucket_acquire_spec s cost w)) ==
    now (snd (bucket_acquire_spec s cost w')) /\
  same_bucket (get_bucket s (limiter (snd (bucket_acquire_spec s cost w))))
              (get_bucket s (limiter (snd (bucket_acquire_spec s cost w')))).
Proof.
  intros En Hb Hr. unfold bucket_acquire_spec.
  set (b1 := refill_at (now w) (get_bucket s (limiter w))) in *.
  set (b1' := refill_at (now w') (get_bucket s (limiter w'))) in *.
  pose proof Hb as [A [B [C D]]].
  rewrite (Qgeb_same (available b1) (available b1') cost cost A (Qeq_refl cost)).
  destruct (Qgeb (available b1') cost); cbn [fst snd now limiter];
    rewrite !get_put_same.
  - split; [reflexivity|]. split; [exact En|].
    unfold same_bucket. cbn [set_available available max_tokens refill_rate last_update].
    repeat split; try assumption. rewrite A. reflexivity.
  - assert (Hr1 : ~ refill_rate b1 == 0) by (cbn [b1 refill_at refill_rate]; lra).
    assert (Hr1' : ~ refill_rate b1' == 0) by (rewrite <- C; exact Hr1).
    assert (Ew : (cost - available b1) / refill_rate b1 ==
                 (cost - available b1') / refill_rate b1')
      by (rewrite A, C; reflexivity).
    split; [exact Ew|]. split; [rewrite En, Ew; reflexivity|].
    assert (H2 : same_bucket
                   (refill_at (now w + (cost - available b1) / refill_rate b1) b1)
                   (refill_at (now w' + (cost - available b1') / refill_rate b1') b1')).
    { apply refill_at_same; [rewrite En, Ew; reflexivity | exact Hb]. }
    destruct H2 as [A2 [B2 [C2 D2]]].
    unfold same_bucket.
    cbn [set_available available max_tokens refill_rate last_update] in *.
    repeat split; try assumption. rewrite A2. reflexivity.
Qed.

(** X4.  A preview leaves no trace in what follows.  From a limiter with
    positive rates, an [acquire] made [d >= 0] seconds after a
    [get_wait_time] (with any costs) returns the same wait and leaves the
    same bucket numbers and clock as the same [acquire] made [d] seconds
    after no preview at all. *)
Theorem preview_does_not_change_later_acquire (r k r' k' d : Q) (w : World) :
  0 < refill_rate (request_bucket (limiter w)) ->
  0 < refill_rate (token_bucket (limiter w)) ->
  0 <= d ->
  exists preview wp waitA wA waitB wB,
    get_wait_time r' k' w = Ok (preview, wp) /\
    acquire r k (mkWorld (now wp + d) (limiter wp)) = Ok (waitA, wA) /\
    acquire r k (mkWorld (now w + d) (limiter w)) = Ok (waitB, wB) /\
    waitA == waitB /\ same_world wA wB.
Proof.
  intros Hr Ht Hd.
  pose proof (get_wait_time_run r' k' w Hr Ht) as Hp. cbn zeta in Hp.
  set (rb := request_bucket (limiter w)) in *.
  set (tb := token_bucket (limiter w)) in *.
  set (wA0 := mkWorld (now w + d) (mkLimiter (refill_at (now w) rb) (refill_at (now w) tb))).
  set (wB0 := mkWorld (now w + d) (limiter w)).
  pose proof (acquire_run r k wA0 Hr Ht) as HA.
  pose proof (acquire_run r k wB0 Hr Ht) as HB.
  (* request phase *)
  destruct (bucket_acquire_spec_same Req r wA0 wB0) as [R1 [R2 R3]].
  { reflexivity. }
  { cbn [wA0 wB0 now limiter get_bucket request_bucket]. fold rb.
    apply (refill_after_earlier_refill rb _ (now w));
      [apply same_bucket_refl | lra | reflexivity | lra]. }
  { exact Hr. }
  destruct (bucket_acquire_spec_keeps Req r wA0) as [KA _].
  destruct (bucket_acquire_spec_keeps Req r wB0) as [KB _].
  pose proof (KA Tok ltac:(discriminate)) as KAt.
  pose proof (KB Tok ltac:(discriminate)) as KBt.
  destruct (bucket_acquire_spec_cases Req r wB0 Hr) as [_ [_ [Wnn Wnow]]].
  unfold acquire_spec in HA, HB.
  destruct (bucket_acquire_spec Req r wA0) as [wrA wa] eqn:EA.
  destruct (bucket_acquire_spec Req r wB0) as [wrB wb] eqn:EB.
  cbn [fst snd get_bucket] in *.
  cbn [wA0 wB0 limiter token_bucket now] in KAt, KBt, Wnow. fold tb in KAt, KBt.
  (* token phase *)
  assert (Hta : 0 < refill_rate (get_bucket Tok (limiter wa)))
    by (cbn [get_bucket]; rewrite KAt; exact Ht).
  assert (Htb : 0 < refill_rate (get_bucket Tok (limiter wb)))
    by (cbn [get_bucket]; rewrite KBt; exact Ht).
  destruct (bucket_acquire_spec_same Tok k wa wb) as [T1 [T2 T3]].
  { exact R2. }
  { cbn [get_bucket]. rewrite KAt, KBt.
    apply (refill_after_earlier_refill tb _ (now w));
      [apply same_bucket_refl | rewrite R2, Wnow; lra | exact R2
      | apply Qlt_le_weak; exact Ht]. }
  { exact Hta. }
  destruct (bucket_acquire_spec_keeps Tok k wa) as [KA2 _].
  destruct (bucket_acquire_spec_keeps Tok k wb) as [KB2 _].
  pose proof (KA2 Req ltac:(discriminate)) as KAr.
  pose proof (KB2 Req ltac:(discriminate)) as KBr.
  destruct (bucket_acquire_spec Tok k wa) as [wtA wa2].
  destruct (bucket_acquire_spec Tok k wb) as [wtB wb2].
  cbn [fst snd get_bucket] in *.
  eexists _, _, _, wa2, _, wb2.
  split; [exact Hp|]. split; [exact HA|]. split; [exact HB|].
  split; [rewrite R1, T1; reflexivity|].
  unfold same_world. split; [exact T2|]. split; [|exact T3].
  rewrite KAr, KBr. exact R3.
Qed.

Lemma preview_does_not_change_later_acquire_witness :
  exists preview wp waitA wA waitB wB,
    get_wait_time 1 50 scenario_world = Ok (preview, wp) /\
    acquire 3 130 (mkWorld (now wp + 1) (limiter wp)) = Ok (waitA, wA) /\
    acquire 3 130 (mkWorld (now scenario_world + 1) (limiter scenario_world))
      = Ok (waitB, wB) /\
    waitA == waitB.
Proof.
  destruct (preview_does_not_change_later_acquire 3 130 1 50 1 scenario_world)
    as [p [wp [a [wA [b [wB [H1 [H2 [H3 [H4 _]]]]]]]]]].
  - reflexivity.
  - reflexivity.
  - discriminate.
  - exists p, wp, a, wA, b, wB. repeat split; assumption.
Defined.

(** X5.  Asking twice gives the same answer: a second [get_wait_time]
    with the same costs, made with no time in between, returns the same
    number as the first and leaves the bucket numbers as the first left
    them. *)
Theorem get_wait_time_twice_same (r k : Q) (w : World) :
  0 < refill_rate (request_bucket (limiter w)) ->
  0 < refill_rate (token_bucket (limiter w)) ->
  exists v1 w1 v2 w2,
    get_wait_time r k w = Ok (v1, w1) /\
    get_wait_time r k w1 = Ok (v2, w2) /\
    v2 == v1 /\ same_world w2 w1.
Proof.
  intros Hr Ht.
  pose proof (get_wait_time_run r k w Hr Ht) as H1. cbn zeta in H1.
  set (rb := request_bucket (limiter w)) in *.
  set (tb := token_bucket (limiter w)) in *.
  set (w1 := mkWorld (now w) (mkLimiter (refill_at (now w) rb) (refill_at (now w) tb))).
  pose proof (get_wait_time_run r k w1 Hr Ht) as H2. cbn zeta in H2.
  cbn [w1 now limiter request_bucket token_bucket] in H2.
  assert (Sr : same_bucket (refill_at (now w) (refill_at (now w) rb))
                           (refill_at (now w) rb))
    by (apply refill_at_twice; [apply Qlt_le_weak; exact Hr | lra]).
  assert (St : same_bucket (refill_at (now w) (refill_at (now w) tb))
                           (refill_at (now w) tb))
    by (apply refill_at_twice; [apply Qlt_le_weak; exact Ht | lra]).
  eexists _, w1, _, _.
  split; [exact H1|]. split; [exact H2|]. split.
  - apply Qmax_same; apply wait_needed_same; try assumption;
      cbn [refill_at refill_rate]; intro E0;
      [rewrite E0 in Hr; discriminate Hr | rewrite E0 in Ht; discriminate Ht].
  - unfold same_world. cbn [now limiter request_bucket token_bucket w1].
    split; [reflexivity|]. split; assumption.
Qed.

Lemma get_wait_time_twice_same_witness :
  exists v1 w1 v2 w2,
    get_wait_time 3 130 (mkWorld 1 scenario_limiter) = Ok (v1, w1) /\
    get_wait_time 3 130 w1 = Ok (v2, w2) /\ v2 == v1.
Proof.
  destruct (get_wait_time_twice_same 3 130 (mkWorld 1 scenario_limiter))
    as [v1 [w1 [v2 [w2 [H1 [H2 [H3 _]]]]]]].
  - reflexivity.
  - reflexivity.
  - exists v1, w1, v2, w2. repeat split; assumption.
Defined.

(** ** What a history can take out of a limiter *)

Lemma debited_app (s : Which) (xs ys : list Op) :
  debited s (xs ++ ys) == debited s xs + debited s ys.
Proof.
  induction xs as [|x xs IH]; cbn [app debited]; [ring|]. rewrite IH. ring.
Qed.

Lemma refunded_app (xs ys : list Op) :
  refunded (xs ++ ys) == refunded xs + refunded ys.
Proof.
  induction xs as [|x xs IH]; cbn [app refunded]; [ring|]. rewrite IH. ring.
Qed.

Lemma refill_at_potential (b : RateLimitState) (t : Q) :
  potential (refill_at t b) <= potential b.
Proof.
  unfold potential. cbn [refill_at available refill_rate last_update].
  pose proof (Q.le_min_r (max_tokens b)
                (available b + (t - last_update b) * refill_rate b)) as H.
  set (m := Qmin _ _) in *.
  assert (E : (t - last_update b) * refill_rate b ==
              refill_rate b * t - refill_rate b * last_update b) by ring.
  rewrite E in H. lra.
Qed.

Lemma bucket_acquire_spec_potential (s : Which) (cost : Q) (w : World) :
  potential (get_bucket s (limiter (snd (bucket_acquire_spec s cost w)))) <=
  potential (get_bucket s (limiter w)) - cost.
Proof.
  unfold bucket_acquire_spec.
  set (b := get_bucket s (limiter w)).
  set (b1 := refill_at (now w) b).
  pose proof (refill_at_potential b (now w)) as P1. fold b1 in P1.
  destruct (Qgeb (available b1) cost); cbn [snd limiter]; rewrite get_put_same.
  - unfold potential in *.
    cbn [set_available available refill_rate last_update] in *. lra.
  - set (t := now w + (cost - available b1) / refill_rate b1).
    pose proof (refill_at_potential b1 t) as P2.
    unfold potential in *.
    cbn [set_available available refill_rate last_update] in *.
    change (refill_rate (refill_at t b1)) with (refill_rate b) in *.
    change (last_update (refill_at t b1)) with t in *.
    change (refill_rate b1) with (refill_rate b) in *.
    change (last_update b1) with (now w) in *.
    lra.
Qed.

(** Induction along a history, for a property of the history so far and
    the state reached. *)
Lemma run_history_induction (R T : Q) (l0 : RateLimiter)
    (P : list Op -> World -> Prop) :
  max_tokens (request_bucket l0) = R -> max_tokens (token_bucket l0) = T ->
  (forall done op w w',
     Inv R T w -> op_ok l0 op -> P done w ->
     run_op op w = Ok (tt, w') -> P (done ++ [op]) w') ->
  forall ops done w,
    Inv R T w -> P done w -> Forall (op_ok l0) ops ->
    exists w', run ops w = Ok (tt, w') /\ Inv R T w' /\ P (done ++ ops) w'.
Proof.
  intros HR HT Hstep. induction ops as [|op rest IH]; intros done w HI HP Hok.
  - exists w. rewrite app_nil_r.
    split; [reflexivity|]. split; [exact HI | exact HP].
  - apply Forall_cons_iff in Hok. destruct Hok as [Hop Hrest].
    destruct (run_op_preserves R T l0 op false w HR HT HI) as [w1 [E1 [I1 _]]].
    { discriminate. } { exact Hop. }
    destruct (IH (done ++ [op]) w1 I1 (Hstep _ _ _ _ HI Hop HP E1) Hrest)
      as [w2 [E2 [I2 P2]]].
    exists w2. split; [|split; [exact I2|]].
    + cbn [run]. unfold bind. rewrite E1. exact E2.
    + rewrite <- app_assoc in P2. exact P2.
Qed.

Lemma acquire_spec_ledger (r k : Q) (w : World) :
  let w2 := snd (acquire_spec r k w) in
  refill_rate (request_bucket (limiter w2)) = refill_rate (request_bucket (limiter w)) /\
  refill_rate (token_bucket (limiter w2)) = refill_rate (token_bucket (limiter w)) /\
  potential (request_bucket (limiter w2)) <= potential (request_bucket (limiter w)) - r /\
  potential (token_bucket (limiter w2)) <= potential (token_bucket (limiter w)) - k.
Proof.
  unfold acquire_spec.
  pose proof (bucket_acquire_spec_potential Req r w) as PR.
  destruct (bucket_acquire_spec_keeps Req r w) as [KR1 [_ [KR3 _]]].
  pose proof (KR1 Tok ltac:(discriminate)) as Etok.
  destruct (bucket_acquire_spec Req r w) as [wr w1].
  pose proof (bucket_acquire_spec_potential Tok k w1) as PT.
  destruct (bucket_acquire_spec_keeps Tok k w1) as [KT1 [_ [KT3 _]]].
  pose proof (KT1 Req ltac:(discriminate)) as Ereq.
  destruct (bucket_acquire_spec Tok k w1) as [wt w2].
  cbn [fst snd get_bucket] in *.
  rewrite Ereq, KT3, Etok. rewrite Etok in PT.
  repeat split; try assumption.
Qed.

Lemma acquire_spec_clock (r k : Q) (w : World) :
  0 < refill_rate (request_bucket (limiter w)) ->
  0 < refill_rate (token_bucket (limiter w)) ->
  now w <= now (snd (acquire_spec r k w)).
Proof.
  intros Hr Ht. unfold acquire_spec.
  destruct (bucket_acquire_spec_cases Req r w Hr) as [_ [_ [N1 N2]]].
  destruct (bucket_acquire_spec_keeps Req r w) as [KR1 _].
  pose proof (KR1 Tok ltac:(discriminate)) as Etok.
  destruct (bucket_acquire_spec Req r w) as [wr w1].
  cbn [fst snd get_bucket] in *.
  assert (Ht1 : 0 < refill_rate (get_bucket Tok (limiter w1)))
    by (cbn [get_bucket]; rewrite Etok; exact Ht).
  destruct (bucket_acquire_spec_cases Tok k w1 Ht1) as [_ [_ [M1 M2]]].
  destruct (bucket_acquire_spec Tok k w1) as [wt w2].
  cbn [fst snd] in *. lra.
Qed.

Lemma ledger_step (t0 rate_req rate_tok R T : Q) (l0 : RateLimiter)
    (done : list Op) (op : Op) (w w' : World) :
  Inv R T w -> op_ok l0 op ->
  Ledger t0 rate_req rate_tok R T done w ->
  run_op op w = Ok (tt, w') ->
  Ledger t0 rate_req rate_tok R T (done ++ [op]) w'.
Proof.
  intros HI Hok [Hn [Er [Et [Lr Lt]]]] Hrun.
  unfold Ledger. rewrite !debited_app, refunded_app.
  cbn [debited refunded].
  destruct op as [d | s | r k | r k | r k | e a]; cbn [run_op cost_of refund_of op_ok] in *.
  - injection Hrun as <-. cbn [limiter now].
    repeat split; try assumption; lra.
  - rewrite refill_run in Hrun. injection Hrun as <-. cbn [limiter now].
    pose proof (refill_at_potential (get_bucket s (limiter w)) (now w)) as Hp.
    destruct s; cbn [put_bucket get_bucket request_bucket token_bucket] in *;
      repeat split; try assumption; lra.
  - unfold bind in Hrun. rewrite acquire_run in Hrun by apply HI.
    injection Hrun as <-.
    destruct (acquire_spec_ledger r k w) as [A [B [C D]]].
    pose proof (acquire_spec_clock r k w (inv_rate_req _ _ _ HI)
                  (inv_rate_tok _ _ _ HI)) as Hc.
    rewrite A, B. repeat split; try assumption; lra.
  - destruct (async_acquire_agrees r k w (inv_rate_req _ _ _ HI)
                (inv_rate_tok _ _ _ HI)) as [wt [wt' [w2 [A1 [A2 _]]]]].
    rewrite acquire_run in A1 by apply HI. injection A1 as _ <-.
    unfold bind in Hrun. rewrite A2 in Hrun. injection Hrun as <-.
    destruct (acquire_spec_ledger r k w) as [A [B [C D]]].
    pose proof (acquire_spec_clock r k w (inv_rate_req _ _ _ HI)
                  (inv_rate_tok _ _ _ HI)) as Hc.
    rewrite A, B. repeat split; try assumption; lra.
  - unfold bind in Hrun. rewrite get_wait_time_run in Hrun by apply HI.
    injection Hrun as <-. cbn [limiter now request_bucket token_bucket].
    pose proof (refill_at_potential (request_bucket (limiter w)) (now w)) as Hp.
    pose proof (refill_at_potential (token_bucket (limiter w)) (now w)) as Hq.
    repeat split; try assumption; lra.
  - injection Hrun as <-. cbn [limiter now]. unfold _refund_tokens.
    destruct (a <? e)%Z;
      cbn [put_bucket request_bucket token_bucket];
      [|repeat split; try assumption; lra].
    unfold potential in *.
    cbn [set_available available refill_rate last_update].
    repeat split; try assumption; lra.
Qed.

(** The state a limiter built with positive parameters starts in, and its
    books. *)
Lemma initial_books (t0 rps tpm : Q) :
  0 < rps -> 0 < tpm ->
  let l0 := mkLimiter (mkState rps rps rps t0) (mkState tpm tpm (tpm / 60) t0) in
  Inv rps tpm (mkWorld t0 l0) /\
  Ledger t0 rps (tpm / 60) rps tpm [] (mkWorld t0 l0).
Proof.
  intros Hrps Htpm l0. split.
  - constructor;
      cbn [l0 now limiter request_bucket token_bucket available max_tokens
           refill_rate last_update]; try reflexivity; try lra.
    apply div_pos; [exact Htpm | reflexivity].
  - unfold Ledger, potential.
    cbn [l0 now limiter request_bucket token_bucket available max_tokens
         refill_rate last_update debited refunded].
    repeat split; lra.
Qed.

(** X6.  The rate limit itself.  For a limiter built at [t0] with
    positive parameters and every history of permitted operations, what
    the acquires of the history have taken from a bucket is at most its
    capacity plus what its rate produces in the time since [t0] (plus, for
    the token bucket, what was refunded): at most [rps * (1 + elapsed)]
    requests, and at most [tpm + tpm / 60 * elapsed] tokens net of
    refunds. *)
Theorem history_takes_at_most_capacity_plus_rate (t0 rps tpm : Q)
    (l0 : RateLimiter) (ops : list Op) :
  0 < rps -> 0 < tpm ->
  RateLimiter_init t0 rps tpm = Ok l0 ->
  Forall (op_ok l0) ops ->
  exists w,
    run ops (mkWorld t0 l0) = Ok (tt, w) /\
    t0 <= now w /\
    debited Req ops <= rps + rps * (now w - t0) /\
    debited Tok ops - refunded ops <= tpm + tpm / 60 * (now w - t0).
Proof.
  intros Hrps Htpm Hinit Hok.
  unfold RateLimiter_init in Hinit. injection Hinit as <-.
  destruct (initial_books t0 rps tpm Hrps Htpm) as [HI HL].
  set (l0 := mkLimiter (mkState rps rps rps t0) (mkState tpm tpm (tpm / 60) t0)) in *.
  destruct (run_history_induction rps tpm l0
              (Ledger t0 rps (tpm / 60) rps tpm) eq_refl eq_refl
              (ledger_step t0 rps (tpm / 60) rps tpm l0)
              ops [] _ HI HL Hok) as [w [Hrun [HI' HL']]].
  cbn [app] in HL'. destruct HL' as [Hn [Er [Et [Lr Lt]]]].
  destruct HI' as [c1 c2 c3 r1 r2 l1 l2 a1 a2 a3].
  unfold potential in Lr, Lt. rewrite Er in Lr. rewrite Et in Lt.
  assert (Hr' : rps * last_update (request_bucket (limiter w)) <= rps * now w)
    by (apply Qmult_le_l; assumption).
  assert (Ht' : tpm / 60 * last_update (token_bucket (limiter w))
                <= tpm / 60 * now w).
  { apply Qmult_le_l; [|assumption]. apply div_pos; [exact Htpm | reflexivity]. }
  exists w. split; [exact Hrun|]. split; [exact Hn|].
  split; lra.
Qed.

Lemma history_takes_at_most_capacity_plus_rate_witness :
  exists w,
    run (in_flight_history ++ [DoRefund 50 10]) (mkWorld 0 scenario_limiter)
      = Ok (tt, w) /\
    debited Req (in_flight_history ++ [DoRefund 50 10]) <= 2 + 2 * (now w - 0).
Proof.
  destruct (history_takes_at_most_capacity_plus_rate 0 2 120 scenario_limiter
              (in_flight_history ++ [DoRefund 50 10]))
    as [w [Hrun [_ [Hreq _]]]].
  - reflexivity.
  - reflexivity.
  - reflexivity.
  - unfold in_flight_history. cbn [app].
    repeat (apply Forall_cons;
            [cbn [op_ok scenario_limiter request_bucket token_bucket max_tokens];
             first [exact I | lra] |]).
    apply Forall_nil.
  - exists w. split; [exact Hrun | exact Hreq].
Defined.

(** ** How long an acquire can wait *)

Lemma wait_needed_at_most (b : RateLimitState) (cost : Q) :
  0 < refill_rate b -> 0 <= available b -> 0 <= cost ->
  wait_needed b cost <= cost / refill_rate b.
Proof.
  intros Hr Ha Hc. unfold wait_needed.
  apply (Qmult_le_r _ _ (refill_rate b) Hr).
  rewrite div_mul_rate by exact Hr.
  destruct (Qltb (available b) cost); [rewrite div_mul_rate by exact Hr|]; lra.
Qed.

(** X7.  An acquire within the capacities waits at most 61 seconds.  In
    any state a limiter built with positive parameters reaches through
    permitted operations, [acquire(r, k)] with [0 <= r <= rps] and
    [0 <= k <= tpm] returns a wait of at most [r / rps + k / (tpm / 60)],
    hence of at most one second for the request bucket plus sixty for the
    token bucket. *)
Theorem acquire_waits_at_most_61_seconds (t0 rps tpm : Q) (l0 : RateLimiter)
    (ops : list Op) (r k : Q) :
  0 < rps -> 0 < tpm ->
  RateLimiter_init t0 rps tpm = Ok l0 ->
  Forall (op_ok l0) ops ->
  0 <= r -> r <= rps -> 0 <= k -> k <= tpm ->
  exists w waited w',
    run ops (mkWorld t0 l0) = Ok (tt, w) /\
    acquire r k w = Ok (waited, w') /\
    waited <= r / rps + k / (tpm / 60) /\
    waited <= 61.
Proof.
  intros Hrps Htpm Hinit Hok Hr0 Hr1 Hk0 Hk1.
  unfold RateLimiter_init in Hinit. injection Hinit as <-.
  destruct (initial_books t0 rps tpm Hrps Htpm) as [HI HL].
  set (l0 := mkLimiter (mkState rps rps rps t0) (mkState tpm tpm (tpm / 60) t0)) in *.
  destruct (run_history_induction rps tpm l0
              (Ledger t0 rps (tpm / 60) rps tpm) eq_refl eq_refl
              (ledger_step t0 rps (tpm / 60) rps tpm l0)
              ops [] _ HI HL Hok) as [w [Hrun [HI' HL']]].
  destruct HL' as [_ [Er [Et _]]].
  destruct HI' as [c1 c2 c3 r1 r2 l1 l2 a1 a2 a3].
  destruct (acquire_token_phase_wait r k w r1 r2) as [Hnn [Ewr Ewt]].
  pose proof (acquire_run r k w r1 r2) as Hacq.
  unfold acquire_spec in Hacq.
  destruct (bucket_acquire_spec Req r w) as [wr wa]. cbn [fst snd] in *.
  destruct (bucket_acquire_spec Tok k wa) as [wt wb]. cbn [fst snd] in *.
  assert (Hrate_tok : 0 < tpm / 60) by (apply div_pos; [exact Htpm | reflexivity]).
  assert (Br : wr <= r / rps).
  { rewrite Ewr. rewrite <- Er.
    apply (wait_needed_at_most (refill_at (now w) (request_bucket (limiter w))));
      [exact r1 | | exact Hr0].
    apply refill_at_nonneg; [exact l1 | lra | exact a1 | rewrite c1; lra]. }
  assert (Bt : wt <= k / (tpm / 60)).
  { rewrite Ewt. rewrite <- Et.
    apply (wait_needed_at_most (refill_at (now w + wr) (token_bucket (limiter w))));
      [exact r2 | | exact Hk0].
    apply refill_at_nonneg; [lra | lra | exact a3 | rewrite c2; exact c3]. }
  assert (Cr : r / rps <= 1).
  { apply (Qmult_le_r _ _ rps Hrps). rewrite div_mul_rate by exact Hrps. lra. }
  assert (Ct : k / (tpm / 60) <= 60).
  { apply (Qmult_le_r _ _ (tpm / 60) Hrate_tok).
    rewrite div_mul_rate by exact Hrate_tok.
    assert (E : 60 * (tpm / 60) == tpm) by (field; discriminate).
    rewrite E. exact Hk1. }
  exists w, (0 + wr + wt), wb.
  split; [exact Hrun|]. split; [exact Hacq|]. split; lra.
Qed.

Lemma acquire_waits_at_most_61_seconds_witness :
  exists w waited w',
    run [DoAcquire 2 120] (mkWorld 0 scenario_limiter) = Ok (tt, w) /\
    acquire 2 120 w = Ok (waited, w') /\
    waited <= 61.
Proof.
  destruct (acquire_waits_at_most_61_seconds 0 2 120 scenario_limiter
              [DoAcquire 2 120] 2 120)
    as [w [waited [w' [H1 [H2 [_ H3]]]]]]; try reflexivity; try discriminate.
  - apply Forall_cons; [|apply Forall_nil].
    cbn [op_ok scenario_limiter request_bucket token_bucket max_tokens]. lra.
  - exists w, waited, w'. repeat split; assumption.
Defined.

(** ** The two flavours *)

(** X8.  The suspending limiter does what the blocking one does: from
    the same state with positive rates, [AsyncRateLimiter.acquire]
    returns, returns the same wait as [RateLimiter.acquire], and leaves
    the very same state. *)
Theorem suspending_acquire_matches_blocking (r k : Q) (w : World) :
  0 < refill_rate (request_bucket (limiter w)) ->
  0 < refill_rate (token_bucket (limiter w)) ->
  exists wait wait' w',
    acquire r k w = Ok (wait, w') /\
    AsyncRateLimiter_acquire r k w = Ok (wait', w') /\
    wait' == wait /\ 0 <= wait'.
Proof.
  intros Hr Ht.
  destruct (async_acquire_agrees r k w Hr Ht) as [wait [wait' [w' [A [B E]]]]].
  exists wait, wait', w'. split; [exact A|]. split; [exact B|].
  split; [exact E|].
  rewrite E. rewrite acquire_run in A by assumption. injection A as <- _.
  destruct (acquire_token_phase_wait r k w Hr Ht) as [Hnn [_ Ewt]].
  unfold acquire_spec.
  destruct (bucket_acquire_spec Req r w) as [wr wa]. cbn [fst snd] in *.
  destruct (bucket_acquire_spec Tok k wa) as [wt wb]. cbn [fst snd] in *.
  rewrite Ewt.
  pose proof (wait_needed_nonneg
                (refill_at (now w + wr) (token_bucket (limiter w))) k Ht).
  lra.
Qed.

Lemma suspending_acquire_matches_blocking_witness :
  exists wait wait' w',
    acquire 3 130 scenario_world = Ok (wait, w') /\
    AsyncRateLimiter_acquire 3 130 scenario_world = Ok (wait', w') /\
    wait' == wait.
Proof.
  destruct (suspending_acquire_matches_blocking 3 130 scenario_world)
    as [a [b [w' [H1 [H2 [H3 _]]]]]]; try reflexivity.
  exists a, b, w'. repeat split; assumption.
Defined.

(** ** Limiters built around the configuration check *)

Lemma py_div_zero (a b : Q) : b == 0 -> py_div a b = Raise ZeroDivisionError.
Proof.
  intro H. unfold py_div. apply Qeq_bool_iff in H. rewrite H. reflexivity.
Qed.

Lemma acquire_bucket_zero_rate (s : Which) (tokens : Q) (w : World) :
  refill_rate (get_bucket s (limiter w)) == 0 ->
  available (refill_at (now w) (get_bucket s (limiter w))) < tokens ->
  _acquire_bucket s tokens w = Raise ZeroDivisionError.
Proof.
  intros Hz Hlt. unfold _acquire_bucket, bind at 1.
  rewrite refill_run. unfold bind at 1, read at 1.
  cbn [limiter now]. rewrite get_put_same.
  apply Qgeb_false in Hlt. rewrite Hlt.
  unfold bind, lift. rewrite py_div_zero; [reflexivity|].
  cbn [refill_at refill_rate]. exact Hz.
Qed.

(** X9.  A limiter built directly with [requests_per_second = 0] (the
    constructors accept it) cannot admit a request: in every state of the
    clock, [acquire] of either flavour and [get_wait_time] with a positive
    request cost raise [ZeroDivisionError]; none of them returns or
    waits. *)
Theorem zero_rate_limiter_raises (t0 t tpm r k : Q) (l0 : RateLimiter) :
  RateLimiter_init t0 0 tpm = Ok l0 ->
  0 < r ->
  acquire r k (mkWorld t l0) = Raise ZeroDivisionError /\
  AsyncRateLimiter_acquire r k (mkWorld t l0) = Raise ZeroDivisionError /\
  get_wait_time r k (mkWorld t l0) = Raise ZeroDivisionError.
Proof.
  intros Hinit Hr. unfold RateLimiter_init in Hinit. injection Hinit as <-.
  set (rb := mkState 0 0 0 t0).
  set (tb := mkState tpm tpm (tpm / 60) t0).
  assert (Hlt : available (refill_at t rb) < r).
  { pose proof (refill_at_le_capacity rb t) as H. cbn [rb max_tokens] in H.
    fold rb in H. lra. }
  assert (Hge : Qgeb (available (refill_at t rb)) r = false)
    by (apply Qgeb_false; exact Hlt).
  assert (Hl : Qltb (available (refill_at t rb)) r = true)
    by (apply Qltb_true; exact Hlt).
  split; [|split].
  - unfold acquire, _acquire_request, bind at 1.
    rewrite acquire_bucket_zero_rate; [reflexivity | reflexivity | exact Hlt].
  - unfold AsyncRateLimiter_acquire, bind at 1. rewrite refill_run.
    unfold bind at 1, read at 1.
    cbn [limiter now get_bucket put_bucket request_bucket token_bucket].
    fold rb. unfold bind at 1. rewrite Hge.
    unfold bind at 1, lift. rewrite py_div_zero; reflexivity.
  - unfold get_wait_time, bind at 1. rewrite refill_run.
    unfold bind at 1. rewrite refill_run.
    unfold bind at 1, read at 1.
    cbn [limiter now get_bucket put_bucket request_bucket token_bucket].
    fold rb. unfold bind at 1. rewrite Hl.
    unfold lift. rewrite py_div_zero; reflexivity.
Qed.

Lemma zero_rate_limiter_raises_witness :
  acquire 1 0 (mkWorld 5 (mkLimiter (mkState 0 0 0 0) (mkState 120 120 (120 / 60) 0)))
  = Raise ZeroDivisionError.
Proof.
  apply (zero_rate_limiter_raises 0 5 120 1 0).
  - reflexivity.
  - reflexivity.
Defined.

Lemma acquire_bucket_run_nonzero (s : Which) (tokens : Q) (w : World) :
  ~ refill_rate (get_bucket s (limiter w)) == 0 ->
  let b1 := refill_at (now w) (get_bucket s (limiter w)) in
  _acquire_bucket s tokens w =
  if Qgeb (available b1) tokens then
    Ok (0, mkWorld (now w)
             (put_bucket s (set_available b1 (available b1 - tokens))
                         (limiter w)))
  else
    Ok ((tokens - available b1) / refill_rate b1,
        mkWorld (now w) (put_bucket s b1 (limiter w))).
Proof.
  intros Hr b1. unfold _acquire_bucket, bind at 1.
  rewrite refill_run. unfold bind at 1, read at 1.
  cbn [limiter now]. rewrite get_put_same. fold b1.
  destruct (Qgeb (available b1) tokens) eqn:E.
  - unfold bind. rewrite debit_run. cbn [limiter now ret].
    rewrite get_put_same, put_put_same. reflexivity.
  - unfold bind, lift. rewrite py_div_ok; [reflexivity|]. exact Hr.
Qed.

(** X10.  A blocking limiter whose request bucket has a negative rate
    (built directly with a negative [requests_per_second]) does not limit
    requests: when the refilled balance is below the request cost,
    [acquire] computes a negative wait for the request bucket, neither
    sleeps nor debits that bucket, goes on to the token bucket as usual,
    and returns the token wait lowered by that negative amount. *)
Theorem negative_rate_skips_request_debit (r k : Q) (w : World) :
  refill_rate (request_bucket (limiter w)) < 0 ->
  0 < refill_rate (token_bucket (limiter w)) ->
  let rb1 := refill_at (now w) (request_bucket (limiter w)) in
  let w1 := mkWorld (now w) (mkLimiter rb1 (token_bucket (limiter w))) in
  available rb1 < r ->
  exists wait_request,
    wait_request = (r - available rb1) / refill_rate rb1 /\
    wait_request < 0 /\
    acquire r k w =
      Ok (0 + wait_request + fst (bucket_acquire_spec Tok k w1),
          snd (bucket_acquire_spec Tok k w1)) /\
    request_bucket (limiter (snd (bucket_acquire_spec Tok k w1))) = rb1 /\
    0 <= fst (bucket_acquire_spec Tok k w1).
Proof.
  intros Hr Ht rb1 w1 Hlt.
  set (wr := (r - available rb1) / refill_rate rb1).
  assert (Hneg : wr < 0).
  { apply (Qmult_lt_r _ _ (- refill_rate rb1)).
    - cbn [rb1 refill_at refill_rate]. lra.
    - assert (E : wr * - refill_rate rb1 == - (r - available rb1)).
      { unfold wr. field. cbn [rb1 refill_at refill_rate]. lra. }
      rewrite E. lra. }
  exists wr. split; [reflexivity|]. split; [exact Hneg|].
  destruct (bucket_acquire_spec_keeps Tok k w1) as [K _].
  destruct (bucket_acquire_spec_cases Tok k w1 Ht) as [_ [_ [Hnn _]]].
  split; [|split; [exact (K Req ltac:(discriminate)) | exact Hnn]].
  unfold acquire, _acquire_request. unfold bind at 1.
  rewrite acquire_bucket_run_nonzero by (cbn [get_bucket]; lra).
  cbn [get_bucket put_bucket]. fold rb1.
  apply Qgeb_false in Hlt. rewrite Hlt. fold wr. fold w1.
  assert (G : Qgtb wr 0 = false).
  { unfold Qgtb. apply negb_false_iff. apply Qle_bool_iff. lra. }
  unfold bind at 1. rewrite G. unfold ret at 1.
  unfold _acquire_token.
  exact (acquire_phase Tok k (fun wait => ret (0 + wr + wait)) w1 Ht).
Qed.

Lemma negative_rate_skips_request_debit_witness :
  exists waited w',
    acquire 1 0 (mkWorld 0 (mkLimiter (mkState (-1) (-1) (-1) 0)
                                      (mkState 120 120 (120 / 60) 0)))
    = Ok (waited, w') /\
    waited < 0 /\
    available (request_bucket (limiter w')) == -1.
Proof.
  destruct (negative_rate_skips_request_debit 1 0
              (mkWorld 0 (mkLimiter (mkState (-1) (-1) (-1) 0)
                                    (mkState 120 120 (120 / 60) 0))))
    as [wr [Ewr [_ [Hrun [Hrb _]]]]].
  - reflexivity.
  - reflexivity.
  - reflexivity.
  - eexists. eexists. split; [exact Hrun|]. split.
    + rewrite Ewr. reflexivity.
    + rewrite Hrb. reflexivity.
Defined.

(** ** The estimator, on every input *)

Lemma count_content_items_result (tc : TokenCounter) (items : list pyval) :
  forall total,
    match count_content_items tc items total with
    | Ok n => (total <= n)%Z
    | Raise e => e = AttributeError "encodeordinary"
    end.
Proof.
  induction items as [|item rest IH]; intro total; cbn [count_content_items].
  - lia.
  - destruct item as [| | | | |d]; try apply IH.
    destruct (get_eq_str (dict_get d "type") "text"); [reflexivity|].
    destruct (get_eq_str (dict_get d "type") "image_url"); [|apply IH].
    specialize (IH (total + 85)%Z).
    destruct (count_content_items tc rest (total + 85)); [lia | exact IH].
Qed.

Lemma count_messages_loop_result (tc : TokenCounter) (messages : list pyval) :
  forall total,
    match count_messages_loop tc messages total with
    | Ok n => (total <= n)%Z
    | Raise e => e = AttributeError "encodeordinary" \/ e = AttributeError "get"
    end.
Proof.
  induction messages as [|m rest IH]; intro total; cbn [count_messages_loop].
  - lia.
  - destruct m as [| | | | |d]; try (right; reflexivity).
    destruct (dict_get_default d "content" (PStr "")) as [| | |c|items|];
      try apply IH.
    + set (t' := (total + len (encode_ordinary (_encoding tc) c) +
                  (if truthy (dict_get d "name") then 1 else 0))%Z).
      assert (Ht : (total <= t')%Z).
      { unfold t'. pose proof (len_nonneg (encode_ordinary (_encoding tc) c)).
        destruct (truthy (dict_get d "name")); lia. }
      specialize (IH t').
      destruct (count_messages_loop tc rest t'); [lia | exact IH].
    + pose proof (count_content_items_result tc items total) as Hc.
      destruct (count_content_items tc items total) as [t'|e]; [|left; exact Hc].
      specialize (IH t').
      destruct (count_messages_loop tc rest t'); [lia | exact IH].
Qed.

Lemma count_messages_result (tc : TokenCounter) (messages : list pyval) :
  match count_messages tc messages with
  | Ok n => (0 <= n)%Z
  | Raise e => e = AttributeError "encodeordinary" \/ e = AttributeError "get"
  end.
Proof.
  unfold count_messages. destruct messages as [|m rest]; [lia|].
  pose proof (count_messages_loop_result tc (m :: rest) (4 * len (m :: rest))%Z) as H.
  destruct (count_messages_loop tc (m :: rest) (4 * len (m :: rest))); [|exact H].
  pose proof (len_nonneg (m :: rest)). lia.
Qed.

Lemma estimate_tokens_result (tc : TokenCounter)
    (inputs : pyval) :
  match _estimate_tokens tc inputs with
  | Ok n =>
      (0 <= n)%Z /\ estimated_for tc inputs = Ok (n + 100)%Z
  | Raise e =>
      estimated_for tc inputs = Raise e /\
      ((exists d rest,
          inputs = PList (PDict d :: rest) /\
          dict_contains d "content" = true /\
          (e = AttributeError "encodeordinary" \/ e = AttributeError "get")) \/
       ((forall d rest,
           inputs = PList (PDict d :: rest) ->
           dict_contains d "content" = false) /\
        exists text, encode (_encoding tc) text = Raise e))
  end.
Proof.
  assert (Hgen : forall r : Result Z,
            match r with
            | Ok n => (0 <= n)%Z
            | Raise e => exists text, encode (_encoding tc) text = Raise e
            end ->
            (forall d rest,
               inputs = PList (PDict d :: rest) ->
               dict_contains d "content" = false) ->
            match r with
            | Ok n =>
                (0 <= n)%Z /\
                match r with
                | Raise e => Raise e
                | Ok n => Ok (n + 100)%Z
                end = Ok (n + 100)%Z
            | Raise e =>
                match r with
                | Raise e => Raise e
                | Ok n => Ok (n + 100)%Z
                end = Raise e /\
                ((exists d rest,
                    inputs = PList (PDict d :: rest) /\
                    dict_contains d "content" = true /\
                    (e = AttributeError "encodeordinary" \/
                     e = AttributeError "get")) \/
                 ((forall d rest,
                     inputs = PList (PDict d :: rest) ->
                     dict_contains d "content" = false) /\
                  exists text, encode (_encoding tc) text = Raise e))
            end).
  { intros [n|e] Hr Hshape.
    - split; [exact Hr | reflexivity].
    - split; [reflexivity|]. right. split; [exact Hshape | exact Hr]. }
  assert (Htext : forall s,
            match count_text tc s with
            | Ok n => (0 <= n)%Z
            | Raise e => exists text, encode (_encoding tc) text = Raise e
            end).
  { intro s. pose proof (count_text_result tc s) as Hc.
    destruct (count_text tc s) as [n|e]; [exact Hc | exists s; exact Hc]. }
  assert (Hitems : forall items,
            match estimate_items tc items 0 with
            | Ok n => (0 <= n)%Z
            | Raise e => exists text, encode (_encoding tc) text = Raise e
            end).
  { intro items. exact (estimate_items_result tc items 0). }
  pose (by_items := fun items : list pyval =>
          Hgen (estimate_items tc items 0) (Hitems items)).
  unfold estimated_for.
  destruct inputs as [| b | z | s | items | d]; cbn [_estimate_tokens].
  - split; [lia | reflexivity].
  - split; [lia | reflexivity].
  - split; [lia | reflexivity].
  - apply (Hgen (count_text tc s) (Htext s)). intros d rest H. discriminate.
  - destruct items as [|first rest];
      [apply (by_items []); intros d rest H; discriminate|].
    destruct first as [| | | | |d];
      try (apply (by_items (_ :: rest)); intros d' rest' H; discriminate).
    destruct (dict_contains d "content") eqn:Ec.
    + pose proof (count_messages_result tc (PDict d :: rest)) as H.
      destruct (count_messages tc (PDict d :: rest)) as [n|e].
      * split; [exact H | reflexivity].
      * split; [reflexivity|]. left.
        exists d, rest. split; [reflexivity|]. split; [exact Ec | exact H].
    + apply (by_items (PDict d :: rest)). intros d' rest' H.
      injection H as <- <-. exact Ec.
  - destruct (dict_get_default d "content" (PStr "")) as [| | |c| |];
      try (split; [lia | reflexivity]).
    apply (Hgen (count_text tc c) (Htext c)). intros d' rest H. discriminate.
Qed.

Lemma estimated_at_least_100 (tc : TokenCounter) (inputs : pyval) (estimated : Z) :
  estimated_for tc inputs = Ok estimated -> (100 <= estimated)%Z.
Proof.
  intro H. pose proof (estimate_tokens_result tc inputs) as E.
  unfold estimated_for in H.
  destruct (_estimate_tokens tc inputs) as [n|e]; [|discriminate].
  injection H as <-. destruct E as [E _]. lia.
Qed.

(** X11.  The estimator on any input at all.  [_estimate_tokens] either
    returns a non-negative integer, so that the reservation
    [estimate + 100] is at least 100, or raises, and then the reservation
    raises the same error.  It raises in two ways only.  On a list whose
    first element is a dict with a ["content"] key, the one shape it hands
    to [count_messages], it can raise [AttributeError] and nothing else.
    On every other input the error is one that the tokeniser's [encode]
    raised on a text, as tiktoken does on a text with a special token; so
    with a tokeniser whose [encode] returns on every text, the estimator
    returns on every input of these other shapes.  [None], a number and a
    dict without a text content are estimated at 100 whatever the
    tokeniser. *)
Theorem estimate_returns_nonneg_or_raises (tc : TokenCounter)
    (inputs : pyval) :
  (forall n,
     _estimate_tokens tc inputs = Ok n ->
     (0 <= n)%Z /\ estimated_for tc inputs = Ok (n + 100)%Z) /\
  (forall e,
     _estimate_tokens tc inputs = Raise e ->
     estimated_for tc inputs = Raise e /\
     ((exists d rest,
         inputs = PList (PDict d :: rest) /\
         dict_contains d "content" = true /\
         (e = AttributeError "encodeordinary" \/ e = AttributeError "get")) \/
      ((forall d rest,
          inputs = PList (PDict d :: rest) ->
          dict_contains d "content" = false) /\
       exists text, encode (_encoding tc) text = Raise e))) /\
  ((forall text, exists tokens, encode (_encoding tc) text = Ok tokens) ->
   (forall d rest,
      inputs = PList (PDict d :: rest) -> dict_contains d "content" = false) ->
   exists n, _estimate_tokens tc inputs = Ok n /\ (0 <= n)%Z) /\
  (forall estimated,
     estimated_for tc inputs = Ok estimated -> (100 <= estimated)%Z) /\
  (match inputs with
   | PNone | PBool _ | PInt _ => _estimate_tokens tc inputs = Ok 100%Z
   | PDict d =>
       match dict_get_default d "content" (PStr "") with
       | PStr _ => True
       | _ => _estimate_tokens tc inputs = Ok 100%Z
       end
   | _ => True
   end).
Proof.
  pose proof (estimate_tokens_result tc inputs) as H.
  split; [|split; [|split; [|split]]].
  - intros n E. rewrite E in H. exact H.
  - intros e E. rewrite E in H. exact H.
  - intros Henc Hshape.
    destruct (_estimate_tokens tc inputs) as [n|e].
    + exists n. split; [reflexivity | apply H].
    + destruct H as [_ [[d [rest [Ei [Ec _]]]] | [_ [text Et]]]].
      * rewrite (Hshape d rest Ei) in Ec. discriminate.
      * destruct (Henc text) as [tokens E]. rewrite E in Et. discriminate.
  - intros estimated E. unfold estimated_for in E.
    destruct (_estimate_tokens tc inputs) as [n|e]; [|discriminate].
    injection E as <-. destruct H as [H _]. lia.
  - destruct inputs as [| b | z | s | items | d]; try reflexivity; try exact I.
    cbn [_estimate_tokens].
    destruct (dict_get_default d "content" (PStr "")); try reflexivity; exact I.
Qed.

Lemma estimate_returns_nonneg_or_raises_witness :
  estimated_for (mkCounter char_encoding) (PStr "hello") = Ok 105%Z /\
  estimated_for (mkCounter char_encoding) (PStr "a<|endoftext|>b") =
    Raise (ValueError "disallowed special token '<|endoftext|>'").
Proof.
  split.
  - destruct (estimate_returns_nonneg_or_raises
                (mkCounter char_encoding) (PStr "hello")) as [H _].
    destruct (H 5%Z eq_refl) as [_ E]. exact E.
  - destruct (estimate_returns_nonneg_or_raises
                (mkCounter char_encoding) (PStr "a<|endoftext|>b"))
      as [_ [H _]].
    destruct (H (ValueError "disallowed special token '<|endoftext|>'") eq_refl)
      as [E _]. exact E.
Defined.

(** ** A conversation call from estimate to refund *)

Lemma start_run (tc : TokenCounter) (inputs : pyval) (remote : Remote)
    (estimated : Z) (w : World) :
  0 < refill_rate (request_bucket (limiter w)) ->
  0 < refill_rate (token_bucket (limiter w)) ->
  estimated_for tc inputs = Ok estimated ->
  let w1 := snd (acquire_spec 1 (inject_Z estimated) w) in
  start tc inputs remote w =
  match remote with
  | RemoteReturns latency response =>
      Ok (Returned response,
          mkWorld (now w1 + latency)
            (_refund_tokens estimated (_extract_usage response) (limiter w1)))
  | RemoteRaises latency error =>
      Ok (Failed (_handle_error error), mkWorld (now w1 + latency) (limiter w1))
  end.
Proof.
  intros Hr Ht He w1. unfold start. rewrite He. unfold bind.
  rewrite acquire_run by assumption. fold w1.
  destruct remote; reflexivity.
Qed.

Lemma acquire_spec_token_balance (r k : Q) (w : World) :
  request_bucket (limiter (snd (acquire_spec r k w))) =
    request_bucket (limiter (snd (bucket_acquire_spec Req r w))) /\
  available (token_bucket (limiter (snd (acquire_spec r k w)))) =
    balance_at_debit Tok k (snd (bucket_acquire_spec Req r w)) - k.
Proof.
  unfold acquire_spec.
  destruct (bucket_acquire_spec Req r w) as [wr wa]. cbn [snd].
  pose proof (bucket_acquire_spec_debits Tok k wa) as D.
  destruct (bucket_acquire_spec_keeps Tok k wa) as [K _].
  pose proof (K Req ltac:(discriminate)) as Kr.
  destruct (bucket_acquire_spec Tok k wa) as [wt wb].
  cbn [snd get_bucket] in *. split; assumption.
Qed.

(** X12.  What a call that returns is charged.  On a limiter with
    positive rates, a conversation call whose estimate is [e] and whose
    response reports [a] tokens used ends with the token bucket at its
    balance at the debit minus [min(e, a)]: the actual usage when it is
    below the estimate, never more than the estimate, and nothing at all
    when the response carries no usage (it counts as 0).  The request
    bucket stays as [acquire] left it, and the response is returned
    as it came. *)
Theorem returned_call_is_charged_min_of_estimate_and_usage
    (tc : TokenCounter) (inputs : pyval) (latency : Q) (response : Response)
    (estimated : Z) (w : World) :
  0 < refill_rate (request_bucket (limiter w)) ->
  0 < refill_rate (token_bucket (limiter w)) ->
  estimated_for tc inputs = Ok estimated ->
  let wa := snd (bucket_acquire_spec Req 1 w) in
  let balance := balance_at_debit Tok (inject_Z estimated) wa in
  exists w',
    start tc inputs (RemoteReturns latency response) w
      = Ok (Returned response, w') /\
    request_bucket (limiter w') = request_bucket (limiter wa) /\
    available (token_bucket (limiter w')) ==
      balance - inject_Z (Z.min estimated (_extract_usage response)) /\
    (_extract_usage response = 0%Z ->
       available (token_bucket (limiter w')) == balance).
Proof.
  intros Hr Ht He wa balance.
  pose proof (estimated_at_least_100 tc inputs estimated He) as H100.
  eexists. split.
  { rewrite (start_run tc inputs (RemoteReturns latency response) estimated w
               Hr Ht He). reflexivity. }
  cbn [limiter].
  destruct (acquire_spec_token_balance 1 (inject_Z estimated) w) as [Br Bt].
  fold wa in Br, Bt. fold balance in Bt.
  set (w1 := snd (acquire_spec 1 (inject_Z estimated) w)) in *.
  set (actual := _extract_usage response).
  assert (Hav : available (token_bucket
                  (_refund_tokens estimated actual (limiter w1))) ==
                balance - inject_Z (Z.min estimated actual)).
  { unfold _refund_tokens. destruct (actual <? estimated)%Z eqn:E.
    - apply Z.ltb_lt in E.
      cbn [put_bucket token_bucket set_available available].
      rewrite Bt. rewrite Z.min_r by lia.
      unfold Z.sub. rewrite inject_Z_plus, inject_Z_opp. ring.
    - apply Z.ltb_ge in E. rewrite Bt. rewrite Z.min_l by lia. reflexivity. }
  split; [|split; [exact Hav|]].
  - unfold _refund_tokens. destruct (actual <? estimated)%Z; [|exact Br].
    cbn [put_bucket request_bucket]. exact Br.
  - intro H0. rewrite Hav. fold actual in H0. rewrite H0.
    rewrite Z.min_r by lia. change (inject_Z 0) with 0. ring.
Qed.

Lemma returned_call_is_charged_min_of_estimate_and_usage_witness :
  exists w',
    start (mkCounter char_encoding) (PStr "hello")
      (RemoteReturns 2 (ObjResponse (Some (Some 60%Z)))) scenario_world
      = Ok (Returned (ObjResponse (Some (Some 60%Z))), w') /\
    available (token_bucket (limiter w')) == 60.
Proof.
  destruct (returned_call_is_charged_min_of_estimate_and_usage
              (mkCounter char_encoding) (PStr "hello") 2
              (ObjResponse (Some (Some 60%Z))) 105 scenario_world)
    as [w' [Hrun [_ [Hav _]]]]; try reflexivity.
  exists w'. split; [exact Hrun|]. rewrite Hav. reflexivity.
Defined.

(** X13.  What a call that fails is charged.  When the SDK call raises,
    the conversation method raises the error [_handle_error] makes of it
    and refunds nothing: both buckets stay exactly as [acquire] left
    them, the token bucket at its balance at the debit minus the whole
    estimate.  When the estimator itself raises, the method lets that
    error through as it is, whatever the SDK call would have done, and
    nothing else has happened: the limiter and the clock are the ones the
    method was called with. *)
Theorem failed_call_keeps_the_whole_reservation
    (tc : TokenCounter) (inputs : pyval) (latency : Q) (error : string)
    (w : World) :
  0 < refill_rate (request_bucket (limiter w)) ->
  0 < refill_rate (token_bucket (limiter w)) ->
  (forall estimated,
     estimated_for tc inputs = Ok estimated ->
     exists wait w1 w',
       acquire 1 (inject_Z estimated) w = Ok (wait, w1) /\
       start tc inputs (RemoteRaises latency error) w
         = Ok (Failed (_handle_error error), w') /\
       limiter w' = limiter w1 /\
       available (token_bucket (limiter w')) =
         balance_at_debit Tok (inject_Z estimated)
           (snd (bucket_acquire_spec Req 1 w)) - inject_Z estimated) /\
  (forall e remote,
     estimated_for tc inputs = Raise e ->
     start tc inputs remote w = Ok (Propagated e, w)).
Proof.
  intros Hr Ht. split.
  - intros estimated He.
    pose proof (acquire_run 1 (inject_Z estimated) w Hr Ht) as Hacq.
    destruct (acquire_spec_token_balance 1 (inject_Z estimated) w) as [_ Bt].
    eexists _, _, _. split; [exact Hacq|].
    split.
    { rewrite (start_run tc inputs (RemoteRaises latency error) estimated w
                 Hr Ht He). reflexivity. }
    cbn [limiter]. split; [reflexivity | exact Bt].
  - intros e remote He. unfold start. rewrite He. reflexivity.
Qed.

Lemma failed_call_keeps_the_whole_reservation_witness :
  (exists w',
     start (mkCounter char_encoding) (PStr "hello")
       (RemoteRaises 2 "Status 429: too many requests") scenario_world
       = Ok (Failed (RateLimitExceeded
                       "Rate limit exceeded: Status 429: too many requests"
                       None (Some "requests"%string)), w') /\
     available (token_bucket (limiter w')) == 15) /\
  start (mkCounter char_encoding) (PStr "a<|endoftext|>b")
    (RemoteRaises 2 "Status 429: too many requests") scenario_world
    = Ok (Propagated (ValueError "disallowed special token '<|endoftext|>'"),
          scenario_world).
Proof.
  split.
  - destruct (failed_call_keeps_the_whole_reservation
                (mkCounter char_encoding) (PStr "hello") 2
                "Status 429: too many requests" scenario_world)
      as [H _]; try reflexivity.
    destruct (H 105%Z eq_refl) as [wait [w1 [w' [_ [Hrun [_ Hav]]]]]].
    exists w'. split; [exact Hrun|]. rewrite Hav. reflexivity.
  - destruct (failed_call_keeps_the_whole_reservation
                (mkCounter char_encoding) (PStr "a<|endoftext|>b") 2
                "Status 429: too many requests" scenario_world)
      as [_ H]; [reflexivity | reflexivity |].
    apply H. reflexivity.
Defined.

(** ** Errors of the SDK call *)

Lemma lower_append (a b : string) :
  lower (String.append a b) = String.append (lower a) (lower b).
Proof.
  induction a as [|c a IH]; cbn [String.append lower]; [reflexivity|].
  rewrite IH. reflexivity.
Qed.

Lemma prefix_append (m post : string) :
  String.prefix m (String.append m post) = true.
Proof.
  induction m as [|c m IH]; cbn [String.append].
  - destruct post; reflexivity.
  - cbn [String.prefix].
    destruct (Ascii.ascii_dec c c) as [_|N]; [exact IH | contradiction].
Qed.

Lemma contains_append (pre m post : string) :
  contains (String.append pre (String.append m post)) m = true.
Proof.
  induction pre as [|c pre IH].
  - cbn [String.append]. destruct (String.append m post) eqn:E;
      cbn [contains]; rewrite <- ?E, prefix_append; reflexivity.
  - cbn [String.append contains]. rewrite IH. apply orb_true_r.
Qed.

(** X14.  How [_handle_error] tells a rate-limit error.  Whatever the
    letter case and wherever it stands in the error text, a mention of
    ["rate limit"] or of ["429"] makes the error a [RateLimitExceeded];
    its limit type is always ["requests"], it carries no retry delay, and
    its message is ["Rate limit exceeded: "] followed by the error text
    in its original case. *)
Theorem handle_error_finds_rate_limit_in_any_case (pre mid post : string) :
  lower mid = "429"%string \/ lower mid = "rate limit"%string ->
  _handle_error (String.append pre (String.append mid post)) =
  RateLimitExceeded
    (String.append "Rate limit exceeded: "
                   (String.append pre (String.append mid post)))
    None (Some "requests"%string).
Proof.
  intro H. unfold _handle_error.
  rewrite !lower_append.
  destruct H as [H|H]; rewrite H.
  - rewrite contains_append. reflexivity.
  - rewrite (contains_append (lower pre) "rate limit" (lower post)).
    rewrite orb_true_r. reflexivity.
Qed.

Lemma handle_error_finds_rate_limit_in_any_case_witness :
  _handle_error "HTTP 503: Rate Limit reached, slow down" =
  RateLimitExceeded "Rate limit exceeded: HTTP 503: Rate Limit reached, slow down"
                    None (Some "requests"%string).
Proof.
  apply (handle_error_finds_rate_limit_in_any_case
           "HTTP 503: " "Rate Limit" " reached, slow down").
  right. reflexivity.
Defined.

(** ** Keyword arguments *)

Lemma dict_get_filter_absent (kwargs : list (string * pyval)) (key : string) :
  ~ In key (map fst kwargs) -> dict_get (_filter_none kwargs) key = None.
Proof.
  induction kwargs as [|[k v] rest IH]; intro Hn; [reflexivity|].
  cbn [map fst In] in Hn. cbn [_filter_none filter snd].
  assert (Hk : String.eqb k key = false)
    by (apply String.eqb_neq; intro E; apply Hn; left; exact E).
  assert (Hrest : dict_get (_filter_none rest) key = None)
    by (apply IH; intro Hin; apply Hn; right; exact Hin).
  destruct (is_not_None v); [cbn [dict_get]; rewrite Hk|]; exact Hrest.
Qed.

(** X15.  [_filter_none] drops the arguments that are [None] and nothing
    else.  For keyword arguments with distinct names, looking a name up
    after filtering gives what it gave before, except that a [None] is
    now absent; values that are merely false, zero or empty stay.  No
    value of the result is [None], and filtering again changes nothing. *)
Theorem filter_none_drops_exactly_the_nones (kwargs : list (string * pyval)) :
  NoDup (map fst kwargs) ->
  (forall key,
     dict_get (_filter_none kwargs) key =
     match dict_get kwargs key with
     | Some PNone => None
     | other => other
     end) /\
  Forall (fun kv => snd kv <> PNone) (_filter_none kwargs) /\
  _filter_none (_filter_none kwargs) = _filter_none kwargs.
Proof.
  intro Hnd. split; [|split].
  - intro key. induction kwargs as [|[k v] rest IH]; [reflexivity|].
    cbn [map fst] in Hnd. apply NoDup_cons_iff in Hnd. destruct Hnd as [Hk Hrest].
    cbn [_filter_none filter snd dict_get].
    destruct (String.eqb k key) eqn:E.
    + apply String.eqb_eq in E. subst key.
      destruct v; cbn [is_not_None dict_get]; rewrite ?String.eqb_refl;
        try reflexivity.
      apply dict_get_filter_absent. exact Hk.
    + destruct (is_not_None v); [cbn [dict_get]; rewrite E|];
        apply IH; exact Hrest.
  - unfold _filter_none. apply Forall_forall. intros [k v] Hin.
    apply filter_In in Hin. destruct Hin as [_ Hv]. cbn [snd] in *.
    intro Ev. subst v. discriminate.
  - unfold _filter_none. induction kwargs as [|[k v] rest IH]; [reflexivity|].
    cbn [map fst] in Hnd. apply NoDup_cons_iff in Hnd. destruct Hnd as [_ Hrest].
    cbn [filter snd]. destruct (is_not_None v) eqn:E.
    + cbn [filter snd]. rewrite E. f_equal. apply IH. exact Hrest.
    + apply IH. exact Hrest.
Qed.

Lemma filter_none_drops_exactly_the_nones_witness :
  dict_get (_filter_none [("model"%string, PStr "m"); ("store"%string, PBool false);
                          ("tools"%string, PNone)]) "store" = Some (PBool false) /\
  dict_get (_filter_none [("model"%string, PStr "m"); ("store"%string, PBool false);
                          ("tools"%string, PNone)]) "tools" = None.
Proof.
  destruct (filter_none_drops_exactly_the_nones
              [("model"%string, PStr "m"); ("store"%string, PBool false);
               ("tools"%string, PNone)]) as [H _].
  - repeat constructor; cbn; intuition discriminate.
  - split; rewrite H; reflexivity.
Defined.

(** ** The stream wrapper, once more *)

(** X16.  The wrapper is transparent to its consumer.  The events it
    hands on are a prefix of the upstream events, unchanged and in order,
    never more than the consumer pulled.  The iteration ends exhausted
    only when the upstream has nothing left, raised only when the next
    upstream step is that error, and abandoned only after the consumer
    received every event it pulled. *)
Theorem stream_wrapper_hands_events_through (pulls : nat)
    (stream : list StreamItem) (estimated : Z) (l : RateLimiter) :
  exists events ending l' rest,
    _process_stream_response pulls stream estimated l = (events, ending, l') /\
    stream = map Yield events ++ rest /\
    (List.length events <= pulls)%nat /\
    (ending = Exhausted -> rest = []) /\
    (forall e, ending = Raised e -> exists rest', rest = Throw e :: rest') /\
    (ending = Abandoned -> List.length events = pulls).
Proof.
  pose proof (process_stream_folds pulls stream estimated l) as H.
  destruct (_process_stream_response pulls stream estimated l)
    as [[events ending] l'].
  destruct H as [_ [rest [Hs [Hl [H1 [H2 H3]]]]]].
  exists events, ending, l', rest.
  split; [reflexivity|]. split; [symmetry; exact Hs|].
  split; [exact Hl|]. split; [exact H1|]. split; [exact H2 | exact H3].
Qed.

Lemma observe_event_refund (estimated : Z) (event : Event) (l : RateLimiter) :
  request_bucket (observe_event estimated event l) = request_bucket l /\
  available (token_bucket (observe_event estimated event l)) ==
    available (token_bucket l) + inject_Z (event_refund estimated event) /\
  max_tokens (token_bucket (observe_event estimated event l)) =
    max_tokens (token_bucket l) /\
  (0 <= event_refund estimated event)%Z.
Proof.
  unfold observe_event, event_refund.
  destruct (data event) as [d|];
    [|repeat split; try reflexivity; try lia; change (inject_Z 0) with 0; ring].
  destruct (String.eqb (type_ d) "conversation.response.done");
    [|repeat split; try reflexivity; try lia; change (inject_Z 0) with 0; ring].
  unfold _refund_tokens.
  destruct (_extract_usage (body d) <? estimated)%Z eqn:E.
  - apply Z.ltb_lt in E.
    cbn [put_bucket request_bucket token_bucket set_available available max_tokens].
    repeat split; try reflexivity; lia.
  - repeat split; try reflexivity; try lia. change (inject_Z 0) with 0. ring.
Qed.

Lemma fold_observe_refund (estimated : Z) (events : list Event) :
  forall l,
    let l' := fold_left (fun l e => observe_event estimated e l) events l in
    request_bucket l' = request_bucket l /\
    available (token_bucket l') ==
      available (token_bucket l) + inject_Z (stream_refund estimated events) /\
    max_tokens (token_bucket l') = max_tokens (token_bucket l) /\
    (0 <= stream_refund estimated events)%Z.
Proof.
  induction events as [|e rest IH]; intro l; cbn [fold_left stream_refund].
  - repeat split; try reflexivity; try lia. change (inject_Z 0) with 0. ring.
  - destruct (observe_event_refund estimated e l) as [A [B [C D]]].
    destruct (IH (observe_event estimated e l)) as [A' [B' [C' D']]].
    cbn zeta in *.
    split; [rewrite A'; exact A|]. split; [|split; [rewrite C'; exact C | lia]].
    rewrite B', B, inject_Z_plus. ring.
Qed.

(** X17.  The refunds of a stream add up.  Whatever events the consumer
    received, the wrapper leaves the request bucket and the token
    bucket's capacity alone and raises the token bucket's balance by the
    sum, over the received done events, of [estimate - actual] where
    [actual < estimate]; the sum is never negative, so a stream never
    lowers the balance, and each done event counts, also a second one. *)
Theorem stream_refunds_add_up (pulls : nat) (stream : list StreamItem)
    (estimated : Z) (l : RateLimiter) :
  exists events ending l',
    _process_stream_response pulls stream estimated l = (events, ending, l') /\
    request_bucket l' = request_bucket l /\
    max_tokens (token_bucket l') = max_tokens (token_bucket l) /\
    available (token_bucket l') ==
      available (token_bucket l) + inject_Z (stream_refund estimated events) /\
    (0 <= stream_refund estimated events)%Z /\
    available (token_bucket l) <= available (token_bucket l').
Proof.
  pose proof (process_stream_folds pulls stream estimated l) as H.
  destruct (_process_stream_response pulls stream estimated l)
    as [[events ending] l'].
  destruct H as [Hfold _].
  destruct (fold_observe_refund estimated events l) as [A [B [C D]]].
  cbn zeta in *. rewrite <- Hfold in A, B, C.
  exists events, ending, l'.
  split; [reflexivity|]. split; [exact A|]. split; [exact C|].
  split; [exact B|]. split; [exact D|].
  rewrite B.
  assert (0 <= inject_Z (stream_refund estimated events)).
  { change 0 with (inject_Z 0). rewrite <- Zle_Qle. exact D. }
  lra.
Qed.

(** ** Counting messages *)

Lemma count_content_items_shift (tc : TokenCounter) (items : list pyval)
    (c : Z) :
  forall total,
    count_content_items tc items (total + c) =
    match count_content_items tc items total with
    | Ok n => Ok (n + c)%Z
    | Raise e => Raise e
    end.
Proof.
  induction items as [|item rest IH]; intro total; cbn [count_content_items];
    [reflexivity|].
  destruct item as [| | | | |d]; try apply IH.
  destruct (get_eq_str (dict_get d "type") "text"); [reflexivity|].
  destruct (get_eq_str (dict_get d "type") "image_url"); [|apply IH].
  replace (total + c + 85)%Z with (total + 85 + c)%Z by lia. apply IH.
Qed.

Lemma count_messages_loop_shift (tc : TokenCounter) (messages : list pyval)
    (c : Z) :
  forall total,
    count_messages_loop tc messages (total + c) =
    match count_messages_loop tc messages total with
    | Ok n => Ok (n + c)%Z
    | Raise e => Raise e
    end.
Proof.
  induction messages as [|m rest IH]; intro total; cbn [count_messages_loop];
    [reflexivity|].
  destruct m as [| | | | |d]; try reflexivity.
  destruct (dict_get_default d "content" (PStr "")) as [| | |s|items|];
    try apply IH.
  - match goal with
    | |- count_messages_loop tc rest ?a = match count_messages_loop tc rest ?b with _ => _ end =>
        replace a with (b + c)%Z by lia
    end.
    apply IH.
  - rewrite count_content_items_shift.
    destruct (count_content_items tc items total); [apply IH | reflexivity].
Qed.

Lemma count_messages_loop_app (tc : TokenCounter) (xs ys : list pyval) :
  forall total,
    count_messages_loop tc (xs ++ ys) total =
    match count_messages_loop tc xs total with
    | Ok n => count_messages_loop tc ys n
    | Raise e => Raise e
    end.
Proof.
  induction xs as [|m rest IH]; intro total; cbn [app count_messages_loop];
    [reflexivity|].
  destruct m as [| | | | |d]; try reflexivity.
  destruct (dict_get_default d "content" (PStr "")) as [| | |s|items|];
    try apply IH.
  destruct (count_content_items tc items total); [apply IH | reflexivity].
Qed.

Lemma len_app {A} (xs ys : list A) : len (xs ++ ys) = (len xs + len ys)%Z.
Proof. unfold len. rewrite List.length_app. lia. Qed.

(** X18.  Counts of message lists add up.  For two non-empty lists on
    which [count_messages] returns, the count of their concatenation is
    the sum of their counts less the 2 tokens of the assistant prefix,
    which is added once per call and not per message; and if the count
    of the first list raises, so does the count of the concatenation,
    with the same error. *)
Theorem count_messages_of_concatenation (tc : TokenCounter)
    (xs ys : list pyval) :
  xs <> [] -> ys <> [] ->
  (forall nx ny,
     count_messages tc xs = Ok nx -> count_messages tc ys = Ok ny ->
     count_messages tc (xs ++ ys) = Ok (nx + ny - 2)%Z) /\
  (forall e,
     count_messages tc xs = Raise e ->
     count_messages tc (xs ++ ys) = Raise e).
Proof.
  intros Hx Hy.
  destruct xs as [|x xs']; [contradiction|].
  destruct ys as [|y ys']; [contradiction|].
  set (xs := x :: xs') in *. set (ys := y :: ys') in *.
  assert (Hcat : count_messages tc (xs ++ ys) =
                 match count_messages_loop tc (xs ++ ys) (4 * len (xs ++ ys)) with
                 | Ok n => Ok (n + 2)%Z
                 | Raise e => Raise e
                 end) by reflexivity.
  rewrite Hcat. rewrite len_app, count_messages_loop_app.
  replace (4 * (len xs + len ys))%Z with (4 * len xs + 4 * len ys)%Z by lia.
  rewrite count_messages_loop_shift.
  assert (Hxs : count_messages tc xs =
                match count_messages_loop tc xs (4 * len xs) with
                | Ok n => Ok (n + 2)%Z
                | Raise e => Raise e
                end) by reflexivity.
  assert (Hys : count_messages tc ys =
                match count_messages_loop tc ys (4 * len ys) with
                | Ok n => Ok (n + 2)%Z
                | Raise e => Raise e
                end) by reflexivity.
  rewrite Hxs, Hys.
  destruct (count_messages_loop tc xs (4 * len xs)) as [n1|e1].
  - split; [|discriminate].
    intros nx ny E1 E2. injection E1 as <-.
    replace (n1 + 4 * len ys)%Z with (4 * len ys + n1)%Z by lia.
    rewrite count_messages_loop_shift.
    destruct (count_messages_loop tc ys (4 * len ys)) as [n2|e2]; [|discriminate].
    injection E2 as <-. f_equal. lia.
  - split; [discriminate|]. intros e E. injection E as <-. reflexivity.
Qed.

Lemma count_messages_of_concatenation_witness :
  count_messages (mkCounter char_encoding)
    ([PDict [("role"%string, PStr "user"); ("content"%string, PStr "hello")]] ++
     [PDict [("role"%string, PStr "assistant"); ("content"%string, PStr "hi")]])
  = Ok (11 + 8 - 2)%Z.
Proof.
  destruct (count_messages_of_concatenation (mkCounter char_encoding)
              [PDict [("role"%string, PStr "user"); ("content"%string, PStr "hello")]]
              [PDict [("role"%string, PStr "assistant"); ("content"%string, PStr "hi")]])
    as [H _]; try discriminate.
  apply H; reflexivity.
Defined.

(** X19.  What a multimodal content list counts for.  If the list has a
    part of type ["text"], the count raises [AttributeError] (the
    attribute [encodeordinary] does not exist).  If it has none, the
    count returns the running total plus 85 for each part of type
    ["image_url"]; parts of any other type, and parts that are not
    dicts, count for nothing. *)
Theorem content_list_counts_85_per_image_or_raises (tc : TokenCounter)
    (items : list pyval) (total : Z) :
  (existsb is_text_part items = true ->
   count_content_items tc items total = Raise (AttributeError "encodeordinary")) /\
  (existsb is_text_part items = false ->
   count_content_items tc items total = Ok (total + 85 * image_parts items)%Z).
Proof.
  revert total. induction items as [|item rest IH]; intro total.
  - split; [discriminate|]. intros _. cbn. f_equal. lia.
  - cbn [existsb count_content_items].
    destruct item as [| | | | |d]; cbn [is_text_part orb];
      try (destruct (IH total) as [I1 I2]; split; [exact I1|];
           intro H; rewrite (I2 H); reflexivity).
    destruct (get_eq_str (dict_get d "type") "text") eqn:Et; cbn [orb].
    + split; [reflexivity | discriminate].
    + unfold image_parts. cbn [filter is_image_part].
      destruct (get_eq_str (dict_get d "type") "image_url") eqn:Ei.
      * destruct (IH (total + 85)%Z) as [I1 I2]. split; [exact I1|].
        intro H. rewrite (I2 H). f_equal. unfold image_parts, len.
        cbn [List.length]. lia.
      * destruct (IH total) as [I1 I2]. split; [exact I1|].
        intro H. rewrite (I2 H). reflexivity.
Qed.

Lemma content_list_counts_85_per_image_or_raises_witness :
  count_content_items (mkCounter char_encoding)
    [PDict [("type"%string, PStr "image_url")]; PStr "stray";
     PDict [("type"%string, PStr "audio")];
     PDict [("type"%string, PStr "image_url")]] 10 = Ok (10 + 85 * 2)%Z.
Proof.
  apply (content_list_counts_85_per_image_or_raises (mkCounter char_encoding)
           [PDict [("type"%string, PStr "image_url")]; PStr "stray";
            PDict [("type"%string, PStr "audio")];
            PDict [("type"%string, PStr "image_url")]] 10).
  reflexivity.
Defined.

(** ** The response estimate *)

Lemma py_int_quarter (n : Z) : py_int (inject_Z n * (1 # 4)) = (n ÷ 4)%Z.
Proof.
  unfold py_int, Qle_bool, Qceiling, Qopp, Qmult, inject_Z.
  cbn [Qnum Qden]. unfold Qfloor.
  change (Z.pos (1 * 4)) with 4%Z. rewrite !Z.mul_1_r.
  destruct (0 * 4 <=? n)%Z eqn:E.
  - apply Z.leb_le in E. symmetry. apply Z.quot_div_nonneg; lia.
  - apply Z.leb_gt in E.
    rewrite <- (Z.opp_involutive n) at 2.
    rewrite Z.quot_opp_l by lia. f_equal.
    symmetry. apply Z.quot_div_nonneg; lia.
Qed.

(** [binary64_of_int] is the IEEE conversion: checked around the first
    integers a float cannot hold, around ties, on negative counts and at
    the overflow threshold. *)
Lemma binary64_of_int_is_ieee_on_samples :
  forallb (fun n => same_float (binary64_of_int n) (ieee_float_of_int n))
    (consecutive (-300) 600 ++
     consecutive (2 ^ 53 - 300) 600 ++
     consecutive (2 ^ 55 - 300) 600 ++
     consecutive (- 2 ^ 56 - 300) 600 ++
     consecutive (2 ^ 60 - 2000) 4000 ++
     consecutive (2 ^ 1024 - 2 ^ 970 - 3) 6 ++
     [10 ^ 400; - 10 ^ 400; 2 ^ 1023; 2 ^ 1024; 2 ^ 1024 - 1; 3 ^ 500;
      3 ^ 646; 3 ^ 647; 10 ^ 300 + 7])%Z = true.
Proof. vm_compute. reflexivity. Qed.

(** A count that a float holds exactly is converted to itself. *)
Lemma binary64_of_int_exact (n : Z) :
  (Z.abs n <= 2 ^ 53)%Z -> binary64_of_int n = Ok n.
Proof.
  intro H.
  destruct (Z.eq_dec (Z.abs n) (2 ^ 53)) as [E53|N53].
  - assert (Hn : n = (2 ^ 53)%Z \/ n = (- 2 ^ 53)%Z) by lia.
    destruct Hn as [-> | ->]; vm_compute; reflexivity.
  - unfold binary64_of_int. cbv zeta.
    assert (Hs : Z.max 0
                   ((if (Z.abs n =? 0)%Z then 0 else Z.log2 (Z.abs n) + 1) - 53)
                 = 0%Z).
    { destruct (Z.abs n =? 0)%Z eqn:E0; [reflexivity|].
      apply Z.eqb_neq in E0.
      assert (Z.log2 (Z.abs n) < 53)%Z by (apply Z.log2_lt_pow2; lia).
      lia. }
    rewrite Hs. change (0 =? 0)%Z with true. cbv iota.
    rewrite Z.pow_0_r, Z.div_1_r, Z.mul_1_r.
    destruct (2 ^ 1024 <=? Z.abs n)%Z eqn:E.
    + apply Z.leb_le in E. exfalso.
      assert (2 ^ 53 < 2 ^ 1024)%Z by (apply Z.pow_lt_mono_r; lia).
      lia.
    + rewrite Z.mul_comm, Z.abs_sgn. reflexivity.
Qed.

(** The conversion raises [OverflowError] only, and only from [2^1023]
    on. *)
Lemma binary64_of_int_overflow (n : Z) (e : PyError) :
  binary64_of_int n = Raise e ->
  e = OverflowError "int too large to convert to float" /\
  (2 ^ 1023 <= Z.abs n)%Z.
Proof.
  unfold binary64_of_int. cbv zeta.
  set (a := Z.abs n).
  set (bits := if (a =? 0)%Z then 0%Z else (Z.log2 a + 1)%Z).
  set (shift := Z.max 0 (bits - 53)).
  set (q := (a / 2 ^ shift)%Z).
  set (q' := if (shift =? 0)%Z then q
             else if (2 ^ (shift - 1) <? a mod 2 ^ shift)%Z
                     || ((2 ^ (shift - 1) =? a mod 2 ^ shift)%Z && Z.odd q)
                  then (q + 1)%Z else q).
  destruct (2 ^ 1024 <=? q' * 2 ^ shift)%Z eqn:E; [|discriminate].
  intro H. injection H as <-. split; [reflexivity|].
  apply Z.leb_le in E.
  destruct (Z_lt_le_dec a (2 ^ 1023)) as [Hlt|Hge]; [exfalso | exact Hge].
  assert (Ha : (0 <= a)%Z) by apply Z.abs_nonneg.
  assert (Hbits : (bits <= 1023)%Z).
  { unfold bits. destruct (a =? 0)%Z eqn:E0; [lia|].
    apply Z.eqb_neq in E0.
    assert (Z.log2 a < 1023)%Z by (apply Z.log2_lt_pow2; lia).
    lia. }
  assert (Hshift : (0 <= shift <= 970)%Z) by (unfold shift; lia).
  assert (HP : (0 < 2 ^ shift <= 2 ^ 970)%Z).
  { split; [apply Z.pow_pos_nonneg; lia | apply Z.pow_le_mono_r; lia]. }
  assert (Hq : (q * 2 ^ shift <= a)%Z).
  { unfold q. rewrite Z.mul_comm. apply Z.mul_div_le. lia. }
  assert (Hq' : (q' <= q + 1)%Z).
  { unfold q'. destruct (shift =? 0)%Z; [lia|].
    destruct ((2 ^ (shift - 1) <? a mod 2 ^ shift)%Z
              || ((2 ^ (shift - 1) =? a mod 2 ^ shift)%Z && Z.odd q)); lia. }
  assert (Hv : (q' * 2 ^ shift <= (q + 1) * 2 ^ shift)%Z)
    by (apply Z.mul_le_mono_nonneg_r; lia).
  rewrite Z.mul_add_distr_r, Z.mul_1_l in Hv.
  assert (Hc : (2 ^ 1023 + 2 ^ 970 < 2 ^ 1024)%Z) by (vm_compute; reflexivity).
  lia.
Qed.

Lemma estimate_response_in_range (tc : TokenCounter) (n : Z) :
  (Z.abs n <= 2 ^ 53)%Z ->
  estimate_response_tokens tc n = Ok (Z.max 50 (n ÷ 4)).
Proof.
  intro H. unfold estimate_response_tokens.
  rewrite (binary64_of_int_exact n H). cbv zeta. rewrite py_int_quarter.
  reflexivity.
Qed.

(** X20.  [estimate_response_tokens] computes [prompt_tokens * 0.25] in
    floats.  Whenever it returns, the estimate is at least 50; it raises
    nothing but [OverflowError], and only for a count of magnitude
    [2^1023] or more, which no float approaches.  For a count a float
    holds exactly (magnitude at most [2^53]) it returns the quarter of
    the prompt rounded towards zero, but never less than 50: it is 50
    for every prompt of at most 203 tokens (negative counts included),
    it is [prompt // 4] from 204 tokens on, and it does not decrease
    when the prompt grows within that range.  Beyond [2^53] the count is
    rounded to a float first, so the estimate can miss the quarter: at
    [2^55 + 4] it is [2^53], one less than [prompt // 4]; at [10^400]
    the call raises. *)
Theorem estimate_response_tokens_quarter_with_floor_50 (tc : TokenCounter)
    (prompt_tokens : Z) :
  (forall estimated,
     estimate_response_tokens tc prompt_tokens = Ok estimated ->
     (50 <= estimated)%Z) /\
  (forall e,
     estimate_response_tokens tc prompt_tokens = Raise e ->
     e = OverflowError "int too large to convert to float" /\
     (2 ^ 1023 <= Z.abs prompt_tokens)%Z) /\
  ((Z.abs prompt_tokens <= 2 ^ 53)%Z ->
   exists estimated,
     estimate_response_tokens tc prompt_tokens = Ok estimated /\
     (prompt_tokens <= 203 -> estimated = 50)%Z /\
     (204 <= prompt_tokens ->
        estimated = prompt_tokens / 4 /\
        4 * estimated <= prompt_tokens < 4 * estimated + 4)%Z /\
     (forall larger,
        (prompt_tokens <= larger)%Z -> (Z.abs larger <= 2 ^ 53)%Z ->
        exists estimated',
          estimate_response_tokens tc larger = Ok estimated' /\
          (estimated <= estimated')%Z)) /\
  (estimate_response_tokens tc (2 ^ 55 + 4) = Ok (2 ^ 53)%Z /\
   ((2 ^ 55 + 4) / 4 = 2 ^ 53 + 1)%Z) /\
  estimate_response_tokens tc (10 ^ 400) =
    Raise (OverflowError "int too large to convert to float").
Proof.
  split; [|split; [|split; [|split]]].
  - unfold estimate_response_tokens.
    destruct (binary64_of_int prompt_tokens) as [x|e]; [|discriminate].
    cbv zeta. intros estimated H. injection H as <-. lia.
  - unfold estimate_response_tokens.
    destruct (binary64_of_int prompt_tokens) as [x|e'] eqn:E; [discriminate|].
    intros e H. injection H as <-.
    exact (binary64_of_int_overflow prompt_tokens e' E).
  - intro Hrange. exists (Z.max 50 (prompt_tokens ÷ 4)).
    split; [exact (estimate_response_in_range tc prompt_tokens Hrange)|].
    split; [|split].
    + intro H. apply Z.max_l.
      destruct (Z_le_gt_dec 0 prompt_tokens) as [Hp|Hn].
      * rewrite Z.quot_div_nonneg by lia.
        assert (prompt_tokens / 4 < 51)%Z by (apply Z.div_lt_upper_bound; lia).
        lia.
      * pose proof (Z.quot_opp_l (- prompt_tokens) 4 ltac:(lia)) as Ho.
        rewrite Z.opp_involutive in Ho.
        assert (0 <= (- prompt_tokens) ÷ 4)%Z by (apply Z.quot_pos; lia).
        lia.
    + intro H. rewrite Z.quot_div_nonneg by lia.
      assert (51 <= prompt_tokens / 4)%Z by (apply Z.div_le_lower_bound; lia).
      rewrite Z.max_r by lia.
      split; [reflexivity|].
      pose proof (Z.div_mod prompt_tokens 4 ltac:(lia)) as Hd.
      pose proof (Z.mod_pos_bound prompt_tokens 4 ltac:(lia)) as Hm.
      lia.
    + intros larger Hl Hlr. exists (Z.max 50 (larger ÷ 4)).
      split; [exact (estimate_response_in_range tc larger Hlr)|].
      assert (prompt_tokens ÷ 4 <= larger ÷ 4)%Z
        by (apply Z.quot_le_mono; lia).
      lia.
  - split; vm_compute; reflexivity.
  - vm_compute. reflexivity.
Qed.

Lemma estimate_response_tokens_quarter_with_floor_50_witness :
  estimate_response_tokens (mkCounter char_encoding) 1000 = Ok (1000 / 4)%Z.
Proof.
  destruct (estimate_response_tokens_quarter_with_floor_50
              (mkCounter char_encoding) 1000) as [_ [_ [H _]]].
  destruct H as [estimated [E [_ [H _]]]].
  - vm_compute. discriminate.
  - destruct (H ltac:(lia)) as [-> _]. exact E.
Defined.

(** ** The configuration check *)

(** X21.  What [RatelimitConfig] accepts.  Construction succeeds exactly
    when an API key is given or found in the environment and
    [requests_per_second > 0], [tokens_per_minute > 0],
    [max_retries >= 0], [base_delay > 0], [max_delay > 0] and
    [timeout > 0]; the result then has the given fields, with a key that
    was given taking precedence over the environment's.  In every other
    case it raises [ValueError], never another error. *)
Theorem config_accepts_exactly_valid_fields (env_key : option string)
    (fields : RatelimitConfig) :
  (forall config,
     RatelimitConfig_post_init env_key fields = Ok config <->
     (exists key,
        (api_key fields = Some key \/ (api_key fields = None /\ env_key = Some key)) /\
        config = mkConfig (Some key) (requests_per_second fields)
                          (tokens_per_minute fields) (max_retries fields)
                          (base_delay fields) (max_delay fields) (timeout fields)) /\
     0 < requests_per_second fields /\ (0 < tokens_per_minute fields)%Z /\
     (0 <= max_retries fields)%Z /\ 0 < base_delay fields /\
     0 < max_delay fields /\ 0 < timeout fields) /\
  (forall e,
     RatelimitConfig_post_init env_key fields = Raise e ->
     exists msg, e = ValueError msg).
Proof.
  unfold RatelimitConfig_post_init.
  destruct (api_key fields) as [k|] eqn:Ek; [|destruct env_key as [k|]].
  3: { split.
       - intro config. split; [discriminate|].
         intros [[key [[H|[_ H]] _]] _]; discriminate.
       - intros e H. injection H as <-. eexists. reflexivity. }
  all: destruct (Qleb (requests_per_second fields) 0) eqn:E1;
       [split; [intro config; split; [discriminate|];
                intros [_ [H _]]; apply Qleb_true in E1; lra
               |intros e H; injection H as <-; eexists; reflexivity]|];
       destruct (tokens_per_minute fields <=? 0)%Z eqn:E2;
       [split; [intro config; split; [discriminate|];
                intros [_ [_ [H _]]]; apply Z.leb_le in E2; lia
               |intros e H; injection H as <-; eexists; reflexivity]|];
       destruct (max_retries fields <? 0)%Z eqn:E3;
       [split; [intro config; split; [discriminate|];
                intros [_ [_ [_ [H _]]]]; apply Z.ltb_lt in E3; lia
               |intros e H; injection H as <-; eexists; reflexivity]|];
       destruct (Qleb (base_delay fields) 0) eqn:E4;
       [split; [intro config; split; [discriminate|];
                intros [_ [_ [_ [_ [H _]]]]]; apply Qleb_true in E4; lra
               |intros e H; injection H as <-; eexists; reflexivity]|];
       destruct (Qleb (max_delay fields) 0) eqn:E5;
       [split; [intro config; split; [discriminate|];
                intros [_ [_ [_ [_ [_ [H _]]]]]]; apply Qleb_true in E5; lra
               |intros e H; injection H as <-; eexists; reflexivity]|];
       destruct (Qleb (timeout fields) 0) eqn:E6;
       [split; [intro config; split; [discriminate|];
                intros [_ [_ [_ [_ [_ [_ H]]]]]]; apply Qleb_true in E6; lra
               |intros e H; injection H as <-; eexists; reflexivity]|];
       apply Qleb_false in E1; apply Z.leb_gt in E2; apply Z.ltb_ge in E3;
       apply Qleb_false in E4; apply Qleb_false in E5; apply Qleb_false in E6;
       (split; [|discriminate]); intro config; split.
  - intro H. injection H as <-. split; [|repeat split; assumption].
    exists k. split; [left; reflexivity | reflexivity].
  - intros [[key [[H|[H _]] ->]] _]; [|discriminate].
    injection H as <-. reflexivity.
  - intro H. injection H as <-. split; [|repeat split; assumption].
    exists k. split; [right; split; reflexivity | reflexivity].
  - intros [[key [[H|[_ H]] ->]] _]; [discriminate|].
    injection H as <-. reflexivity.
Qed.

Lemma config_accepts_exactly_valid_fields_witness :
  0 < requests_per_second (mkConfig (Some "key"%string) 1 500000 3 1 32 60).
Proof.
  destruct (config_accepts_exactly_valid_fields None
              (mkConfig (Some "key"%string) 1 500000 3 1 32 60)) as [H _].
  destruct (proj1 (H (mkConfig (Some "key"%string) 1 500000 3 1 32 60)) eq_refl)
    as [_ [Hr _]].
  exact Hr.
Defined.

(** X22.  A configuration that passed the check passes it again and
    comes back the same, whatever the environment then holds: its key is
    set, so the environment is not consulted. *)
Theorem validated_config_revalidates_to_itself (env_key env_key' : option string)
    (fields config : RatelimitConfig) :
  RatelimitConfig_post_init env_key fields = Ok config ->
  RatelimitConfig_post_init env_key' config = Ok config /\
  api_key config <> None /\
  (forall key, api_key fields = Some key -> api_key config = Some key).
Proof.
  intro H. unfold RatelimitConfig_post_init in H.
  destruct (match api_key fields with None => env_key | Some k => Some k end)
    as [key|] eqn:Ek; [|discriminate].
  destruct (Qleb (requests_per_second fields) 0) eqn:E1; [discriminate|].
  destruct (tokens_per_minute fields <=? 0)%Z eqn:E2; [discriminate|].
  destruct (max_retries fields <? 0)%Z eqn:E3; [discriminate|].
  destruct (Qleb (base_delay fields) 0) eqn:E4; [discriminate|].
  destruct (Qleb (max_delay fields) 0) eqn:E5; [discriminate|].
  destruct (Qleb (timeout fields) 0) eqn:E6; [discriminate|].
  injection H as <-. split; [|split].
  - unfold RatelimitConfig_post_init.
    cbn [api_key requests_per_second tokens_per_minute max_retries base_delay
         max_delay timeout].
    rewrite E1, E2, E3, E4, E5, E6. reflexivity.
  - cbn [api_key]. discriminate.
  - intros k Hk. rewrite Hk in Ek. cbn [api_key]. symmetry. exact Ek.
Qed.

Lemma validated_config_revalidates_to_itself_witness :
  RatelimitConfig_post_init None
    (mkConfig (Some "env-key"%string) 1 500000 3 1 32 60)
  = Ok (mkConfig (Some "env-key"%string) 1 500000 3 1 32 60).
Proof.
  apply (validated_config_revalidates_to_itself (Some "env-key"%string) None
           (mkConfig None 1 500000 3 1 32 60)).
  reflexivity.
Defined.

(** ** A streamed call from estimate to refund *)

Lemma process_whole_stream (events : list Event) (estimated : Z) :
  forall pulls l,
    (List.length events < pulls)%nat ->
    _process_stream_response pulls (map Yield events) estimated l =
    (events, Exhausted,
     fold_left (fun l e => observe_event estimated e l) events l).
Proof.
  induction events as [|e rest IH]; intros pulls l Hp.
  - destruct pulls; [inversion Hp | reflexivity].
  - destruct pulls as [|p]; [inversion Hp|].
    cbn [map _process_stream_response fold_left].
    assert (Hp' : (List.length rest < p)%nat)
      by (apply PeanoNat.lt_S_n; exact Hp).
    rewrite (IH p _ Hp'). reflexivity.
Qed.

(** X23.  What a streamed call is charged.  A streamed call that is
    never iterated does nothing, not even the reservation.  On a limiter
    with positive rates, a streamed call iterated to the end of an
    upstream that does not raise and carries exactly one done event hands
    on every event and leaves the token bucket at its balance at the
    debit minus [min(estimate, actual)], as a call that is not streamed
    does. *)
Theorem streamed_call_is_charged_min_of_estimate_and_usage
    (estimated : Z) (pulls : nat) (pre post : list Event) (e : Event)
    (d : EventData) (w : World) :
  0 < refill_rate (request_bucket (limiter w)) ->
  0 < refill_rate (token_bucket (limiter w)) ->
  forallb (fun e => negb (is_terminal e)) pre = true ->
  forallb (fun e => negb (is_terminal e)) post = true ->
  data e = Some d -> is_terminal e = true ->
  (List.length (pre ++ e :: post) <= pulls)%nat ->
  let events := pre ++ e :: post in
  let actual := _extract_usage (body d) in
  stream_call estimated 0 (map Yield events) w = Ok (([], Abandoned), w) /\
  exists w',
    stream_call estimated (S pulls) (map Yield events) w
      = Ok ((events, Exhausted), w') /\
    available (token_bucket (limiter w')) ==
      balance_at_debit Tok (inject_Z estimated)
        (snd (bucket_acquire_spec Req 1 w))
      - inject_Z (Z.min estimated actual).
Proof.
  intros Hr Ht Hpre Hpost Hd He Hp events actual.
  split; [reflexivity|].
  pose proof (acquire_run 1 (inject_Z estimated) w Hr Ht) as Hacq.
  destruct (acquire_spec_token_balance 1 (inject_Z estimated) w) as [_ Bt].
  set (w1 := snd (acquire_spec 1 (inject_Z estimated) w)) in *.
  eexists. split.
  { unfold stream_call, bind. rewrite Hacq.
    rewrite process_whole_stream
      by (apply PeanoNat.Nat.lt_succ_r; exact Hp).
    reflexivity. }
  cbn [limiter]. unfold events. rewrite fold_left_app. cbn [fold_left].
  rewrite fold_observe_no_terminal by exact Hpost.
  rewrite fold_observe_no_terminal by exact Hpre.
  rewrite (observe_terminal estimated e d _ Hd He). fold actual.
  unfold _refund_tokens. destruct (actual <? estimated)%Z eqn:E.
  - apply Z.ltb_lt in E.
    cbn [put_bucket token_bucket set_available available].
    rewrite Bt. rewrite Z.min_r by lia.
    unfold Z.sub. rewrite inject_Z_plus, inject_Z_opp. ring.
  - apply Z.ltb_ge in E. rewrite Bt. rewrite Z.min_l by lia. reflexivity.
Qed.

Lemma streamed_call_is_charged_min_of_estimate_and_usage_witness :
  exists w',
    stream_call 80 3
      (map Yield
         [mkEvent (Some (mkData "message.output.delta" OtherResponse)) "chunk";
          mkEvent (Some (mkData "conversation.response.done"
                           (ObjResponse (Some (Some 60%Z))))) "done"])
      scenario_world
    = Ok (([mkEvent (Some (mkData "message.output.delta" OtherResponse)) "chunk";
            mkEvent (Some (mkData "conversation.response.done"
                             (ObjResponse (Some (Some 60%Z))))) "done"],
           Exhausted), w') /\
    available (token_bucket (limiter w')) == 60.
Proof.
  destruct (streamed_call_is_charged_min_of_estimate_and_usage 80 2
              [mkEvent (Some (mkData "message.output.delta" OtherResponse)) "chunk"]
              []
              (mkEvent (Some (mkData "conversation.response.done"
                                (ObjResponse (Some (Some 60%Z))))) "done")
              (mkData "conversation.response.done" (ObjResponse (Some (Some 60%Z))))
              scenario_world)
    as [_ [w' [Hrun Hav]]]; try reflexivity.
  exists w'. split; [exact Hrun|]. rewrite Hav. reflexivity.
Defined.
